(** * AI_Studio: the live recorder hook and the batch audio splitter

    A shallow embedding of [src/hooks/useRecorder.ts] and
    [src/components/AudioSplitter.tsx], with the properties the design
    document states about them.  The last three parts add properties read
    off the code: the outcomes of a batch job, the recorder's scheduler and
    devices, and two functions of the recorder's view.

    JavaScript numbers that may be fractional (durations in minutes, clock
    readings in milliseconds, progress ratios) are rationals [Q]; counters
    and indices are [nat] or [Z]; strings are [string]; browser handles
    (timer ids, animation frame ids, stream ids) are [positive], the HTML
    standard making them integers greater than zero, so that the source's
    truthiness tests [if (ref.current)] are tests against [null]. *)

From Stdlib Require Import ZArith QArith Qround Qabs Qminmax Lqa Lia String Ascii List.
From stdpp Require Import base strings gmap list sorting relations.

Open Scope string_scope.

(** ** The parts of the JavaScript library the two files use *)

Module JS.

(** [s.split(sep)] for a separator of one character. *)
Fixpoint split (sep : ascii) (s : string) : list string :=
  match s with
  | EmptyString => [EmptyString]
  | String c s' =>
      if Ascii.eqb c sep then EmptyString :: split sep s'
      else match split sep s' with
           | [] => [String c EmptyString]
           | hd :: tl => String c hd :: tl
           end
  end.

Definition digit_char (d : nat) : ascii :=
  ascii_of_nat (48 + d).

Definition digit_value (c : ascii) : option nat :=
  let n := nat_of_ascii c in
  if ((48 <=? n) && (n <=? 57))%nat then Some (n - 48) else None.

(** [n.toString()] for a non-negative integer: the decimal digits, most
    significant first, produced from the least significant one. *)
Fixpoint digits_aux (fuel n : nat) (acc : string) : string :=
  match fuel with
  | O => acc
  | S fuel' =>
      let acc' := String (digit_char (n mod 10)) acc in
      if (n / 10 =? 0)%nat then acc' else digits_aux fuel' (n / 10) acc'
  end.

Definition toString (n : nat) : string := digits_aux (S n) n EmptyString.

Fixpoint repeat_char (n : nat) (c : ascii) : string :=
  match n with
  | O => EmptyString
  | S n' => String c (repeat_char n' c)
  end.

(** [s.padStart(target, fill)] for a fill string of one character. *)
Definition padStart (target : nat) (fill : ascii) (s : string) : string :=
  repeat_char (target - String.length s) fill +:+ s.

(** [s.startsWith(p)]. *)
Definition startsWith (s p : string) : bool := String.prefix p s.

(** [s.lastIndexOf(".")]: the position of the last dot, if any. *)
Fixpoint lastIndexOf_dot (s : string) : option nat :=
  match s with
  | EmptyString => None
  | String c s' =>
      match lastIndexOf_dot s' with
      | Some i => Some (S i)
      | None => if Ascii.eqb c "."%char then Some 0 else None
      end
  end.

(** [s.toLowerCase()] on the ASCII letters. *)
Definition lower_char (c : ascii) : ascii :=
  let n := nat_of_ascii c in
  if ((65 <=? n) && (n <=? 90))%nat then ascii_of_nat (n + 32) else c.

Fixpoint toLowerCase (s : string) : string :=
  match s with
  | EmptyString => EmptyString
  | String c s' => String (lower_char c) (toLowerCase s')
  end.

(** *** Numeric collation

    [a.localeCompare(b, undefined, {numeric: true})] belongs to the
    runtime's collator.  The model keeps what [numeric: true] adds: a
    maximal run of decimal digits is one collation element, compared by its
    value.  Other characters are compared by code, and a digit run sorts
    before a character; the properties below compare names whose characters
    outside the digit runs coincide, so they do not depend on that choice. *)

Inductive token : Type :=
| TNum (n : nat)
| TChr (c : ascii).

Definition flush (run : option nat) : list token :=
  match run with
  | Some n => [TNum n]
  | None => []
  end.

Fixpoint tokens (run : option nat) (s : string) : list token :=
  match s with
  | EmptyString => flush run
  | String c s' =>
      match digit_value c with
      | Some d => tokens (Some (10 * default 0 run + d)) s'
      | None => flush run ++ TChr c :: tokens None s'
      end
  end.

Definition token_compare (a b : token) : comparison :=
  match a, b with
  | TNum m, TNum n => Nat.compare m n
  | TNum _, TChr _ => Lt
  | TChr _, TNum _ => Gt
  | TChr c, TChr d => Nat.compare (nat_of_ascii c) (nat_of_ascii d)
  end.

Fixpoint tokens_compare (l1 l2 : list token) : comparison :=
  match l1, l2 with
  | [], [] => Eq
  | [], _ :: _ => Lt
  | _ :: _, [] => Gt
  | a :: l1', b :: l2' =>
      match token_compare a b with
      | Eq => tokens_compare l1' l2'
      | r => r
      end
  end.

Definition localeCompare_numeric (a b : string) : comparison :=
  tokens_compare (tokens None a) (tokens None b).

(** [arr.sort(cmp)]: the standard fixes the result (a stable arrangement
    in the comparator's order), not the algorithm; insertion from the right
    is one such arrangement. *)
Section Sort.
Context {A : Type} (cmp : A -> A -> comparison).

Fixpoint sort_insert (x : A) (l : list A) : list A :=
  match l with
  | [] => [x]
  | y :: l' =>
      match cmp x y with
      | Gt => y :: sort_insert x l'
      | _ => x :: l
      end
  end.

Definition sort (l : list A) : list A := foldr sort_insert [] l.

End Sort.

(** [arr.filter((_, index) => p(index))]. *)
Fixpoint filter_index {A : Type} (p : Z -> bool) (i : Z) (l : list A) : list A :=
  match l with
  | [] => []
  | x :: l' =>
      if p i then x :: filter_index p (i + 1)%Z l'
      else filter_index p (i + 1)%Z l'
  end.

End JS.

(** ** Shared types ([src/types.ts]) *)

(** A [Blob]: its bytes and its declared media type. *)
Record Blob : Type := {
  blob_bytes : list Byte.byte;
  blob_type : string;
}.

Definition blob_size (b : Blob) : nat := length (blob_bytes b).

(** [new Blob(parts, {type})]: the parts' bytes, one after the other. *)
Definition new_Blob (parts : list Blob) (type : string) : Blob :=
  {| blob_bytes := concat (map blob_bytes parts); blob_type := type |}.

Record SplitFile : Type := {
  name : string;
  blob : Blob;
}.

(** ** The recorder hook ([src/hooks/useRecorder.ts]) *)

Module Recorder.

Inductive RecordingStatus : Type := idle | recording | stopped.

(** The fields of [new Date()] the naming reads ([getMonth] counts from
    zero). *)
Record DateTime : Type := {
  getFullYear : nat;
  getMonth : nat;
  getDate : nat;
  getHours : nat;
  getMinutes : nat;
}.

(** One reading of the clock: the milliseconds the timers count in, and
    the local calendar fields of the same instant. *)
Record Clock : Type := {
  clock_ms : Q;
  clock_date : DateTime;
}.

(** A thrown value: whether it is an [Error] instance, its [name] and its
    [message]. *)
Record JsError : Type := {
  is_Error : bool;
  err_name : string;
  err_message : string;
}.

(** The three texts [startRecording] can put in [error]: microphone
    permission denied; "cannot start recording: " followed by the error's
    message; unknown error. *)
Inductive Message : Type :=
| MsgPermissionDenied
| MsgCannotStart (detail : string)
| MsgUnknown.

Inductive RecorderState : Type := rs_inactive | rs_recording.

(** A [MediaRecorder] instance with what its two handlers close over:
    [mimeType] and the instance's own [recorderChunks].  [mr_started] is
    the clock when [start()] was called; the source never reads it.
    [mr_stop_pending] holds between [stop()] and the [stop] event. *)
Record MediaRecorder : Type := {
  mr_state : RecorderState;
  mr_mimeType : string;
  recorderChunks : list Blob;
  mr_started : Clock;
  mr_stop_pending : bool;
}.

(** An interval armed with [setInterval]: its id, when it is next due and
    its period, in milliseconds.  The browser never runs the callback
    before it is due; it may run it later (a throttled tab, or the floor
    of 4 ms the browser puts on an interval that has repeated five
    times). *)
Record Timer : Type := {
  tm_id : positive;
  tm_due : Q;
  tm_period : Q;
}.

(** The hook's React state, its refs, and the browser objects they refer
    to: the recorders created so far, the streams whose tracks are live,
    the audio contexts not yet closed, the armed intervals, the requested
    animation frames, and the next fresh handle.  [pending_starts] holds
    the arguments of the calls of [startRecording] that wait at
    [await getUserMedia], oldest first. *)
Record State : Type := Build_State {
  status : RecordingStatus;
  recordedChunks : list SplitFile;
  error : option Message;
  volume : Q;
  mediaRecorderRef : option positive;
  streamRef : option positive;
  segmentTimerRef : option positive;
  mimeTypeRef : string;
  segmentDurationRef : Q;
  audioContextRef : option positive;
  analyserRef : bool;
  sourceNodeRef : bool;
  animationFrameIdRef : option positive;
  recorders : gmap positive MediaRecorder;
  live_streams : list positive;
  open_contexts : list positive;
  timers : list Timer;
  frames : list positive;
  next_handle : positive;
  pending_starts : list (string * Q);
}.

Definition set_status (v : RecordingStatus) (s : State) : State :=
  Build_State v (recordedChunks s) (error s) (volume s) (mediaRecorderRef s)
    (streamRef s) (segmentTimerRef s) (mimeTypeRef s) (segmentDurationRef s)
    (audioContextRef s) (analyserRef s) (sourceNodeRef s)
    (animationFrameIdRef s) (recorders s) (live_streams s) (open_contexts s)
    (timers s) (frames s) (next_handle s)
    (pending_starts s).

Definition set_recordedChunks (v : list SplitFile) (s : State) : State :=
  Build_State (status s) v (error s) (volume s) (mediaRecorderRef s)
    (streamRef s) (segmentTimerRef s) (mimeTypeRef s) (segmentDurationRef s)
    (audioContextRef s) (analyserRef s) (sourceNodeRef s)
    (animationFrameIdRef s) (recorders s) (live_streams s) (open_contexts s)
    (timers s) (frames s) (next_handle s)
    (pending_starts s).

Definition set_error (v : option Message) (s : State) : State :=
  Build_State (status s) (recordedChunks s) v (volume s) (mediaRecorderRef s)
    (streamRef s) (segmentTimerRef s) (mimeTypeRef s) (segmentDurationRef s)
    (audioContextRef s) (analyserRef s) (sourceNodeRef s)
    (animationFrameIdRef s) (recorders s) (live_streams s) (open_contexts s)
    (timers s) (frames s) (next_handle s)
    (pending_starts s).

Definition set_volume (v : Q) (s : State) : State :=
  Build_State (status s) (recordedChunks s) (error s) v (mediaRecorderRef s)
    (streamRef s) (segmentTimerRef s) (mimeTypeRef s) (segmentDurationRef s)
    (audioContextRef s) (analyserRef s) (sourceNodeRef s)
    (animationFrameIdRef s) (recorders s) (live_streams s) (open_contexts s)
    (timers s) (frames s) (next_handle s)
    (pending_starts s).

Definition set_mediaRecorderRef (v : option positive) (s : State) : State :=
  Build_State (status s) (recordedChunks s) (error s) (volume s) v
    (streamRef s) (segmentTimerRef s) (mimeTypeRef s) (segmentDurationRef s)
    (audioContextRef s) (analyserRef s) (sourceNodeRef s)
    (animationFrameIdRef s) (recorders s) (live_streams s) (open_contexts s)
    (timers s) (frames s) (next_handle s)
    (pending_starts s).

Definition set_streamRef (v : option positive) (s : State) : State :=
  Build_State (status s) (recordedChunks s) (error s) (volume s)
    (mediaRecorderRef s) v (segmentTimerRef s) (mimeTypeRef s)
    (segmentDurationRef s) (audioContextRef s) (analyserRef s)
    (sourceNodeRef s) (animationFrameIdRef s) (recorders s) (live_streams s)
    (open_contexts s) (timers s) (frames s) (next_handle s)
    (pending_starts s).

Definition set_segmentTimerRef (v : option positive) (s : State) : State :=
  Build_State (status s) (recordedChunks s) (error s) (volume s)
    (mediaRecorderRef s) (streamRef s) v (mimeTypeRef s)
    (segmentDurationRef s) (audioContextRef s) (analyserRef s)
    (sourceNodeRef s) (animationFrameIdRef s) (recorders s) (live_streams s)
    (open_contexts s) (timers s) (frames s) (next_handle s)
    (pending_starts s).

Definition set_mimeTypeRef (v : string) (s : State) : State :=
  Build_State (status s) (recordedChunks s) (error s) (volume s)
    (mediaRecorderRef s) (streamRef s) (segmentTimerRef s) v
    (segmentDurationRef s) (audioContextRef s) (analyserRef s)
    (sourceNodeRef s) (animationFrameIdRef s) (recorders s) (live_streams s)
    (open_contexts s) (timers s) (frames s) (next_handle s)
    (pending_starts s).

Definition set_segmentDurationRef (v : Q) (s : State) : State :=
  Build_State (status s) (recordedChunks s) (error s) (volume s)
    (mediaRecorderRef s) (streamRef s) (segmentTimerRef s) (mimeTypeRef s) v
    (audioContextRef s) (analyserRef s) (sourceNodeRef s)
    (animationFrameIdRef s) (recorders s) (live_streams s) (open_contexts s)
    (timers s) (frames s) (next_handle s)
    (pending_starts s).

Definition set_audioContextRef (v : option positive) (s : State) : State :=
  Build_State (status s) (recordedChunks s) (error s) (volume s)
    (mediaRecorderRef s) (streamRef s) (segmentTimerRef s) (mimeTypeRef s)
    (segmentDurationRef s) v (analyserRef s) (sourceNodeRef s)
    (animationFrameIdRef s) (recorders s) (live_streams s) (open_contexts s)
    (timers s) (frames s) (next_handle s)
    (pending_starts s).

Definition set_analyserRef (v : bool) (s : State) : State :=
  Build_State (status s) (recordedChunks s) (error s) (volume s)
    (mediaRecorderRef s) (streamRef s) (segmentTimerRef s) (mimeTypeRef s)
    (segmentDurationRef s) (audioContextRef s) v (sourceNodeRef s)
    (animationFrameIdRef s) (recorders s) (live_streams s) (open_contexts s)
    (timers s) (frames s) (next_handle s)
    (pending_starts s).

Definition set_sourceNodeRef (v : bool) (s : State) : State :=
  Build_State (status s) (recordedChunks s) (error s) (volume s)
    (mediaRecorderRef s) (streamRef s) (segmentTimerRef s) (mimeTypeRef s)
    (segmentDurationRef s) (audioContextRef s) (analyserRef s) v
    (animationFrameIdRef s) (recorders s) (live_streams s) (open_contexts s)
    (timers s) (frames s) (next_handle s)
    (pending_starts s).

Definition set_animationFrameIdRef (v : option positive) (s : State) : State :=
  Build_State (status s) (recordedChunks s) (error s) (volume s)
    (mediaRecorderRef s) (streamRef s) (segmentTimerRef s) (mimeTypeRef s)
    (segmentDurationRef s) (audioContextRef s) (analyserRef s)
    (sourceNodeRef s) v (recorders s) (live_streams s) (open_contexts s)
    (timers s) (frames s) (next_handle s)
    (pending_starts s).

Definition set_recorders (v : gmap positive MediaRecorder) (s : State) : State :=
  Build_State (status s) (recordedChunks s) (error s) (volume s)
    (mediaRecorderRef s) (streamRef s) (segmentTimerRef s) (mimeTypeRef s)
    (segmentDurationRef s) (audioContextRef s) (analyserRef s)
    (sourceNodeRef s) (animationFrameIdRef s) v (live_streams s)
    (open_contexts s) (timers s) (frames s) (next_handle s)
    (pending_starts s).

Definition set_live_streams (v : list positive) (s : State) : State :=
  Build_State (status s) (recordedChunks s) (error s) (volume s)
    (mediaRecorderRef s) (streamRef s) (segmentTimerRef s) (mimeTypeRef s)
    (segmentDurationRef s) (audioContextRef s) (analyserRef s)
    (sourceNodeRef s) (animationFrameIdRef s) (recorders s) v
    (open_contexts s) (timers s) (frames s) (next_handle s)
    (pending_starts s).

Definition set_open_contexts (v : list positive) (s : State) : State :=
  Build_State (status s) (recordedChunks s) (error s) (volume s)
    (mediaRecorderRef s) (streamRef s) (segmentTimerRef s) (mimeTypeRef s)
    (segmentDurationRef s) (audioContextRef s) (analyserRef s)
    (sourceNodeRef s) (animationFrameIdRef s) (recorders s) (live_streams s) v
    (timers s) (frames s) (next_handle s)
    (pending_starts s).

Definition set_timers (v : list Timer) (s : State) : State :=
  Build_State (status s) (recordedChunks s) (error s) (volume s)
    (mediaRecorderRef s) (streamRef s) (segmentTimerRef s) (mimeTypeRef s)
    (segmentDurationRef s) (audioContextRef s) (analyserRef s)
    (sourceNodeRef s) (animationFrameIdRef s) (recorders s) (live_streams s)
    (open_contexts s) v (frames s) (next_handle s)
    (pending_starts s).

Definition set_frames (v : list positive) (s : State) : State :=
  Build_State (status s) (recordedChunks s) (error s) (volume s)
    (mediaRecorderRef s) (streamRef s) (segmentTimerRef s) (mimeTypeRef s)
    (segmentDurationRef s) (audioContextRef s) (analyserRef s)
    (sourceNodeRef s) (animationFrameIdRef s) (recorders s) (live_streams s)
    (open_contexts s) (timers s) v (next_handle s)
    (pending_starts s).

Definition set_next_handle (v : positive) (s : State) : State :=
  Build_State (status s) (recordedChunks s) (error s) (volume s)
    (mediaRecorderRef s) (streamRef s) (segmentTimerRef s) (mimeTypeRef s)
    (segmentDurationRef s) (audioContextRef s) (analyserRef s)
    (sourceNodeRef s) (animationFrameIdRef s) (recorders s) (live_streams s)
    (open_contexts s) (timers s) (frames s) v (pending_starts s).

Definition set_pending_starts (v : list (string * Q)) (s : State) : State :=
  Build_State (status s) (recordedChunks s) (error s) (volume s)
    (mediaRecorderRef s) (streamRef s) (segmentTimerRef s) (mimeTypeRef s)
    (segmentDurationRef s) (audioContextRef s) (analyserRef s)
    (sourceNodeRef s) (animationFrameIdRef s) (recorders s) (live_streams s)
    (open_contexts s) (timers s) (frames s) (next_handle s) v.

Definition initial : State :=
  {| status := idle; recordedChunks := []; error := None; volume := 0;
     mediaRecorderRef := None; streamRef := None; segmentTimerRef := None;
     mimeTypeRef := EmptyString; segmentDurationRef := 0;
     audioContextRef := None; analyserRef := false; sourceNodeRef := false;
     animationFrameIdRef := None; recorders := ∅; live_streams := [];
     open_contexts := []; timers := []; frames := []; next_handle := 1;
     pending_starts := [] |}.

(** What a call leaves behind: it returns, or it throws, and the state
    reached by then stays. *)
Inductive Outcome : Type :=
| Returned (s : State)
| Thrown (err : JsError) (s : State).

Definition state_of (o : Outcome) : State :=
  match o with
  | Returned s => s
  | Thrown _ s => s
  end.

Definition and_then (o : Outcome) (k : State -> Outcome) : Outcome :=
  match o with
  | Returned s => k s
  | Thrown err s => Thrown err s
  end.

(** [s |> f |> g]: the statements [f] and [g], in the order the source
    runs them. *)
Notation "s |> f" := (f s) (at level 45, left associativity, only parsing).

(** The browser decides which media types [new MediaRecorder] accepts; it
    throws [NotSupportedError] on the others. *)
Class Browser : Type := isTypeSupported : string -> bool.

Definition NotSupportedError : JsError :=
  {| is_Error := true; err_name := "NotSupportedError";
     err_message := "mimeType is not supported" |}.

(** *** Segment names *)

(** [mimeType.split('/')[1].split(';')[0]]; [None] is the [TypeError]
    raised on a media type that has no slash. *)
Definition fileExtension (mimeType : string) : option string :=
  match JS.split "/" mimeType !! 1%nat with
  | Some subtype => JS.split ";" subtype !! 0%nat
  | None => None
  end.

(** [`${year}${month}${day}${hours}${minutes}`]. *)
Definition baseName (now : DateTime) : string :=
  JS.toString (getFullYear now)
  +:+ JS.padStart 2 "0" (JS.toString (getMonth now + 1))
  +:+ JS.padStart 2 "0" (JS.toString (getDate now))
  +:+ JS.padStart 2 "0" (JS.toString (getHours now))
  +:+ JS.padStart 2 "0" (JS.toString (getMinutes now)).

(** [`${baseName}_${counter}.${fileExtension}`]. *)
Definition numbered (baseName fileExtension : string) (counter : nat) : string :=
  baseName +:+ "_" +:+ JS.toString counter +:+ "." +:+ fileExtension.

(** [prev.some(chunk => chunk.name === finalName)]. *)
Definition taken (prev : list SplitFile) (finalName : string) : bool :=
  existsb (fun chunk => String.eqb (name chunk) finalName) prev.

(** The [while] loop of the updater, started at [finalName] and [counter];
    [None] when [fuel] rounds did not end it. *)
Fixpoint pick_name (fuel : nat) (prev : list SplitFile)
    (baseName fileExtension finalName : string) (counter : nat) : option string :=
  match fuel with
  | O => if taken prev finalName then None else Some finalName
  | S fuel' =>
      if taken prev finalName then
        pick_name fuel' prev baseName fileExtension
          (numbered baseName fileExtension (S counter)) (S counter)
      else Some finalName
  end.

(** The updater passed to [setRecordedChunks] in [onstop].  One round more
    than [prev] has entries always ends the loop ([pick_name_total]). *)
Definition add_chunk (baseName fileExtension : string) (blob : Blob)
    (prev : list SplitFile) : list SplitFile :=
  match pick_name (S (length prev)) prev baseName fileExtension
          (baseName +:+ "." +:+ fileExtension) 1 with
  | Some finalName => prev ++ [{| name := finalName; blob := blob |}]
  | None => prev
  end.

(** *** Recorder instances and their handlers *)

Definition recorder_is_recording (id : positive) (s : State) : bool :=
  match recorders s !! id with
  | Some mr => match mr_state mr with rs_recording => true | rs_inactive => false end
  | None => false
  end.

(** [mediaRecorder.stop()]: the instance turns inactive at once; its
    [stop] event is delivered later. *)
Definition recorder_stop (id : positive) (s : State) : State :=
  match recorders s !! id with
  | Some mr =>
      set_recorders
        (<[id := {| mr_state := rs_inactive; mr_mimeType := mr_mimeType mr;
                    recorderChunks := recorderChunks mr;
                    mr_started := mr_started mr;
                    mr_stop_pending := true |}]> (recorders s)) s
  | None => s
  end.

Definition ondataavailable (id : positive) (data : Blob) (s : State) : State :=
  match recorders s !! id with
  | Some mr =>
      if (0 <? blob_size data)%nat then
        set_recorders
          (<[id := {| mr_state := mr_state mr; mr_mimeType := mr_mimeType mr;
                      recorderChunks := recorderChunks mr ++ [data];
                      mr_started := mr_started mr;
                      mr_stop_pending := mr_stop_pending mr |}]> (recorders s)) s
      else s
  | None => s
  end.

(** The [stop] handler of instance [id], run when the clock reads [now]. *)
Definition onstop (id : positive) (now : Clock) (s : State) : State :=
  match recorders s !! id with
  | Some mr =>
      let blob := new_Blob (recorderChunks mr) (mr_mimeType mr) in
      if (0 <? blob_size blob)%nat then
        match fileExtension (mr_mimeType mr) with
        | Some ext =>
            set_recordedChunks
              (add_chunk (baseName (clock_date now)) ext blob (recordedChunks s)) s
        | None => s
        end
      else s
  | None => s
  end.

Section WithBrowser.
Context `{Browser}.

(** [new MediaRecorder] throws on a format the browser does not record.
    [start] is taken to succeed: it throws on a stream none of whose tracks
    is live, and the tracks of a stream end, here, only when the hook stops
    them, which it does as it empties the stream ref. *)
Definition startNewSegment (now : Clock) (stream : positive) (mimeType : string)
    (s : State) : Outcome :=
  if isTypeSupported mimeType then
    let id := next_handle s in
    let mr := {| mr_state := rs_recording; mr_mimeType := mimeType;
                 recorderChunks := []; mr_started := now;
                 mr_stop_pending := false |} in
    Returned
      (s |> set_next_handle (Pos.succ id)
         |> set_mediaRecorderRef (Some id)
         |> set_recorders (<[id := mr]> (recorders s)))
  else Thrown NotSupportedError s.

(** [if (mediaRecorderRef.current && mediaRecorderRef.current.state ===
    'recording') mediaRecorderRef.current.stop()]. *)
Definition stop_if_recording (s : State) : State :=
  match mediaRecorderRef s with
  | Some id => if recorder_is_recording id s then recorder_stop id s else s
  | None => s
  end.

(** [if (streamRef.current) startNewSegment(streamRef.current,
    mimeTypeRef.current)]. *)
Definition start_on_stream (now : Clock) (s : State) : Outcome :=
  match streamRef s with
  | Some stream => startNewSegment now stream (mimeTypeRef s) s
  | None => Returned s
  end.

Definition createNewSegment (now : Clock) (s : State) : Outcome :=
  s |> stop_if_recording |> start_on_stream now.

End WithBrowser.

(** *** Telemetry *)

Definition cancelAnimationFrame (id : positive) (s : State) : State :=
  set_frames (filter (λ f, f ≠ id) (frames s)) s.

(** [if (animationFrameIdRef.current) { cancelAnimationFrame(...);
    animationFrameIdRef.current = null }]. *)
Definition cancel_frame (s : State) : State :=
  match animationFrameIdRef s with
  | Some id => s |> cancelAnimationFrame id |> set_animationFrameIdRef None
  | None => s
  end.

(** [if (audioContextRef.current && state !== 'closed') close()]. *)
Definition close_context (s : State) : State :=
  match audioContextRef s with
  | Some ctx => set_open_contexts (filter (λ c, c ≠ ctx) (open_contexts s)) s
  | None => s
  end.

Definition cleanupAudioContext (s : State) : State :=
  s |> cancel_frame
    |> set_sourceNodeRef false
    |> set_analyserRef false
    |> close_context
    |> set_audioContextRef None
    |> set_volume 0.

(** [draw]: [rms] stands for the root mean square the loop computes from
    the analyser's window; the square root is not modelled. *)
Definition draw (rms : Q) (s : State) : State :=
  if analyserRef s then
    let id := next_handle s in
    s |> set_volume rms
      |> set_next_handle (Pos.succ id)
      |> set_frames (frames s ++ [id])
      |> set_animationFrameIdRef (Some id)
  else s.

(** *** Timers and streams *)

(** The delay [setInterval] works with.  Its [timeout] argument is a
    WebIDL [long]: the number given is cut to its integer part, reduced
    modulo [2^32] into [-2^31 .. 2^31 - 1], and a negative result counts
    as zero.  So a delay from [2^31] ms on (24.8 days) wraps. *)
Definition timeout_ms (delay : Q) : Q :=
  let integer := Z.quot (Qnum delay) (Z.pos (Qden delay)) in
  let residue := (integer mod 2 ^ 32)%Z in
  let long := if (residue <? 2 ^ 31)%Z then residue else (residue - 2 ^ 32)%Z in
  inject_Z (Z.max 0 long).

Definition setInterval (now : Clock) (delay : Q) (s : State) : positive * State :=
  let id := next_handle s in
  let period := timeout_ms delay in
  (id,
   s |> set_next_handle (Pos.succ id)
     |> set_timers
          (timers s ++ [{| tm_id := id; tm_due := clock_ms now + period;
                           tm_period := period |}])).

Definition clearInterval (id : positive) (s : State) : State :=
  set_timers (filter (λ tm, tm_id tm ≠ id) (timers s)) s.

(** [if (minutes > 0) segmentTimerRef.current =
    window.setInterval(createNewSegment, minutes * 60 * 1000)]. *)
Definition arm_timer (now : Clock) (minutes : Q) (s : State) : State :=
  if Qlt_le_dec 0 minutes then
    let '(id, s) := setInterval now (minutes * 60 * 1000) s in
    set_segmentTimerRef (Some id) s
  else s.

(** [if (segmentTimerRef.current) clearInterval(segmentTimerRef.current)]. *)
Definition disarm_timer (s : State) : State :=
  match segmentTimerRef s with
  | Some timer => clearInterval timer s
  | None => s
  end.

(** [if (segmentTimerRef.current) { clearInterval(...);
    segmentTimerRef.current = null }]. *)
Definition release_timer (s : State) : State :=
  match segmentTimerRef s with
  | Some timer => s |> clearInterval timer |> set_segmentTimerRef None
  | None => s
  end.

Definition stop_tracks (stream : positive) (s : State) : State :=
  set_live_streams (filter (λ st, st ≠ stream) (live_streams s)) s.

(** [if (streamRef.current) { streamRef.current.getTracks().forEach(track
    => track.stop()); streamRef.current = null }]. *)
Definition release_stream (s : State) : State :=
  match streamRef s with
  | Some stream => s |> stop_tracks stream |> set_streamRef None
  | None => s
  end.

(** *** The hook's operations *)

(** What [startRecording] meets on its way: whether [getUserMedia] rejects,
    whether setting up the audio context throws, and the first telemetry
    sample. *)
Record StartEnv : Type := {
  getUserMedia_error : option JsError;
  audioContext_error : option JsError;
  first_rms : Q;
}.

(** The [catch] clause of [startRecording]. *)
Definition start_error_message (err : JsError) : Message :=
  if is_Error err then
    if String.eqb (err_name err) "NotAllowedError"
       || String.eqb (err_name err) "PermissionDeniedError"
    then MsgPermissionDenied
    else MsgCannotStart (err_message err)
  else MsgUnknown.

(** [streamRef.current = stream], for the stream [getUserMedia] gave. *)
Definition acquire_stream (s : State) : State :=
  let stream := next_handle s in
  s |> set_next_handle (Pos.succ stream)
    |> set_live_streams (stream :: live_streams s)
    |> set_streamRef (Some stream).

(** The audio context, its analyser and the source node connected to it. *)
Definition connect_analyser (s : State) : State :=
  let ctx := next_handle s in
  s |> set_next_handle (Pos.succ ctx)
    |> set_open_contexts (ctx :: open_contexts s)
    |> set_audioContextRef (Some ctx)
    |> set_analyserRef true
    |> set_sourceNodeRef true.

Section Operations.
Context `{Browser}.

(** [startRecording] is asynchronous: it runs up to
    [await getUserMedia], and the rest when the promise has settled, with
    whatever happened in between.

    The [try] block of [startRecording], from the moment [getUserMedia]
    settles. *)
Definition startRecording_try (env : StartEnv) (now : Clock) (mimeType : string)
    (segmentDurationMinutes : Q) (s : State) : Outcome :=
  match getUserMedia_error env with
  | Some err => Thrown err s
  | None =>
      let stream := next_handle s in
      let s := acquire_stream s in
      match audioContext_error env with
      | Some err => Thrown err s
      | None =>
          and_then
            (s |> connect_analyser
               |> draw (first_rms env)
               |> startNewSegment now stream mimeType)
            (fun s =>
               Returned (s |> set_status recording
                           |> arm_timer now segmentDurationMinutes))
      end
  end.

(** The call, up to the [await]: it returns at once from a session that
    records, and otherwise sets the two refs and waits for the stream. *)
Definition startRecording_call (mimeType : string) (segmentDurationMinutes : Q)
    (s : State) : State :=
  match status s with
  | recording => set_error None s
  | _ =>
      s |> set_error None
        |> set_mimeTypeRef mimeType
        |> set_segmentDurationRef segmentDurationMinutes
        |> (fun s =>
              set_pending_starts
                (pending_starts s ++ [(mimeType, segmentDurationMinutes)]) s)
  end.

(** The rest of the call, with the arguments it was called with: the
    [try] block and its [catch] clause.  The status is not tested again. *)
Definition startRecording_resume (env : StartEnv) (now : Clock)
    (mimeType : string) (segmentDurationMinutes : Q) (s : State) : State :=
  match startRecording_try env now mimeType segmentDurationMinutes s with
  | Returned s => s
  | Thrown err s => set_error (Some (start_error_message err)) s
  end.

(** A call whose [getUserMedia] settles before anything else happens:
    both parts, one after the other. *)
Definition startRecording (env : StartEnv) (now : Clock) (mimeType : string)
    (segmentDurationMinutes : Q) (s : State) : State :=
  match status s with
  | recording => set_error None s
  | _ =>
      s |> set_error None
        |> set_mimeTypeRef mimeType
        |> set_segmentDurationRef segmentDurationMinutes
        |> startRecording_resume env now mimeType segmentDurationMinutes
  end.

Definition stopRecording (s : State) : State :=
  match status s, mediaRecorderRef s with
  | recording, Some _ =>
      s |> cleanupAudioContext
        |> release_timer
        |> stop_if_recording
        |> release_stream
        |> set_status stopped
  | _, _ => s
  end.

Definition splitSegment (now : Clock) (s : State) : Outcome :=
  match status s with
  | recording =>
      and_then (createNewSegment now s)
        (fun s =>
           Returned (s |> disarm_timer
                       |> (fun s => arm_timer now (segmentDurationRef s) s)))
  | _ => Returned s
  end.

(** [indexToDelete] is a JavaScript number; one that is not an integer
    equals no index and is not modelled. *)
Definition deleteSegment (indexToDelete : Z) (s : State) : State :=
  set_recordedChunks
    (JS.filter_index (fun index => negb (index =? indexToDelete)%Z) 0
       (recordedChunks s)) s.

Definition resetRecording (s : State) : State :=
  match status s with
  | recording => stopRecording s
  | _ => cleanupAudioContext s
  end
  |> set_status idle
  |> set_recordedChunks []
  |> set_mediaRecorderRef None
  |> release_stream
  |> release_timer
  |> set_error None.

(** *** The session as a transition system

    A call of one of the hook's operations, or a callback the browser
    runs: an interval that has come due, a [dataavailable] or [stop] event
    of a recorder, an animation frame.  Each runs to its end before the
    next; a call is the one of the latest render, so the [status] it
    closes over is the current one.

    [startRecording] is the one operation that waits.  [StartCalled] is
    its call, [StartResumed] the moment [getUserMedia] settles for the
    pending call at position [call]; any event may come between the two,
    another call of [startRecording] included, the view never disabling
    its button.  [CallStart] is a call whose [getUserMedia] settles before
    the next event. *)
Inductive Event : Type :=
| CallStart (env : StartEnv) (now : Clock) (mimeType : string) (minutes : Q)
| StartCalled (mimeType : string) (minutes : Q)
| StartResumed (call : nat) (env : StartEnv) (now : Clock)
| CallStop
| CallSplit (now : Clock)
| CallDelete (index : Z)
| CallReset
| TimerDue (id : positive) (now : Clock)
| DataAvailable (id : positive) (data : Blob)
| RecorderStopped (id : positive) (now : Clock)
| AnimationFrame (id : positive) (rms : Q).

(** The armed interval [id], when it may run at [now]. *)
Definition due_timer (id : positive) (now : Clock) (s : State) : option Timer :=
  match filter (λ tm, tm_id tm = id) (timers s) with
  | tm :: _ => if Qle_bool (tm_due tm) (clock_ms now) then Some tm else None
  | [] => None
  end.

Definition reschedule (tm : Timer) (s : State) : State :=
  set_timers
    (map (fun t => if decide (tm_id t = tm_id tm)
                   then {| tm_id := tm_id t; tm_due := tm_due t + tm_period t;
                           tm_period := tm_period t |}
                   else t) (timers s)) s.

Definition stop_event_pending (id : positive) (s : State) : bool :=
  match recorders s !! id with
  | Some mr => mr_stop_pending mr
  | None => false
  end.

Definition clear_stop_pending (id : positive) (s : State) : State :=
  match recorders s !! id with
  | Some mr =>
      set_recorders
        (<[id := {| mr_state := mr_state mr; mr_mimeType := mr_mimeType mr;
                    recorderChunks := recorderChunks mr;
                    mr_started := mr_started mr;
                    mr_stop_pending := false |}]> (recorders s)) s
  | None => s
  end.

Definition step (e : Event) (s : State) : State :=
  match e with
  | CallStart env now mimeType minutes => startRecording env now mimeType minutes s
  | StartCalled mimeType minutes => startRecording_call mimeType minutes s
  | StartResumed call env now =>
      match pending_starts s !! call with
      | Some (mimeType, minutes) =>
          s |> set_pending_starts (delete call (pending_starts s))
            |> startRecording_resume env now mimeType minutes
      | None => s
      end
  | CallStop => stopRecording s
  | CallSplit now => state_of (splitSegment now s)
  | CallDelete index => deleteSegment index s
  | CallReset => resetRecording s
  | TimerDue id now =>
      match due_timer id now s with
      | Some tm => state_of (createNewSegment now (reschedule tm s))
      | None => s
      end
  | DataAvailable id data =>
      if recorder_is_recording id s || stop_event_pending id s
      then ondataavailable id data s else s
  | RecorderStopped id now =>
      if stop_event_pending id s
      then s |> clear_stop_pending id |> onstop id now
      else s
  | AnimationFrame id rms =>
      if bool_decide (id ∈ frames s)
      then s |> cancelAnimationFrame id |> draw rms
      else s
  end.

Definition run (es : list Event) (s : State) : State :=
  foldl (fun s e => step e s) s es.

Inductive reachable : State -> Prop :=
| reachable_initial : reachable initial
| reachable_step (e : Event) (s : State) : reachable s -> reachable (step e s).

End Operations.

(** A browser that records WebM and MP4 and no Ogg. *)
Definition webm_mp4_browser : Browser :=
  fun mimeType =>
    JS.startsWith mimeType "audio/webm" || JS.startsWith mimeType "audio/mp4".

End Recorder.

(** ** The batch splitter ([src/components/AudioSplitter.tsx]) *)

Module Splitter.

Inductive Status : Type := idle | loading | processing | done.

Definition is_processing (st : Status) : bool :=
  match st with processing => true | _ => false end.

(** A [File]: a blob with a name. *)
Record File : Type := {
  file_name : string;
  file_type : string;
  file_bytes : list Byte.byte;
}.

(** The texts shown while busy: none yet; preparing the engine; loading
    the core; preparing the file; splitting; reading the results. *)
Inductive ProgressMessage : Type :=
| NoMessage
| PreparingEngine
| LoadingCore
| PreparingFile
| Splitting
| ReadingFiles.

(** The texts put in [error]: select a file first; the duration must be
    greater than 0; the engine cannot be loaded; no file was produced;
    processing failed. *)
Inductive ErrorMessage : Type :=
| ErrNoFile
| ErrDuration
| ErrEngineLoad
| ErrNoOutput
| ErrProcessing.

(** An entry of the engine's working area (the root directory of its
    in-memory file system). *)
Inductive Node : Type :=
| Dir
| Reg (data : list Byte.byte).

(** The engine instance kept in [ffmpegRef]: its working area, and the
    value of [status] its [progress] callback closed over.  The callback
    is built inside [loadFFmpeg], where [status] is the constant of the
    render that started the job. *)
Record Engine : Type := {
  progress_status : Status;
  working_area : gmap string Node;
}.

Record State : Type := Build_State {
  file : option File;
  splitDuration : Q;
  status : Status;
  progressMessage : ProgressMessage;
  progressRatio : Z;
  error : option ErrorMessage;
  splitFiles : list SplitFile;
  ffmpegRef : option Engine;
}.

Definition set_file (v : option File) (s : State) : State :=
  Build_State v (splitDuration s) (status s) (progressMessage s)
    (progressRatio s) (error s) (splitFiles s) (ffmpegRef s).

Definition set_splitDuration (v : Q) (s : State) : State :=
  Build_State (file s) v (status s) (progressMessage s) (progressRatio s)
    (error s) (splitFiles s) (ffmpegRef s).

Definition set_status (v : Status) (s : State) : State :=
  Build_State (file s) (splitDuration s) v (progressMessage s)
    (progressRatio s) (error s) (splitFiles s) (ffmpegRef s).

Definition set_progressMessage (v : ProgressMessage) (s : State) : State :=
  Build_State (file s) (splitDuration s) (status s) v (progressRatio s)
    (error s) (splitFiles s) (ffmpegRef s).

Definition set_progressRatio (v : Z) (s : State) : State :=
  Build_State (file s) (splitDuration s) (status s) (progressMessage s) v
    (error s) (splitFiles s) (ffmpegRef s).

Definition set_error (v : option ErrorMessage) (s : State) : State :=
  Build_State (file s) (splitDuration s) (status s) (progressMessage s)
    (progressRatio s) v (splitFiles s) (ffmpegRef s).

Definition set_splitFiles (v : list SplitFile) (s : State) : State :=
  Build_State (file s) (splitDuration s) (status s) (progressMessage s)
    (progressRatio s) (error s) v (ffmpegRef s).

Definition set_ffmpegRef (v : option Engine) (s : State) : State :=
  Build_State (file s) (splitDuration s) (status s) (progressMessage s)
    (progressRatio s) (error s) (splitFiles s) v.

Definition initial : State :=
  {| file := None; splitDuration := 25; status := idle;
     progressMessage := NoMessage; progressRatio := 0; error := None;
     splitFiles := []; ffmpegRef := None |}.

(** *** A job's steps

    A computation runs on the current state and the states it went
    through (latest first), and returns a value or throws. *)
Record Machine : Type := {
  cur : State;
  past : list State;
}.

Definition M (A : Type) : Type := Machine -> Machine * option A.

#[global] Instance M_ret : MRet M := λ A a m, (m, Some a).

#[global] Instance M_bind : MBind M := λ A B f x m,
  match x m with
  | (m', Some a) => f a m'
  | (m', None) => (m', None)
  end.

Definition throw {A : Type} : M A := λ m, (m, None).

Definition try_catch {A : Type} (body handler : M A) : M A := λ m,
  match body m with
  | (m', Some a) => (m', Some a)
  | (m', None) => handler m'
  end.

Definition get : M State := λ m, (m, Some (cur m)).

Definition update (f : State -> State) : M unit := λ m,
  ({| cur := f (cur m); past := cur m :: past m |}, Some tt).

Definition setStatus (v : Status) : M unit := update (set_status v).
Definition setProgressMessage (v : ProgressMessage) : M unit :=
  update (set_progressMessage v).
Definition setProgressRatio (v : Z) : M unit := update (set_progressRatio v).
Definition setError (v : option ErrorMessage) : M unit := update (set_error v).
Definition setSplitFiles (v : list SplitFile) : M unit := update (set_splitFiles v).

(** [Math.round]. *)
Definition Math_round (x : Q) : Z := Qfloor (x + (1 # 2)).

(** The [progress] callback given to [createFFmpeg]; [captured] is the
    [status] of its closure.  A [NaN] ratio fails both comparisons and is
    dropped like one out of range. *)
Definition progress (captured : Status) (ratio : Q) : M unit :=
  if Qle_bool 0 ratio && Qle_bool ratio 1 && is_processing captured
  then setProgressRatio (Math_round (ratio * 100))
  else mret tt.

(** *** The engine *)

(** The arguments of [ffmpeg.run]: the input name, the segment time in
    seconds, and the output pattern [`${prefix}%03d${suffix}`]. *)
Record RunArgs : Type := {
  arg_input : string;
  arg_segment_time : Q;
  arg_pattern_prefix : string;
  arg_pattern_suffix : string;
}.

(** What a run does: the progress ratios it reports, the working area it
    leaves, and whether it rejects. *)
Record RunResult : Type := {
  run_progress : list Q;
  run_area : gmap string Node;
  run_rejects : bool;
}.

(** What [handleSplit] meets when it gets the bytes of its file.  It
    takes [fetchFile] from [window.FFMPEG] on every job, also with a
    cached engine, which throws when the script is not there; it calls
    [fetchFile] later, which rejects or resolves.  The global is the
    page's, and a job with a cached engine does not poll for it: what the
    job finds there is given apart from the polls. *)
Inductive Fetch : Type :=
| FFMPEG_undefined
| fetchFile_rejected
| fetchFile_resolved.

(** What one job meets: at which poll [window.FFMPEG] is defined, the
    working area of a freshly loaded engine ([None]: [load] rejects),
    how it fares getting the bytes of its file, and what a run does. *)
Record JobEnv : Type := {
  script_defined : nat -> bool;
  load : option (gmap string Node);
  fetch : Fetch;
  run : RunArgs -> gmap string Node -> RunResult;
}.

(** The job does not get the bytes of its file. *)
Definition fetchFile_rejects (env : JobEnv) : bool :=
  match fetch env with
  | fetchFile_resolved => false
  | _ => true
  end.

(** [checkFFmpeg]: polls until the script is there, giving up after 50
    further attempts. *)
Fixpoint checkFFmpeg (env : JobEnv) (fuel attempts : nat) : bool :=
  if script_defined env attempts then true
  else if (attempts <? 50)%nat then
    match fuel with
    | S fuel' => checkFFmpeg env fuel' (S attempts)
    | O => false
    end
  else false.

Definition update_area (f : gmap string Node -> gmap string Node) : M unit :=
  update (fun s =>
    match ffmpegRef s with
    | Some e =>
        set_ffmpegRef
          (Some {| progress_status := progress_status e;
                   working_area := f (working_area e) |}) s
    | None => s
    end).

Definition get_engine : M Engine :=
  s ← get;
  match ffmpegRef s with
  | Some e => mret e
  | None => throw
  end.

(** [ffmpeg.FS('writeFile', name, data)]. *)
Definition FS_writeFile (name : string) (data : list Byte.byte) : M unit :=
  update_area (insert name (Reg data)).

(** [ffmpeg.FS('readdir', '/')]. *)
Definition FS_readdir : M (list string) :=
  e ← get_engine;
  mret ("." :: ".." :: map fst (map_to_list (working_area e))).

(** [ffmpeg.FS('readFile', name)]: throws unless [name] is a file. *)
Definition FS_readFile (name : string) : M (list Byte.byte) :=
  e ← get_engine;
  match working_area e !! name with
  | Some (Reg data) => mret data
  | _ => throw
  end.

(** [ffmpeg.FS('unlink', name)]: throws unless [name] is a file. *)
Definition FS_unlink (name : string) : M unit :=
  e ← get_engine;
  match working_area e !! name with
  | Some (Reg _) => update_area (delete name)
  | _ => throw
  end.

Fixpoint deliver (captured : Status) (ratios : list Q) : M unit :=
  match ratios with
  | [] => mret tt
  | ratio :: ratios' => progress captured ratio;; deliver captured ratios'
  end.

(** [await ffmpeg.run(...)]: the engine reports progress through its
    callback, rewrites its working area, and resolves or rejects. *)
Definition ffmpeg_run (env : JobEnv) (args : RunArgs) : M unit :=
  e ← get_engine;
  let r := run env args (working_area e) in
  deliver (progress_status e) (run_progress r);;
  update_area (fun _ => run_area r);;
  if run_rejects r then throw else mret tt.

Definition loadFFmpeg (snapshot : State) (env : JobEnv) : M unit :=
  s ← get;
  match ffmpegRef s with
  | Some _ => mret tt
  | None =>
      setStatus loading;;
      setProgressMessage PreparingEngine;;
      (if checkFFmpeg env 50 0 then mret tt else throw);;
      setProgressMessage LoadingCore;;
      try_catch
        (match load env with
         | Some area =>
             update (set_ffmpegRef
                       (Some {| progress_status := status snapshot;
                                working_area := area |}))
         | None => throw
         end)
        (setError (Some ErrEngineLoad);;
         setStatus idle;;
         throw)
  end.

(** *** [handleSplit] *)

(** [file.name.split('.').pop()?.toLowerCase() || 'mp3']. *)
Definition originalExtension (f : File) : string :=
  let ext := JS.toLowerCase (List.last (JS.split "." (file_name f)) EmptyString) in
  if String.eqb ext EmptyString then "mp3" else ext.

(** [file.name.substring(0, file.name.lastIndexOf('.'))]; without a dot
    the index is -1 and the substring is empty. *)
Definition baseName (f : File) : string :=
  match JS.lastIndexOf_dot (file_name f) with
  | Some i => String.substring 0 i (file_name f)
  | None => EmptyString
  end.

Definition by_name_numeric (a b : SplitFile) : comparison :=
  JS.localeCompare_numeric (name a) (name b).

Fixpoint read_blobs (type : string) (names : list string) : M (list SplitFile) :=
  match names with
  | [] => mret []
  | fileName :: names' =>
      data ← FS_readFile fileName;
      blobs ← read_blobs type names';
      mret ({| name := fileName;
               blob := {| blob_bytes := data; blob_type := type |} |} :: blobs)
  end.

Fixpoint unlink_all (names : list string) : M unit :=
  match names with
  | [] => mret tt
  | f :: names' => FS_unlink f;; unlink_all names'
  end.

(** The [try] block of [handleSplit], for the [file] and [splitDuration]
    of the render the handler belongs to. *)
Definition handleSplit_try (snapshot : State) (f : File) (env : JobEnv) : M unit :=
  loadFFmpeg snapshot env;;
  match fetch env with
  | FFMPEG_undefined => throw
  | _ => mret tt
  end;;
  setStatus processing;;
  setProgressMessage PreparingFile;;
  setProgressRatio 0;;
  let inputFileName := "input." +:+ originalExtension f in
  match fetch env with
  | fetchFile_resolved => mret tt
  | _ => throw
  end;;
  FS_writeFile inputFileName (file_bytes f);;
  setProgressMessage Splitting;;
  ffmpeg_run env
    {| arg_input := inputFileName;
       arg_segment_time := splitDuration snapshot * 60;
       arg_pattern_prefix := baseName f +:+ "_";
       arg_pattern_suffix := "." +:+ originalExtension f |};;
  setProgressMessage ReadingFiles;;
  entries ← FS_readdir;
  let resultFiles := List.filter (fun n => JS.startsWith n (baseName f)) entries in
  match resultFiles with
  | [] => setError (Some ErrNoOutput)
  | _ :: _ =>
      blobs ← read_blobs (file_type f) resultFiles;
      setSplitFiles (JS.sort by_name_numeric blobs)
  end;;
  FS_unlink inputFileName;;
  unlink_all resultFiles;;
  setStatus done.

Definition handleSplit (env : JobEnv) : M unit :=
  snapshot ← get;
  match file snapshot with
  | None => setError (Some ErrNoFile)
  | Some f =>
      if Qle_bool (splitDuration snapshot) 0 then setError (Some ErrDuration)
      else
        setError None;;
        setSplitFiles [];;
        try_catch (handleSplit_try snapshot f env)
          (setError (Some ErrProcessing);;
           setStatus idle)
  end.

Definition handleFileSelect (selectedFile : option File) : M unit :=
  update (set_file selectedFile);;
  setSplitFiles [];;
  setError None;;
  setStatus idle.

Definition handleReset : M unit := handleFileSelect None.

(** *** The component as a transition system

    A handler of the latest render runs to its end before the next (the
    controls are disabled while a job is busy), and between two of them
    the engine may call its progress callback. *)

Inductive Event : Type :=
| SelectFile (selected : option File)
| ChangeDuration (minutes : Q)
| Split (env : JobEnv)
| Reset
| EngineProgress (ratio : Q).

Definition handler (e : Event) : M unit :=
  match e with
  | SelectFile selected => handleFileSelect selected
  | ChangeDuration minutes => update (set_splitDuration minutes)
  | Split env => handleSplit env
  | Reset => handleReset
  | EngineProgress ratio =>
      s ← get;
      match ffmpegRef s with
      | Some e => progress (progress_status e) ratio
      | None => mret tt
      end
  end.

(** Running a handler from [s]: the state it ends in, and every state it
    went through, first to last, [s] included. *)
Definition exec (m : M unit) (s : State) : Machine :=
  fst (m {| cur := s; past := [] |}).

Definition final (m : M unit) (s : State) : State := cur (exec m s).

Definition trace (m : M unit) (s : State) : list State :=
  rev (cur (exec m s) :: past (exec m s)).

Inductive reachable : State -> Prop :=
| reachable_initial : reachable initial
| reachable_step (e : Event) (s : State) :
    reachable s -> reachable (final (handler e) s).

End Splitter.

(** ** The recorder's view: [formatTime] of the recorder component and
    [getBarHeights] of [src/components/VolumeVisualizer.tsx] *)

Module Display.

(** [formatTime] of the recorder's view; [seconds] is the elapsed-time
    counter, a non-negative integer. *)
Definition formatTime (seconds : nat) : string :=
  let minutes := JS.padStart 2 "0" (JS.toString (seconds / 60)) in
  let secs := JS.padStart 2 "0" (JS.toString (seconds mod 60)) in
  minutes +:+ ":" +:+ secs.

(** [VolumeVisualizer]: [Math.min(1, volume * 2.5)]. *)
Definition amplifiedVolume (volume : Q) : Q := Qmin 1 (volume * 2.5)%Q.

Definition barCount : nat := 9.

(** The body of the loop of [getBarHeights] for bar [i]; [random] is the
    value [Math.random()] gives when it is called. *)
Definition barHeight (volume random : Q) (i : nat) : Q :=
  let baseHeight := 4%Q in
  let maxHeight := 36%Q in
  let barCount := inject_Z (Z.of_nat barCount) in
  let distanceFromCenter :=
    Qabs (inject_Z (Z.of_nat i) - inject_Z (Qfloor (barCount / 2)))%Q in
  let reactivity := (1 - (distanceFromCenter / (barCount / 2)) * 0.7)%Q in
  let height :=
    (baseHeight + (maxHeight - baseHeight) * amplifiedVolume volume * reactivity)%Q in
  let height :=
    if Qlt_le_dec 0.05 (amplifiedVolume volume)
    then (height + (random - 0.5) * 6 * amplifiedVolume volume)%Q
    else height in
  Qmax baseHeight height.

Definition getBarHeights (volume : Q) (random : nat -> Q) : list Q :=
  map (fun i => barHeight volume (random i) i) (seq 0 barCount).

End Display.

(** ** The design document's notions, for comparison with the code *)

Module Design.

(** The names of the segments a session holds. *)
Definition names (prev : list SplitFile) : list string := map name prev.

(** "If a Segment with the exact base name already exists in the session,
    append [_2], [_3], ... until unique": [nm] is the plain name when that
    is free, and otherwise the first free one among the numbered names. *)
Inductive disambiguated (prev : list SplitFile) (b e : string) : string -> Prop :=
| plain_name :
    b +:+ "." +:+ e ∉ names prev ->
    disambiguated prev b e (b +:+ "." +:+ e)
| suffixed_name (k : nat) :
    (2 <= k)%nat ->
    b +:+ "." +:+ e ∈ names prev ->
    (forall j, (2 <= j < k)%nat -> Recorder.numbered b e j ∈ names prev) ->
    Recorder.numbered b e k ∉ names prev ->
    disambiguated prev b e (Recorder.numbered b e k).

(** A time "formatted as [YYYYMMDDHHmm]": four digits of year, two each
    of month (from 1), day, hour and minute. *)
Definition format_YYYYMMDDHHmm (t : Recorder.DateTime) : string :=
  JS.padStart 4 "0" (JS.toString (Recorder.getFullYear t))
  +:+ JS.padStart 2 "0" (JS.toString (Recorder.getMonth t + 1))
  +:+ JS.padStart 2 "0" (JS.toString (Recorder.getDate t))
  +:+ JS.padStart 2 "0" (JS.toString (Recorder.getHours t))
  +:+ JS.padStart 2 "0" (JS.toString (Recorder.getMinutes t)).

(** The ways one transition of a session may change its segment list. *)
Inductive chunks_change (prev : list SplitFile) : list SplitFile -> Prop :=
| chunks_same : chunks_change prev prev
| chunks_cleared : chunks_change prev []
| chunks_deleted (i : Z) :
    chunks_change prev
      (JS.filter_index (fun index => negb (index =? i)%Z) 0 prev)
| chunks_added (b e : string) (data : Blob) :
    chunks_change prev (Recorder.add_chunk b e data prev).

(** Two states of a session that agree on what its callers observe and on
    its scheduler: status, segments, error, the timer ref, the armed
    intervals, and the format and period the session was started with. *)
Definition same_session (s s' : Recorder.State) : Prop :=
  Recorder.status s = Recorder.status s'
  /\ Recorder.recordedChunks s = Recorder.recordedChunks s'
  /\ Recorder.error s = Recorder.error s'
  /\ Recorder.segmentTimerRef s = Recorder.segmentTimerRef s'
  /\ Recorder.timers s = Recorder.timers s'
  /\ Recorder.mimeTypeRef s = Recorder.mimeTypeRef s'
  /\ Recorder.segmentDurationRef s = Recorder.segmentDurationRef s'.

(** The same, leaving out the timer ref and the armed intervals. *)
Definition same_but_timers (s s' : Recorder.State) : Prop :=
  Recorder.status s = Recorder.status s'
  /\ Recorder.recordedChunks s = Recorder.recordedChunks s'
  /\ Recorder.error s = Recorder.error s'
  /\ Recorder.mimeTypeRef s = Recorder.mimeTypeRef s'
  /\ Recorder.segmentDurationRef s = Recorder.segmentDurationRef s'.

(** The scheduler's bookkeeping: every armed interval is the one the
    timer ref holds; none is armed unless the session records; and a
    session records in a format the browser accepted. *)
Definition scheduler_ok `{Recorder.Browser} (s : Recorder.State) : Prop :=
  (forall tm, tm ∈ Recorder.timers s ->
     Recorder.segmentTimerRef s = Some (Recorder.tm_id tm))
  /\ (Recorder.status s <> Recorder.recording -> Recorder.timers s = [])
  /\ (Recorder.status s = Recorder.recording ->
      Recorder.isTypeSupported (Recorder.mimeTypeRef s) = true).

(** A session in a browser that records WebM: one pass ended by a manual
    split, one ended by a second split in the same minute, and a third
    ended by stopping 25 minutes later.  Each pass receives one byte. *)
Definition at_2024_01_01 (hours minutes : nat) (ms : Q) : Recorder.Clock :=
  {| Recorder.clock_ms := ms;
     Recorder.clock_date :=
       {| Recorder.getFullYear := 2024; Recorder.getMonth := 0;
          Recorder.getDate := 1; Recorder.getHours := hours;
          Recorder.getMinutes := minutes |} |}.

Definition microphone_granted : Recorder.StartEnv :=
  {| Recorder.getUserMedia_error := None;
     Recorder.audioContext_error := None;
     Recorder.first_rms := 0 |}.

Definition one_byte : Blob :=
  {| blob_bytes := [Byte.x01]; blob_type := EmptyString |}.

Definition three_passes : list Recorder.Event :=
  [ Recorder.CallStart microphone_granted (at_2024_01_01 10 0 0)
      "audio/webm;codecs=opus" 20;
    Recorder.DataAvailable 4 one_byte;
    Recorder.CallSplit (at_2024_01_01 10 0 5000);
    Recorder.RecorderStopped 4 (at_2024_01_01 10 0 5001);
    Recorder.DataAvailable 6 one_byte;
    Recorder.CallSplit (at_2024_01_01 10 0 9000);
    Recorder.RecorderStopped 6 (at_2024_01_01 10 0 9001);
    Recorder.DataAvailable 8 one_byte;
    Recorder.CallStop ].

(** Two clicks on the record button before the microphone is granted: the
    second call of [startRecording] finds the status still [idle], and
    both calls go on when their streams arrive. *)
Definition two_clicks : list Recorder.Event :=
  [ Recorder.StartCalled "audio/webm;codecs=opus" 20;
    Recorder.StartCalled "audio/webm;codecs=opus" 20;
    Recorder.StartResumed 0 microphone_granted (at_2024_01_01 10 0 0);
    Recorder.StartResumed 0 microphone_granted (at_2024_01_01 10 0 1000) ].

(** Whether the character [c] occurs in [s]. *)
Fixpoint occurs (c : ascii) (s : string) : bool :=
  match s with
  | EmptyString => false
  | String a s' => Ascii.eqb a c || occurs c s'
  end.

(** "For every non-empty recording pass, the resulting segment's base name
    is the pass's capture start time formatted as [YYYYMMDDHHmm]": the
    name of the segment a pass adds begins with the formatted clock of the
    moment its recorder was started. *)
Definition named_after_start `{Recorder.Browser} : Prop :=
  forall s id now mr seg,
    Recorder.reachable s ->
    Recorder.recorders s !! id = Some mr ->
    Recorder.recordedChunks (Recorder.step (Recorder.RecorderStopped id now) s)
    = (Recorder.recordedChunks s ++ [seg])%list ->
    exists rest,
      name seg
      = format_YYYYMMDDHHmm (Recorder.clock_date (Recorder.mr_started mr))
        +:+ rest.

(** *** Specifications of a job's steps

    [triple P m Q E I]: run from a state satisfying [P], with [I] holding
    of every state so far, [m] keeps [I] of every state it goes through,
    and ends in a state satisfying [Q] when it returns and [E] when it
    throws. *)
Definition triple {A : Type} (P : Splitter.State -> Prop) (m : Splitter.M A)
    (Q : A -> Splitter.State -> Prop) (E I : Splitter.State -> Prop) : Prop :=
  forall mach,
    P (Splitter.cur mach) ->
    Forall I (Splitter.cur mach :: Splitter.past mach) ->
    Forall I (Splitter.cur (m mach).1 :: Splitter.past (m mach).1)
    /\ match (m mach).2 with
       | Some a => Q a (Splitter.cur (m mach).1)
       | None => E (Splitter.cur (m mach).1)
       end.

(** The progress callback of the engine in use never accepts: nothing but
    [0] has been published, and the status its closure captured is not
    [processing]. *)
Definition progress_idle (s : Splitter.State) : Prop :=
  Splitter.progressRatio s = 0%Z
  /\ forall e, Splitter.ffmpegRef s = Some e ->
       Splitter.progress_status e <> Splitter.processing.

(** A list of published values that never decreases. *)
Definition nondecreasing (l : list Z) : Prop :=
  forall i x y, l !! i = Some x -> l !! S i = Some y -> (x <= y)%Z.

(** [m] keeps [progress_idle], whatever else it does. *)
Definition keeps {A : Type} (m : Splitter.M A) : Prop :=
  triple (fun _ => True) m (fun _ _ => True) (fun _ => True) progress_idle.

(** The name the engine gives the [k]-th output for the pattern
    [`${prefix}%03d${suffix}`]: the number in decimal, padded with zeros to
    three digits. *)
Definition numbered_output (prefix suffix : string) (k : nat) : string :=
  prefix +:+ JS.padStart 3 "0" (JS.toString k) +:+ suffix.

(** A job on [talk.MP3]: the script is there at the fourth poll, a fresh
    engine holds the four directories of its file system, and a run
    reports two ratios, writes [n] outputs next to the input and resolves,
    or else writes nothing and rejects. *)
Definition talk : Splitter.File :=
  {| Splitter.file_name := "talk.MP3"; Splitter.file_type := "audio/mpeg";
     Splitter.file_bytes := [Byte.x01; Byte.x02; Byte.x03] |}.

Definition fresh_area : gmap string Splitter.Node :=
  <["tmp" := Splitter.Dir]> (<["home" := Splitter.Dir]>
    (<["dev" := Splitter.Dir]> (<["proc" := Splitter.Dir]> ∅))).

Definition writes_outputs (n : nat) (args : Splitter.RunArgs)
    (area : gmap string Splitter.Node) : Splitter.RunResult :=
  {| Splitter.run_progress := [(1 # 2)%Q; 1%Q];
     Splitter.run_area :=
       foldr (fun k m =>
                <[numbered_output (Splitter.arg_pattern_prefix args)
                    (Splitter.arg_pattern_suffix args) k
                  := Splitter.Reg [Byte.x01]]> m)
             area (seq 0 n);
     Splitter.run_rejects := false |}.

Definition rejects (args : Splitter.RunArgs)
    (area : gmap string Splitter.Node) : Splitter.RunResult :=
  {| Splitter.run_progress := [(1 # 2)%Q];
     Splitter.run_area := area;
     Splitter.run_rejects := true |}.

Definition job_with (run : Splitter.RunArgs -> gmap string Splitter.Node ->
                           Splitter.RunResult) : Splitter.JobEnv :=
  {| Splitter.script_defined := fun poll => (3 <=? poll)%nat;
     Splitter.load := Some fresh_area;
     Splitter.fetch := Splitter.fetchFile_resolved;
     Splitter.run := run |}.

Definition talk_selected : Splitter.State :=
  Splitter.final (Splitter.handler (Splitter.SelectFile (Some talk)))
    Splitter.initial.

(** The engine a job works with has the working area [a]. *)
Definition has_area (a : gmap string Splitter.Node) (s : Splitter.State) : Prop :=
  exists e, Splitter.ffmpegRef s = Some e /\ Splitter.working_area e = a.

(** The working area of the engine a job started from [s] gets from
    [loadFFmpeg]: that of the engine already there, or of the one it
    loads. *)
Definition engine_area (env : Splitter.JobEnv) (s : Splitter.State) :
    option (gmap string Splitter.Node) :=
  match Splitter.ffmpegRef s with
  | Some e => Some (Splitter.working_area e)
  | None => if Splitter.checkFFmpeg env 50 0 then Splitter.load env else None
  end.

(** The arguments [handleSplit] runs the engine with. *)
Definition job_args (s : Splitter.State) (f : Splitter.File) : Splitter.RunArgs :=
  {| Splitter.arg_input := "input." +:+ Splitter.originalExtension f;
     Splitter.arg_segment_time := Splitter.splitDuration s * 60;
     Splitter.arg_pattern_prefix := Splitter.baseName f +:+ "_";
     Splitter.arg_pattern_suffix := "." +:+ Splitter.originalExtension f |}.

(** Steps that leave the results alone. *)
Definition keeps_results {A : Type} (m : Splitter.M A) : Prop :=
  forall R : list SplitFile -> Prop,
    triple (fun s => R (Splitter.splitFiles s)) m
      (fun _ s => R (Splitter.splitFiles s))
      (fun s => R (Splitter.splitFiles s)) (fun _ => True).

(** The working area of the engine in use holds no entry under the names
    [names]. *)
Definition absent (names : list string) (s : Splitter.State) : Prop :=
  forall e n, Splitter.ffmpegRef s = Some e -> n ∈ names ->
    Splitter.working_area e !! n = None.

End Design.

(** ** What a job leaves behind *)

Module JobDesign.
Import Design.

(** The engine in use has the working area [a], and the component shows
    the error [err] and the results [sf]. *)
Definition tracked (a : gmap string Splitter.Node)
    (err : option Splitter.ErrorMessage) (sf : list SplitFile)
    (s : Splitter.State) : Prop :=
  has_area a s /\ Splitter.error s = err /\ Splitter.splitFiles s = sf.

(** [resultFiles] of [handleSplit]: the entries of the working area [a]
    whose name starts with the base name of [f]. *)
Definition resultFiles (f : Splitter.File) (a : gmap string Splitter.Node) :
    list string :=
  List.filter (fun n => JS.startsWith n (Splitter.baseName f))
    ("." :: ".." :: map fst (map_to_list a)).

(** The result [sf] is what reading the file [n] of the area [a] gives:
    its name, its bytes, and the type [type]. *)
Definition read_from (a : gmap string Splitter.Node) (type : string)
    (n : string) (sf : SplitFile) : Prop :=
  name sf = n /\ blob_type (blob sf) = type
  /\ a !! n = Some (Splitter.Reg (blob_bytes (blob sf))).

(** What a job that went through every step of the [try] block leaves in
    [s]: the engine was there or loaded with the area [area], the run
    resolved and left the area [run_area r], every listed file and then the
    input could be read and unlinked. *)
Definition went_through (env : Splitter.JobEnv) (snapshot : Splitter.State)
    (f : Splitter.File) (s : Splitter.State) : Prop :=
  exists area blobs,
    let input := "input." +:+ Splitter.originalExtension f in
    let r := Splitter.run env (job_args snapshot f)
               (<[input := Splitter.Reg (Splitter.file_bytes f)]> area) in
    let listed := resultFiles f (Splitter.run_area r) in
    engine_area env snapshot = Some area
    /\ Splitter.fetchFile_rejects env = false
    /\ Splitter.run_rejects r = false
    /\ Forall2 (read_from (Splitter.run_area r) (Splitter.file_type f)) listed blobs
    /\ (forall n, n ∈ input :: listed ->
          exists data, Splitter.run_area r !! n = Some (Splitter.Reg data))
    /\ (input ∉ listed)
    /\ NoDup listed
    /\ Splitter.status s = Splitter.done
    /\ tracked (foldl (fun a n => delete n a)
                  (delete input (Splitter.run_area r)) listed)
         (match listed with [] => Some Splitter.ErrNoOutput | _ :: _ => None end)
         (JS.sort Splitter.by_name_numeric blobs) s.

(** A file whose name has no dot. *)
Definition notes : Splitter.File :=
  {| Splitter.file_name := "notes"; Splitter.file_type := "audio/mpeg";
     Splitter.file_bytes := [Byte.x01] |}.

Definition notes_selected : Splitter.State :=
  Splitter.final (Splitter.handler (Splitter.SelectFile (Some notes)))
    Splitter.initial.

End JobDesign.

(** ** The recorder's devices *)

Module DeviceDesign.
Import Design.

(** What is armed in [s]: while the session records with a period that is
    positive, the one interval the timer ref holds, whose period is the
    session's in milliseconds; otherwise nothing, and the ref is empty. *)
Definition timer_armed (s : Recorder.State) : Prop :=
  match Recorder.status s with
  | Recorder.recording =>
      if Qlt_le_dec 0 (Recorder.segmentDurationRef s) then
        exists id due,
          Recorder.segmentTimerRef s = Some id
          /\ Recorder.timers s
             = [{| Recorder.tm_id := id; Recorder.tm_due := due;
                   Recorder.tm_period :=
                     Recorder.timeout_ms
                       (Recorder.segmentDurationRef s * 60 * 1000) |}]
      else Recorder.segmentTimerRef s = None /\ Recorder.timers s = []
  | _ => Recorder.segmentTimerRef s = None /\ Recorder.timers s = []
  end.

(** The event waits its turn: it does not call [startRecording] while an
    earlier call still waits for its stream. *)
Definition in_turn (e : Recorder.Event) (s : Recorder.State) : Prop :=
  match e with
  | Recorder.CallStart _ _ _ _ | Recorder.StartCalled _ _ =>
      Recorder.pending_starts s = []
  | _ => True
  end.

(** The states of the sessions in which no start is called while another
    waits: any event may still come between a call and the moment its
    stream arrives. *)
Inductive reachable_in_turn `{Recorder.Browser} : Recorder.State -> Prop :=
| in_turn_initial : reachable_in_turn Recorder.initial
| in_turn_step (e : Recorder.Event) (s : Recorder.State) :
    reachable_in_turn s -> in_turn e s -> reachable_in_turn (Recorder.step e s).

(** At most one call waits; the session it was made from does not record,
    and the two refs hold its arguments. *)
Definition pending_ok (s : Recorder.State) : Prop :=
  Recorder.pending_starts s = []
  \/ (Recorder.status s <> Recorder.recording
      /\ Recorder.pending_starts s
         = [(Recorder.mimeTypeRef s, Recorder.segmentDurationRef s)]).

(** What holds along a session whose starts wait their turn. *)
Definition turn_ok `{Recorder.Browser} (s : Recorder.State) : Prop :=
  timer_armed s /\ pending_ok s
  /\ (Recorder.status s = Recorder.recording ->
      Recorder.isTypeSupported (Recorder.mimeTypeRef s) = true).

(** The events [es], run from [s], wait their turn. *)
Fixpoint run_in_turn `{Recorder.Browser} (es : list Recorder.Event)
    (s : Recorder.State) : Prop :=
  match es with
  | [] => True
  | e :: es => in_turn e s /\ run_in_turn es (Recorder.step e s)
  end.

(** A step that starts nothing: the waiting calls and the two refs stay,
    and a session that did not record does not record after it. *)
Definition quiet_move (s s' : Recorder.State) : Prop :=
  Recorder.pending_starts s' = Recorder.pending_starts s
  /\ Recorder.mimeTypeRef s' = Recorder.mimeTypeRef s
  /\ Recorder.segmentDurationRef s' = Recorder.segmentDurationRef s
  /\ (Recorder.status s' = Recorder.recording ->
      Recorder.status s = Recorder.recording).

(** The telemetry's bookkeeping: every requested animation frame is the
    one the frame ref holds, and every open audio context is the one the
    context ref holds. *)
Definition telemetry_ok (s : Recorder.State) : Prop :=
  (forall f, f ∈ Recorder.frames s -> Recorder.animationFrameIdRef s = Some f)
  /\ (forall c, c ∈ Recorder.open_contexts s ->
        Recorder.audioContextRef s = Some c).

(** Every stream with live tracks is the one the stream ref holds. *)
Definition streams_ok (s : Recorder.State) : Prop :=
  forall st, st ∈ Recorder.live_streams s -> Recorder.streamRef s = Some st.

(** The telemetry loop is not running and its audio graph is gone; the
    stream's tracks are stopped and its handle is released. *)
Definition torn_down (s : Recorder.State) : Prop :=
  Recorder.animationFrameIdRef s = None /\ Recorder.frames s = []
  /\ Recorder.analyserRef s = false /\ Recorder.sourceNodeRef s = false
  /\ Recorder.audioContextRef s = None /\ Recorder.open_contexts s = []
  /\ Recorder.streamRef s = None /\ Recorder.live_streams s = [].

(** What the session holds of the browser is what its refs hold; while it
    records it has a recorder, and otherwise everything is torn down. *)
Definition devices_ok (s : Recorder.State) : Prop :=
  telemetry_ok s /\ streams_ok s
  /\ (Recorder.status s = Recorder.recording ->
      is_Some (Recorder.mediaRecorderRef s))
  /\ (Recorder.status s <> Recorder.recording -> torn_down s).

(** Two states that hold the same devices: animation frame, analyser,
    source node, audio context and stream, with what the browser keeps of
    them. *)
Definition same_devices (s s' : Recorder.State) : Prop :=
  Recorder.animationFrameIdRef s = Recorder.animationFrameIdRef s'
  /\ Recorder.frames s = Recorder.frames s'
  /\ Recorder.analyserRef s = Recorder.analyserRef s'
  /\ Recorder.sourceNodeRef s = Recorder.sourceNodeRef s'
  /\ Recorder.audioContextRef s = Recorder.audioContextRef s'
  /\ Recorder.open_contexts s = Recorder.open_contexts s'
  /\ Recorder.streamRef s = Recorder.streamRef s'
  /\ Recorder.live_streams s = Recorder.live_streams s'.

(** A start whose setup does not throw once the stream is there: it is
    refused the stream, or it goes through. *)
Definition clean_setup `{Recorder.Browser} (env : Recorder.StartEnv)
    (mimeType : string) : Prop :=
  is_Some (Recorder.getUserMedia_error env)
  \/ (Recorder.audioContext_error env = None
      /\ Recorder.isTypeSupported mimeType = true).

Definition clean_start `{Recorder.Browser} (e : Recorder.Event)
    (s : Recorder.State) : Prop :=
  match e with
  | Recorder.CallStart env _ mimeType _ => clean_setup env mimeType
  | Recorder.StartResumed call env _ =>
      match Recorder.pending_starts s !! call with
      | Some (mimeType, _) => clean_setup env mimeType
      | None => True
      end
  | _ => True
  end.

(** The states of the sessions in which no start is called while another
    waits, and all of whose starts are clean. *)
Inductive reachable_clean `{Recorder.Browser} : Recorder.State -> Prop :=
| clean_initial : reachable_clean Recorder.initial
| clean_step (e : Recorder.Event) (s : Recorder.State) :
    reachable_clean s -> in_turn e s -> clean_start e s ->
    reachable_clean (Recorder.step e s).

(** The events [es], run from [s], wait their turn and start cleanly. *)
Fixpoint run_clean `{Recorder.Browser} (es : list Recorder.Event)
    (s : Recorder.State) : Prop :=
  match es with
  | [] => True
  | e :: es =>
      in_turn e s /\ clean_start e s /\ run_clean es (Recorder.step e s)
  end.

End DeviceDesign.

(** ** Streams along a session *)

Module StreamDesign.

(** What one step of the hook may do to the streams: leave them alone,
    stop the stream the ref holds and empty the ref, or take a new stream
    under the next free handle.  Handles are never given twice. *)
Definition stream_move (s s' : Recorder.State) : Prop :=
  (Recorder.next_handle s <= Recorder.next_handle s')%positive
  /\ ((Recorder.live_streams s' = Recorder.live_streams s
       /\ Recorder.streamRef s' = Recorder.streamRef s)
      \/ (Recorder.streamRef s' = None
          /\ exists stream,
               Recorder.streamRef s = Some stream
               /\ Recorder.live_streams s'
                  = filter (λ st, st ≠ stream) (Recorder.live_streams s))
      \/ (Recorder.streamRef s' = Some (Recorder.next_handle s)
          /\ Recorder.live_streams s'
             = Recorder.next_handle s :: Recorder.live_streams s
          /\ (Recorder.next_handle s < Recorder.next_handle s')%positive)).

(** Every live stream was given its handle before the next free one. *)
Definition handles_fresh (s : Recorder.State) : Prop :=
  forall st, st ∈ Recorder.live_streams s -> (st < Recorder.next_handle s)%positive.

(** A stream that is live and that the stream ref does not hold. *)
Definition orphaned (st : positive) (s : Recorder.State) : Prop :=
  st ∈ Recorder.live_streams s /\ Recorder.streamRef s <> Some st.

End StreamDesign.

(** ** Recorders along a session *)

Module TakeDesign.

(** The recorder [mr'] is [mr] later in its life, nothing recorded
    since: same format, same start, same chunks. *)
Definition same_take (mr mr' : Recorder.MediaRecorder) : Prop :=
  Recorder.mr_mimeType mr' = Recorder.mr_mimeType mr
  /\ Recorder.mr_started mr' = Recorder.mr_started mr
  /\ Recorder.recorderChunks mr' = Recorder.recorderChunks mr.

(** Every recorder was given its handle before the next free one. *)
Definition recorders_fresh (s : Recorder.State) : Prop :=
  forall id, is_Some (Recorder.recorders s !! id) ->
    (id < Recorder.next_handle s)%positive.

(** A step that records nothing: the recorders there were are still
    there with what they held, and handles are not given twice. *)
Definition recorder_move (s s' : Recorder.State) : Prop :=
  recorders_fresh s ->
  recorders_fresh s'
  /\ (Recorder.next_handle s <= Recorder.next_handle s')%positive
  /\ forall id mr,
       Recorder.recorders s !! id = Some mr ->
       exists mr', Recorder.recorders s' !! id = Some mr' /\ same_take mr mr'.

End TakeDesign.

Example split_mime :
  JS.split "/" "audio/webm;codecs=opus" = ["audio"; "webm;codecs=opus"].
Proof. reflexivity. Qed.

Example toString_2024 : JS.toString 2024 = "2024".
Proof. reflexivity. Qed.

Example padStart_7 : JS.padStart 2 "0" (JS.toString 7) = "07".
Proof. reflexivity. Qed.

Example numeric_010_after_002 :
  JS.localeCompare_numeric "a_010.mp3" "a_002.mp3" = Gt.
Proof. reflexivity. Qed.

(** * Properties *)

(** ** Decimal numerals and the collator *)

Lemma append_String (c : ascii) (s t : string) :
  String c s +:+ t = String c (s +:+ t).
Proof. reflexivity. Qed.

Lemma append_Empty (t : string) : EmptyString +:+ t = t.
Proof. reflexivity. Qed.

Lemma append_assoc (s t u : string) : (s +:+ t) +:+ u = s +:+ (t +:+ u).
Proof.
  induction s as [|c s IH]; [reflexivity|].
  rewrite !append_String, IH. reflexivity.
Qed.

Section Numerals.
Import JS.

Lemma digit_value_digit_char (d : nat) :
  (d < 10)%nat -> digit_value (digit_char d) = Some d.
Proof.
  intros Hd. unfold digit_value, digit_char.
  rewrite nat_ascii_embedding by lia.
  replace (48 <=? 48 + d)%nat with true by (symmetry; apply Nat.leb_le; lia).
  replace (48 + d <=? 57)%nat with true by (symmetry; apply Nat.leb_le; lia).
  simpl. f_equal. lia.
Qed.

(** Reading the numeral of [n] adds one collation element of value [n]. *)
Lemma tokens_digits_aux (fuel : nat) :
  forall (n : nat) (acc rest : string) (run : option nat),
    (n < fuel)%nat -> default 0%nat run = 0%nat ->
    tokens run (digits_aux fuel n acc +:+ rest) = tokens (Some n) (acc +:+ rest).
Proof.
  induction fuel as [|fuel IH]; intros n acc rest run Hn Hrun; [lia|].
  assert (Hd : digit_value (digit_char (n mod 10)) = Some (n mod 10))
    by (apply digit_value_digit_char, Nat.mod_upper_bound; lia).
  pose proof (Nat.div_mod_eq n 10) as Hdm.
  cbn [digits_aux]. destruct (Nat.eqb_spec (n / 10) 0) as [Hz|Hnz].
  - rewrite append_String. cbn [tokens]. rewrite Hd, Hrun. do 2 f_equal. lia.
  - assert (n / 10 < n)%nat by (apply Nat.div_lt; lia).
    rewrite IH by (assumption || lia).
    rewrite append_String. cbn [tokens]. rewrite Hd.
    change (default 0%nat (Some (n / 10)%nat)) with (n / 10)%nat.
    do 2 f_equal. lia.
Qed.

Lemma tokens_toString (n : nat) (rest : string) (run : option nat) :
  default 0%nat run = 0%nat ->
  tokens run (toString n +:+ rest) = tokens (Some n) rest.
Proof.
  intros Hrun. unfold toString.
  rewrite tokens_digits_aux by (assumption || lia). reflexivity.
Qed.

Lemma tokens_zeros (k : nat) (s : string) (run : option nat) :
  default 0%nat run = 0%nat ->
  exists run', default 0%nat run' = 0%nat /\
    tokens run (repeat_char k "0" +:+ s) = tokens run' s.
Proof.
  revert run. induction k as [|k IH]; intros run Hrun.
  - exists run. split; [assumption | reflexivity].
  - cbn [repeat_char]. rewrite append_String. cbn [tokens].
    change (digit_value "0") with (Some 0%nat). cbn iota.
    apply IH. rewrite Hrun. reflexivity.
Qed.

Lemma tokens_padStart_toString (w n : nat) (rest : string) :
  tokens None (padStart w "0" (toString n) +:+ rest) = tokens (Some n) rest.
Proof.
  unfold padStart.
  destruct (tokens_zeros (w - String.length (toString n)) (toString n +:+ rest) None)
    as (run' & Hrun' & Heq); [reflexivity|].
  rewrite append_assoc, Heq.
  apply tokens_toString, Hrun'.
Qed.

(** A character that is no digit ends the collation element before it. *)
Lemma tokens_app_nondigit (s t : string) (c : ascii) (run : option nat) :
  digit_value c = None ->
  tokens run (s +:+ String c t)
  = (tokens run (s +:+ String c EmptyString) ++ tokens None t)%list.
Proof.
  intros Hc. revert run.
  induction s as [|a s IH]; intros run;
    rewrite ?append_Empty, ?append_String; cbn [tokens].
  - rewrite Hc. rewrite <- app_assoc. reflexivity.
  - destruct (digit_value a); [apply IH|].
    rewrite IH, <- app_assoc. reflexivity.
Qed.

Lemma tokens_compare_refl (l : list token) : tokens_compare l l = Eq.
Proof.
  induction l as [|a l IH]; [reflexivity|]. simpl.
  assert (token_compare a a = Eq) as ->
    by (destruct a; simpl; apply Nat.compare_refl).
  exact IH.
Qed.

Lemma tokens_compare_app (p l1 l2 : list token) :
  tokens_compare (p ++ l1)%list (p ++ l2)%list = tokens_compare l1 l2.
Proof.
  induction p as [|a p IH]; [reflexivity|]. simpl.
  assert (token_compare a a = Eq) as ->
    by (destruct a; simpl; apply Nat.compare_refl).
  exact IH.
Qed.

End Numerals.

(** ** Segment names of the recorder *)

Section SegmentNames.
Import JS Recorder.

Lemma tokens_numbered (b e : string) (k : nat) :
  tokens None (numbered b e k)
  = (tokens None (b +:+ "_") ++ TNum k :: TChr "." :: tokens None e)%list.
Proof.
  unfold numbered. rewrite !append_String, !append_Empty.
  rewrite (tokens_app_nondigit b _ "_") by reflexivity.
  f_equal. rewrite tokens_toString by reflexivity. reflexivity.
Qed.

Lemma numbered_inj (b e : string) : Inj (=) (=) (numbered b e).
Proof.
  intros j k Heq. apply (f_equal (tokens None)) in Heq.
  rewrite !tokens_numbered in Heq.
  apply app_inv_head in Heq. congruence.
Qed.

Lemma taken_true (prev : list SplitFile) (nm : string) :
  taken prev nm = true <-> nm ∈ map name prev.
Proof.
  unfold taken. rewrite existsb_exists, list_elem_of_In, in_map_iff.
  split; intros (x & H1 & H2); exists x.
  - apply String.eqb_eq in H2. auto.
  - split; [assumption|]. apply String.eqb_eq. assumption.
Qed.

Lemma taken_false (prev : list SplitFile) (nm : string) :
  taken prev nm = false <-> nm ∉ map name prev.
Proof.
  rewrite <- taken_true. destruct (taken prev nm); split; congruence.
Qed.

(** The loop stops at a name that is free. *)
Lemma pick_name_free (fuel : nat) :
  forall prev b e fn c nm,
    pick_name fuel prev b e fn c = Some nm -> taken prev nm = false.
Proof.
  induction fuel as [|fuel IH]; intros prev b e fn c nm; cbn [pick_name];
    destruct (taken prev fn) eqn:Hfn; try congruence.
  apply IH.
Qed.

(** The loop stops at the first free name of the sequence it walks
    through. *)
Lemma pick_name_first (fuel : nat) :
  forall prev b e fn c nm,
    pick_name fuel prev b e fn c = Some nm ->
    (nm = fn /\ taken prev fn = false)
    \/ (taken prev fn = true /\
        exists k, (c < k)%nat /\ nm = numbered b e k /\
          forall j, (c < j < k)%nat -> taken prev (numbered b e j) = true).
Proof.
  induction fuel as [|fuel IH]; intros prev b e fn c nm; cbn [pick_name];
    destruct (taken prev fn) eqn:Hfn; try congruence.
  - intros [= <-]. left. auto.
  - intros Hp. right. split; [reflexivity|].
    destruct (IH _ _ _ _ _ _ Hp) as [[-> Hfree]|[Htk (k & Hk & -> & Hbelow)]].
    + exists (S c). split; [lia|]. split; [reflexivity|]. intros j Hj. lia.
    + exists k. split; [lia|]. split; [reflexivity|]. intros j Hj.
      destruct (decide (j = S c)) as [->|Hne]; [assumption|].
      apply Hbelow. lia.
  - intros [= <-]. left. auto.
Qed.

(** When the loop runs out of rounds, every name it tried is taken. *)
Lemma pick_name_exhausted (fuel : nat) :
  forall prev b e fn c,
    pick_name fuel prev b e fn c = None ->
    forall j, (c < j <= c + fuel)%nat -> taken prev (numbered b e j) = true.
Proof.
  induction fuel as [|fuel IH]; intros prev b e fn c; cbn [pick_name];
    destruct (taken prev fn) eqn:Hfn; try congruence.
  - intros _ j Hj. lia.
  - intros Hp j Hj.
    destruct (decide (j = S c)) as [->|Hne].
    + destruct fuel; cbn [pick_name] in Hp;
        destruct (taken prev (numbered b e (S c))); congruence.
    + apply (IH _ _ _ _ _ Hp). lia.
Qed.

(** One round more than [prev] has entries is enough: the numbered names
    are pairwise different, so [prev] cannot hold all of them. *)
Lemma pick_name_total (prev : list SplitFile) (b e fn : string) (c : nat) :
  exists nm, pick_name (S (length prev)) prev b e fn c = Some nm.
Proof.
  destruct (pick_name (S (length prev)) prev b e fn c) as [nm|] eqn:Hp;
    [eauto|exfalso].
  pose proof (pick_name_exhausted _ _ _ _ _ _ Hp) as Hall.
  assert (Hnd : NoDup (numbered b e <$> seq (S c) (S (length prev)))).
  { pose proof (numbered_inj b e). apply NoDup_fmap_2; [assumption|].
    apply NoDup_seq. }
  assert (Hincl : numbered b e <$> seq (S c) (S (length prev)) ⊆ map name prev).
  { intros x Hx. apply list_elem_of_fmap in Hx as (j & -> & Hj).
    apply taken_true, Hall. apply elem_of_seq in Hj. lia. }
  pose proof (submseteq_length _ _ (NoDup_submseteq _ _ Hnd (λ x Hx, Hincl x Hx))) as Hlen.
  rewrite length_fmap, length_seq, length_map in Hlen. lia.
Qed.

End SegmentNames.

Section Uniqueness.
Import JS Recorder Design.

Lemma add_chunk_spec (b e : string) (data : Blob) (prev : list SplitFile) :
  exists nm,
    add_chunk b e data prev = (prev ++ [{| name := nm; blob := data |}])%list
    /\ disambiguated prev b e nm.
Proof.
  unfold add_chunk.
  destruct (pick_name_total prev b e (b +:+ "." +:+ e) 1) as [nm Hnm].
  rewrite Hnm. exists nm. split; [reflexivity|].
  pose proof (pick_name_free _ _ _ _ _ _ _ Hnm) as Hfree.
  apply taken_false in Hfree.
  destruct (pick_name_first _ _ _ _ _ _ _ Hnm)
    as [[-> _]|[Htk (k & Hk & -> & Hbelow)]].
  - apply plain_name. exact Hfree.
  - apply suffixed_name; [lia | apply taken_true, Htk | | exact Hfree].
    intros j Hj. apply taken_true, Hbelow. lia.
Qed.

Lemma disambiguated_fresh (prev : list SplitFile) (b e nm : string) :
  disambiguated prev b e nm -> nm ∉ names prev.
Proof. intros [?|k ? ? ? ?]; assumption. Qed.

Lemma filter_index_elem {A : Type} (p : Z -> bool) (l : list A) :
  forall i x, x ∈ filter_index p i l -> x ∈ l.
Proof.
  induction l as [|y l IH]; intros i x; cbn [filter_index]; [auto|].
  destruct (p i); rewrite ?elem_of_cons; intros H.
  - destruct H as [->|H]; [left; reflexivity | right; eapply IH, H].
  - right. eapply IH, H.
Qed.

Lemma filter_index_names_NoDup (p : Z -> bool) (l : list SplitFile) :
  forall i, NoDup (names l) -> NoDup (names (filter_index p i l)).
Proof.
  unfold names.
  induction l as [|y l IH]; intros i Hnd; cbn [filter_index]; [constructor|].
  cbn [map] in Hnd. apply NoDup_cons in Hnd as [Hy Hnd].
  destruct (p i); [|apply IH, Hnd].
  cbn [map]. apply NoDup_cons. split; [|apply IH, Hnd].
  intros Hin. apply Hy.
  apply list_elem_of_In, in_map_iff in Hin as (x & Hx & Hin).
  apply list_elem_of_In, in_map_iff. exists x. split; [assumption|].
  apply list_elem_of_In. eapply filter_index_elem. apply list_elem_of_In, Hin.
Qed.

Lemma add_chunk_names_NoDup (b e : string) (data : Blob) (prev : list SplitFile) :
  NoDup (names prev) -> NoDup (names (add_chunk b e data prev)).
Proof.
  intros Hnd. destruct (add_chunk_spec b e data prev) as (nm & -> & Hd).
  unfold names. rewrite map_app. cbn [map name].
  apply NoDup_app. split; [exact Hnd|]. split.
  - intros x Hx Hx'. apply list_elem_of_singleton in Hx'. subst x.
    exact (disambiguated_fresh _ _ _ _ Hd Hx).
  - apply NoDup_singleton.
Qed.

End Uniqueness.

(** ** What the steps of the hook leave alone *)

Module Session.
Import JS Recorder Design.

Create Rewrite HintDb hook.
Create HintDb same.
Create HintDb rest.

#[global] Instance same_session_equiv : Equivalence same_session.
Proof.
  split.
  - intros s. repeat split.
  - intros s s' (?&?&?&?&?&?&?). repeat split; congruence.
  - intros s1 s2 s3 (?&?&?&?&?&?&?) (?&?&?&?&?&?&?). repeat split; congruence.
Qed.

#[global] Instance status_proper : Proper (same_session ==> eq) status.
Proof. intros s s' (?&?&?&?&?&?&?). assumption. Qed.
#[global] Instance recordedChunks_proper : Proper (same_session ==> eq) recordedChunks.
Proof. intros s s' (?&?&?&?&?&?&?). assumption. Qed.
#[global] Instance error_proper : Proper (same_session ==> eq) error.
Proof. intros s s' (?&?&?&?&?&?&?). assumption. Qed.
#[global] Instance segmentTimerRef_proper : Proper (same_session ==> eq) segmentTimerRef.
Proof. intros s s' (?&?&?&?&?&?&?). assumption. Qed.
#[global] Instance timers_proper : Proper (same_session ==> eq) timers.
Proof. intros s s' (?&?&?&?&?&?&?). assumption. Qed.
#[global] Instance mimeTypeRef_proper : Proper (same_session ==> eq) mimeTypeRef.
Proof. intros s s' (?&?&?&?&?&?&?). assumption. Qed.
#[global] Instance segmentDurationRef_proper :
  Proper (same_session ==> eq) segmentDurationRef.
Proof. intros s s' (?&?&?&?&?&?&?). assumption. Qed.

(** A setter changes its own field and no other. *)
Lemma status_set_status v s : status (set_status v s) = v.
Proof. reflexivity. Qed.
Lemma recordedChunks_set_status v s : recordedChunks (set_status v s) = recordedChunks s.
Proof. reflexivity. Qed.
Lemma error_set_status v s : error (set_status v s) = error s.
Proof. reflexivity. Qed.
Lemma segmentTimerRef_set_status v s : segmentTimerRef (set_status v s) = segmentTimerRef s.
Proof. reflexivity. Qed.
Lemma timers_set_status v s : timers (set_status v s) = timers s.
Proof. reflexivity. Qed.
Lemma mimeTypeRef_set_status v s : mimeTypeRef (set_status v s) = mimeTypeRef s.
Proof. reflexivity. Qed.
Lemma segmentDurationRef_set_status v s : segmentDurationRef (set_status v s) = segmentDurationRef s.
Proof. reflexivity. Qed.
Lemma status_set_recordedChunks v s : status (set_recordedChunks v s) = status s.
Proof. reflexivity. Qed.
Lemma recordedChunks_set_recordedChunks v s : recordedChunks (set_recordedChunks v s) = v.
Proof. reflexivity. Qed.
Lemma error_set_recordedChunks v s : error (set_recordedChunks v s) = error s.
Proof. reflexivity. Qed.
Lemma segmentTimerRef_set_recordedChunks v s : segmentTimerRef (set_recordedChunks v s) = segmentTimerRef s.
Proof. reflexivity. Qed.
Lemma timers_set_recordedChunks v s : timers (set_recordedChunks v s) = timers s.
Proof. reflexivity. Qed.
Lemma mimeTypeRef_set_recordedChunks v s : mimeTypeRef (set_recordedChunks v s) = mimeTypeRef s.
Proof. reflexivity. Qed.
Lemma segmentDurationRef_set_recordedChunks v s : segmentDurationRef (set_recordedChunks v s) = segmentDurationRef s.
Proof. reflexivity. Qed.
Lemma status_set_error v s : status (set_error v s) = status s.
Proof. reflexivity. Qed.
Lemma recordedChunks_set_error v s : recordedChunks (set_error v s) = recordedChunks s.
Proof. reflexivity. Qed.
Lemma error_set_error v s : error (set_error v s) = v.
Proof. reflexivity. Qed.
Lemma segmentTimerRef_set_error v s : segmentTimerRef (set_error v s) = segmentTimerRef s.
Proof. reflexivity. Qed.
Lemma timers_set_error v s : timers (set_error v s) = timers s.
Proof. reflexivity. Qed.
Lemma mimeTypeRef_set_error v s : mimeTypeRef (set_error v s) = mimeTypeRef s.
Proof. reflexivity. Qed.
Lemma segmentDurationRef_set_error v s : segmentDurationRef (set_error v s) = segmentDurationRef s.
Proof. reflexivity. Qed.
Lemma set_volume_same v s : same_session (set_volume v s) s.
Proof. repeat split. Qed.
Lemma set_mediaRecorderRef_same v s : same_session (set_mediaRecorderRef v s) s.
Proof. repeat split. Qed.
Lemma set_streamRef_same v s : same_session (set_streamRef v s) s.
Proof. repeat split. Qed.
Lemma status_set_segmentTimerRef v s : status (set_segmentTimerRef v s) = status s.
Proof. reflexivity. Qed.
Lemma recordedChunks_set_segmentTimerRef v s : recordedChunks (set_segmentTimerRef v s) = recordedChunks s.
Proof. reflexivity. Qed.
Lemma error_set_segmentTimerRef v s : error (set_segmentTimerRef v s) = error s.
Proof. reflexivity. Qed.
Lemma segmentTimerRef_set_segmentTimerRef v s : segmentTimerRef (set_segmentTimerRef v s) = v.
Proof. reflexivity. Qed.
Lemma timers_set_segmentTimerRef v s : timers (set_segmentTimerRef v s) = timers s.
Proof. reflexivity. Qed.
Lemma mimeTypeRef_set_segmentTimerRef v s : mimeTypeRef (set_segmentTimerRef v s) = mimeTypeRef s.
Proof. reflexivity. Qed.
Lemma segmentDurationRef_set_segmentTimerRef v s : segmentDurationRef (set_segmentTimerRef v s) = segmentDurationRef s.
Proof. reflexivity. Qed.
Lemma status_set_mimeTypeRef v s : status (set_mimeTypeRef v s) = status s.
Proof. reflexivity. Qed.
Lemma recordedChunks_set_mimeTypeRef v s : recordedChunks (set_mimeTypeRef v s) = recordedChunks s.
Proof. reflexivity. Qed.
Lemma error_set_mimeTypeRef v s : error (set_mimeTypeRef v s) = error s.
Proof. reflexivity. Qed.
Lemma segmentTimerRef_set_mimeTypeRef v s : segmentTimerRef (set_mimeTypeRef v s) = segmentTimerRef s.
Proof. reflexivity. Qed.
Lemma timers_set_mimeTypeRef v s : timers (set_mimeTypeRef v s) = timers s.
Proof. reflexivity. Qed.
Lemma mimeTypeRef_set_mimeTypeRef v s : mimeTypeRef (set_mimeTypeRef v s) = v.
Proof. reflexivity. Qed.
Lemma segmentDurationRef_set_mimeTypeRef v s : segmentDurationRef (set_mimeTypeRef v s) = segmentDurationRef s.
Proof. reflexivity. Qed.
Lemma status_set_segmentDurationRef v s : status (set_segmentDurationRef v s) = status s.
Proof. reflexivity. Qed.
Lemma recordedChunks_set_segmentDurationRef v s : recordedChunks (set_segmentDurationRef v s) = recordedChunks s.
Proof. reflexivity. Qed.
Lemma error_set_segmentDurationRef v s : error (set_segmentDurationRef v s) = error s.
Proof. reflexivity. Qed.
Lemma segmentTimerRef_set_segmentDurationRef v s : segmentTimerRef (set_segmentDurationRef v s) = segmentTimerRef s.
Proof. reflexivity. Qed.
Lemma timers_set_segmentDurationRef v s : timers (set_segmentDurationRef v s) = timers s.
Proof. reflexivity. Qed.
Lemma mimeTypeRef_set_segmentDurationRef v s : mimeTypeRef (set_segmentDurationRef v s) = mimeTypeRef s.
Proof. reflexivity. Qed.
Lemma segmentDurationRef_set_segmentDurationRef v s : segmentDurationRef (set_segmentDurationRef v s) = v.
Proof. reflexivity. Qed.
Lemma set_audioContextRef_same v s : same_session (set_audioContextRef v s) s.
Proof. repeat split. Qed.
Lemma set_analyserRef_same v s : same_session (set_analyserRef v s) s.
Proof. repeat split. Qed.
Lemma set_sourceNodeRef_same v s : same_session (set_sourceNodeRef v s) s.
Proof. repeat split. Qed.
Lemma set_animationFrameIdRef_same v s : same_session (set_animationFrameIdRef v s) s.
Proof. repeat split. Qed.
Lemma set_recorders_same v s : same_session (set_recorders v s) s.
Proof. repeat split. Qed.
Lemma set_live_streams_same v s : same_session (set_live_streams v s) s.
Proof. repeat split. Qed.
Lemma set_open_contexts_same v s : same_session (set_open_contexts v s) s.
Proof. repeat split. Qed.
Lemma status_set_timers v s : status (set_timers v s) = status s.
Proof. reflexivity. Qed.
Lemma recordedChunks_set_timers v s : recordedChunks (set_timers v s) = recordedChunks s.
Proof. reflexivity. Qed.
Lemma error_set_timers v s : error (set_timers v s) = error s.
Proof. reflexivity. Qed.
Lemma segmentTimerRef_set_timers v s : segmentTimerRef (set_timers v s) = segmentTimerRef s.
Proof. reflexivity. Qed.
Lemma timers_set_timers v s : timers (set_timers v s) = v.
Proof. reflexivity. Qed.
Lemma mimeTypeRef_set_timers v s : mimeTypeRef (set_timers v s) = mimeTypeRef s.
Proof. reflexivity. Qed.
Lemma segmentDurationRef_set_timers v s : segmentDurationRef (set_timers v s) = segmentDurationRef s.
Proof. reflexivity. Qed.
Lemma set_frames_same v s : same_session (set_frames v s) s.
Proof. repeat split. Qed.
Lemma set_next_handle_same v s : same_session (set_next_handle v s) s.
Proof. repeat split. Qed.

#[global] Hint Rewrite status_set_status recordedChunks_set_status
   error_set_status segmentTimerRef_set_status timers_set_status
   mimeTypeRef_set_status segmentDurationRef_set_status
   status_set_recordedChunks recordedChunks_set_recordedChunks
   error_set_recordedChunks segmentTimerRef_set_recordedChunks
   timers_set_recordedChunks mimeTypeRef_set_recordedChunks
   segmentDurationRef_set_recordedChunks status_set_error
   recordedChunks_set_error error_set_error segmentTimerRef_set_error
   timers_set_error mimeTypeRef_set_error segmentDurationRef_set_error
   status_set_segmentTimerRef recordedChunks_set_segmentTimerRef
   error_set_segmentTimerRef segmentTimerRef_set_segmentTimerRef
   timers_set_segmentTimerRef mimeTypeRef_set_segmentTimerRef
   segmentDurationRef_set_segmentTimerRef status_set_mimeTypeRef
   recordedChunks_set_mimeTypeRef error_set_mimeTypeRef
   segmentTimerRef_set_mimeTypeRef timers_set_mimeTypeRef
   mimeTypeRef_set_mimeTypeRef segmentDurationRef_set_mimeTypeRef
   status_set_segmentDurationRef recordedChunks_set_segmentDurationRef
   error_set_segmentDurationRef segmentTimerRef_set_segmentDurationRef
   timers_set_segmentDurationRef mimeTypeRef_set_segmentDurationRef
   segmentDurationRef_set_segmentDurationRef status_set_timers
   recordedChunks_set_timers error_set_timers segmentTimerRef_set_timers
   timers_set_timers mimeTypeRef_set_timers segmentDurationRef_set_timers : hook.

#[global] Hint Resolve set_volume_same set_mediaRecorderRef_same
   set_streamRef_same set_audioContextRef_same set_analyserRef_same
   set_sourceNodeRef_same set_animationFrameIdRef_same set_recorders_same
   set_live_streams_same set_open_contexts_same set_frames_same
   set_next_handle_same : same.

(** Settles [same_session (f s) s] for a step [f] that is a case
    distinction over setters of other fields. *)
Ltac frame := repeat case_match; repeat split; reflexivity.

Lemma cancel_frame_same s : same_session (cancel_frame s) s.
Proof. unfold cancel_frame. frame. Qed.

Lemma close_context_same s : same_session (close_context s) s.
Proof. unfold close_context. frame. Qed.

Lemma draw_same rms s : same_session (draw rms s) s.
Proof. unfold draw. frame. Qed.

Lemma recorder_stop_same id s : same_session (recorder_stop id s) s.
Proof. unfold recorder_stop. frame. Qed.

Lemma stop_if_recording_same s : same_session (stop_if_recording s) s.
Proof.
  unfold stop_if_recording. repeat case_match;
    [apply recorder_stop_same | reflexivity | reflexivity].
Qed.

Lemma startNewSegment_same `{Browser} now stream mimeType s :
  same_session (state_of (startNewSegment now stream mimeType s)) s.
Proof. unfold startNewSegment. frame. Qed.

Lemma start_on_stream_same `{Browser} now s :
  same_session (state_of (start_on_stream now s)) s.
Proof.
  unfold start_on_stream. case_match;
    [apply startNewSegment_same | reflexivity].
Qed.

Lemma release_stream_same s : same_session (release_stream s) s.
Proof. unfold release_stream. frame. Qed.

Lemma acquire_stream_same s : same_session (acquire_stream s) s.
Proof. unfold acquire_stream. frame. Qed.

Lemma connect_analyser_same s : same_session (connect_analyser s) s.
Proof. unfold connect_analyser. frame. Qed.

Lemma ondataavailable_same id data s :
  same_session (ondataavailable id data s) s.
Proof. unfold ondataavailable. frame. Qed.

Lemma clear_stop_pending_same id s : same_session (clear_stop_pending id s) s.
Proof. unfold clear_stop_pending. frame. Qed.

Lemma cancelAnimationFrame_same id s : same_session (cancelAnimationFrame id s) s.
Proof. unfold cancelAnimationFrame. frame. Qed.

#[global] Hint Resolve cancel_frame_same close_context_same draw_same
  recorder_stop_same stop_if_recording_same startNewSegment_same
  start_on_stream_same release_stream_same acquire_stream_same
  connect_analyser_same ondataavailable_same clear_stop_pending_same
  cancelAnimationFrame_same : same.

(** Drops, below a field of the state, one step that leaves the field
    alone. *)
Ltac frame_step :=
  match goal with
  | |- context [status ?x] =>
      rewrite (status_proper x _ ltac:(solve [eassumption | eauto 1 with same]))
  | |- context [recordedChunks ?x] =>
      rewrite (recordedChunks_proper x _ ltac:(solve [eassumption | eauto 1 with same]))
  | |- context [error ?x] =>
      rewrite (error_proper x _ ltac:(solve [eassumption | eauto 1 with same]))
  | |- context [segmentTimerRef ?x] =>
      rewrite (segmentTimerRef_proper x _ ltac:(solve [eassumption | eauto 1 with same]))
  | |- context [timers ?x] =>
      rewrite (timers_proper x _ ltac:(solve [eassumption | eauto 1 with same]))
  | |- context [mimeTypeRef ?x] =>
      rewrite (mimeTypeRef_proper x _ ltac:(solve [eassumption | eauto 1 with same]))
  | |- context [segmentDurationRef ?x] =>
      rewrite (segmentDurationRef_proper x _ ltac:(solve [eassumption | eauto 1 with same]))
  end.

(** Rewrites the fields of a state built by the hook's steps. *)
Ltac hook := repeat first [progress autorewrite with hook | frame_step].

Lemma cleanupAudioContext_same s : same_session (cleanupAudioContext s) s.
Proof. unfold cleanupAudioContext. repeat split; hook; reflexivity. Qed.

Lemma createNewSegment_same `{Browser} now s :
  same_session (state_of (createNewSegment now s)) s.
Proof. unfold createNewSegment. repeat split; hook; reflexivity. Qed.

#[global] Hint Resolve cleanupAudioContext_same createNewSegment_same : same.

(** The steps that arm and cancel intervals change nothing else. *)

#[global] Instance same_but_timers_equiv : Equivalence same_but_timers.
Proof.
  split.
  - intros s. repeat split.
  - intros s s' (?&?&?&?&?). repeat split; congruence.
  - intros s1 s2 s3 (?&?&?&?&?) (?&?&?&?&?). repeat split; congruence.
Qed.

#[global] Instance status_proper' : Proper (same_but_timers ==> eq) status.
Proof. intros s s' (?&?&?&?&?). assumption. Qed.
#[global] Instance recordedChunks_proper' :
  Proper (same_but_timers ==> eq) recordedChunks.
Proof. intros s s' (?&?&?&?&?). assumption. Qed.
#[global] Instance error_proper' : Proper (same_but_timers ==> eq) error.
Proof. intros s s' (?&?&?&?&?). assumption. Qed.
#[global] Instance mimeTypeRef_proper' : Proper (same_but_timers ==> eq) mimeTypeRef.
Proof. intros s s' (?&?&?&?&?). assumption. Qed.
#[global] Instance segmentDurationRef_proper' :
  Proper (same_but_timers ==> eq) segmentDurationRef.
Proof. intros s s' (?&?&?&?&?). assumption. Qed.

Lemma clearInterval_rest id s : same_but_timers (clearInterval id s) s.
Proof. repeat split. Qed.

Lemma release_timer_rest s : same_but_timers (release_timer s) s.
Proof. unfold release_timer. frame. Qed.

Lemma disarm_timer_rest s : same_but_timers (disarm_timer s) s.
Proof. unfold disarm_timer. frame. Qed.

Lemma arm_timer_rest now minutes s : same_but_timers (arm_timer now minutes s) s.
Proof.
  unfold arm_timer, setInterval. destruct (Qlt_le_dec 0 minutes); repeat split.
Qed.

Lemma reschedule_rest tm s : same_but_timers (reschedule tm s) s.
Proof. repeat split. Qed.

#[global] Hint Resolve clearInterval_rest release_timer_rest disarm_timer_rest
  arm_timer_rest reschedule_rest : rest.

Ltac rest_step :=
  match goal with
  | |- context [status ?x] =>
      rewrite (status_proper' x _ ltac:(solve [eassumption | eauto 1 with rest]))
  | |- context [recordedChunks ?x] =>
      rewrite (recordedChunks_proper' x _ ltac:(solve [eassumption | eauto 1 with rest]))
  | |- context [error ?x] =>
      rewrite (error_proper' x _ ltac:(solve [eassumption | eauto 1 with rest]))
  | |- context [mimeTypeRef ?x] =>
      rewrite (mimeTypeRef_proper' x _ ltac:(solve [eassumption | eauto 1 with rest]))
  | |- context [segmentDurationRef ?x] =>
      rewrite (segmentDurationRef_proper' x _ ltac:(solve [eassumption | eauto 1 with rest]))
  end.

Ltac hook ::=
  repeat first [progress autorewrite with hook | frame_step | rest_step].

Lemma timers_clearInterval id s :
  timers (clearInterval id s) = filter (λ tm, tm_id tm ≠ id) (timers s).
Proof. reflexivity. Qed.

Lemma segmentTimerRef_clearInterval id s :
  segmentTimerRef (clearInterval id s) = segmentTimerRef s.
Proof. reflexivity. Qed.

Lemma timers_release_timer s :
  timers (release_timer s) = timers (disarm_timer s).
Proof. unfold release_timer, disarm_timer. case_match; reflexivity. Qed.

Lemma segmentTimerRef_release_timer s : segmentTimerRef (release_timer s) = None.
Proof. unfold release_timer. case_match; [reflexivity | assumption]. Qed.

Lemma timers_disarm_timer s :
  timers (disarm_timer s)
  = match segmentTimerRef s with
    | Some id => filter (λ tm, tm_id tm ≠ id) (timers s)
    | None => timers s
    end.
Proof. unfold disarm_timer. case_match; reflexivity. Qed.

Lemma segmentTimerRef_disarm_timer s :
  segmentTimerRef (disarm_timer s) = segmentTimerRef s.
Proof. unfold disarm_timer. destruct (segmentTimerRef s) eqn:E; exact E. Qed.

Lemma timers_arm_timer now minutes s :
  timers (arm_timer now minutes s)
  = if Qlt_le_dec 0 minutes
    then (timers s ++ [{| tm_id := next_handle s;
                          tm_due := clock_ms now + timeout_ms (minutes * 60 * 1000);
                          tm_period := timeout_ms (minutes * 60 * 1000) |}])%list
    else timers s.
Proof.
  unfold arm_timer, setInterval. destruct (Qlt_le_dec 0 minutes); reflexivity.
Qed.

Lemma segmentTimerRef_arm_timer now minutes s :
  segmentTimerRef (arm_timer now minutes s)
  = if Qlt_le_dec 0 minutes then Some (next_handle s) else segmentTimerRef s.
Proof.
  unfold arm_timer, setInterval. destruct (Qlt_le_dec 0 minutes); reflexivity.
Qed.

Lemma timers_reschedule tm s :
  timers (reschedule tm s)
  = map (fun t => if decide (tm_id t = tm_id tm)
                  then {| tm_id := tm_id t; tm_due := tm_due t + tm_period t;
                          tm_period := tm_period t |}
                  else t) (timers s).
Proof. reflexivity. Qed.

Lemma segmentTimerRef_reschedule tm s :
  segmentTimerRef (reschedule tm s) = segmentTimerRef s.
Proof. reflexivity. Qed.

#[global] Hint Rewrite timers_clearInterval segmentTimerRef_clearInterval
  timers_release_timer segmentTimerRef_release_timer timers_disarm_timer
  segmentTimerRef_disarm_timer timers_arm_timer segmentTimerRef_arm_timer
  timers_reschedule segmentTimerRef_reschedule : hook.

(** *** The scheduler's bookkeeping along a session *)

Lemma scheduler_ok_ext `{Browser} (s s' : State) :
  status s = status s' -> segmentTimerRef s = segmentTimerRef s' ->
  timers s = timers s' -> mimeTypeRef s = mimeTypeRef s' ->
  scheduler_ok s' -> scheduler_ok s.
Proof.
  intros Hst Href Htm Hmt (Ha & Hb & Hc).
  unfold scheduler_ok. rewrite Hst, Href, Htm, Hmt. auto.
Qed.

Lemma scheduler_ok_same `{Browser} (s s' : State) :
  same_session s s' -> scheduler_ok s' -> scheduler_ok s.
Proof.
  intros (Hst & _ & _ & Href & Htm & Hmt & _). apply scheduler_ok_ext; assumption.
Qed.

Lemma filter_none {A : Type} (P : A -> Prop) `{forall x, Decision (P x)}
    (l : list A) :
  (forall x, x ∈ l -> ~ P x) -> filter P l = [].
Proof.
  intros Hnone. destruct (filter P l) as [|x l'] eqn:Hf; [reflexivity|].
  assert (Hx : x ∈ filter P l) by (rewrite Hf; left).
  apply list_elem_of_filter in Hx as [HP Hin]. destruct (Hnone x Hin HP).
Qed.

(** Cancelling the interval the ref holds cancels every interval. *)
Lemma disarm_clears `{Browser} (s : State) :
  scheduler_ok s ->
  match segmentTimerRef s with
  | Some id => filter (λ tm, tm_id tm ≠ id) (timers s)
  | None => timers s
  end = [].
Proof.
  intros (Ha & _ & _).
  destruct (segmentTimerRef s) as [id|] eqn:Href.
  - apply filter_none. intros tm Htm Hne.
    apply Ha in Htm. congruence.
  - destruct (timers s) as [|tm tms]; [reflexivity|].
    discriminate (Ha tm). left.
Qed.

Lemma stopRecording_unfold `{Browser} s :
  stopRecording s
  = match status s, mediaRecorderRef s with
    | recording, Some _ =>
        set_status stopped
          (release_stream (stop_if_recording (release_timer (cleanupAudioContext s))))
    | _, _ => s
    end.
Proof. reflexivity. Qed.

Lemma stopRecording_ok `{Browser} (s : State) :
  scheduler_ok s -> scheduler_ok (stopRecording s).
Proof.
  intros Hok. rewrite stopRecording_unfold.
  destruct (status s) eqn:Hst; try exact Hok.
  destruct (mediaRecorderRef s); [|exact Hok].
  assert (Htm : timers (release_timer (cleanupAudioContext s)) = []).
  { hook. apply disarm_clears, Hok. }
  remember (release_timer (cleanupAudioContext s)) as s1.
  unfold scheduler_ok. hook. rewrite Htm.
  split; [intros tm Hin; inversion Hin|].
  split; [reflexivity | discriminate].
Qed.

Lemma scheduler_ok_idle `{Browser} (s : State) :
  status s <> recording -> timers s = [] -> scheduler_ok s.
Proof.
  intros Hst Htm. unfold scheduler_ok. rewrite Htm.
  split; [intros tm Hin; inversion Hin|].
  split; [reflexivity | intros Hrec; destruct (Hst Hrec)].
Qed.

Lemma startRecording_try_unfold `{Browser} env now mimeType minutes s :
  startRecording_try env now mimeType minutes s
  = match getUserMedia_error env with
    | Some err => Thrown err s
    | None =>
        match audioContext_error env with
        | Some err => Thrown err (acquire_stream s)
        | None =>
            and_then
              (startNewSegment now (next_handle s) mimeType
                 (draw (first_rms env) (connect_analyser (acquire_stream s))))
              (fun s => Returned (arm_timer now minutes (set_status recording s)))
        end
    end.
Proof. reflexivity. Qed.

Lemma startRecording_unfold `{Browser} env now mimeType minutes s :
  startRecording env now mimeType minutes s
  = match status s with
    | recording => set_error None s
    | _ =>
        match
          startRecording_try env now mimeType minutes
            (set_segmentDurationRef minutes
               (set_mimeTypeRef mimeType (set_error None s)))
        with
        | Returned s => s
        | Thrown err s => set_error (Some (start_error_message err)) s
        end
    end.
Proof. reflexivity. Qed.

Lemma startRecording_resume_unfold `{Browser} env now mimeType minutes s :
  startRecording_resume env now mimeType minutes s
  = match startRecording_try env now mimeType minutes s with
    | Returned s => s
    | Thrown err s => set_error (Some (start_error_message err)) s
    end.
Proof. reflexivity. Qed.

Lemma startRecording_by_resume `{Browser} env now mimeType minutes s :
  startRecording env now mimeType minutes s
  = match status s with
    | recording => set_error None s
    | _ =>
        startRecording_resume env now mimeType minutes
          (set_segmentDurationRef minutes
             (set_mimeTypeRef mimeType (set_error None s)))
    end.
Proof. reflexivity. Qed.

Lemma set_pending_starts_same v s : same_session (set_pending_starts v s) s.
Proof. repeat split. Qed.

#[global] Hint Resolve set_pending_starts_same : same.

(** A start from a session that is not recording. *)
Lemma start_from_rest_ok `{Browser} env now mimeType minutes s :
  status s <> recording -> timers s = [] ->
  scheduler_ok
    match
      startRecording_try env now mimeType minutes
        (set_segmentDurationRef minutes
           (set_mimeTypeRef mimeType (set_error None s)))
    with
    | Returned s => s
    | Thrown err s => set_error (Some (start_error_message err)) s
    end.
Proof.
  intros Hst Htm. rewrite startRecording_try_unfold.
  destruct (getUserMedia_error env);
    [apply scheduler_ok_idle; hook; assumption|].
  destruct (audioContext_error env);
    [apply scheduler_ok_idle; hook; assumption|].
  unfold startNewSegment, and_then.
  destruct (isTypeSupported mimeType) eqn:Hsup;
    [|apply scheduler_ok_idle; hook; assumption].
  unfold scheduler_ok. hook. rewrite Htm.
  destruct (Qlt_le_dec 0 minutes).
  - split; [|split; [intros Hne; destruct Hne; reflexivity | intros _; exact Hsup]].
    intros tm Hin. apply list_elem_of_singleton in Hin. subst tm. reflexivity.
  - split; [intros tm Hin; inversion Hin|].
    split; [reflexivity | intros _; exact Hsup].
Qed.

Lemma startRecording_ok `{Browser} env now mimeType minutes (s : State) :
  scheduler_ok s -> scheduler_ok (startRecording env now mimeType minutes s).
Proof.
  intros Hok. rewrite startRecording_unfold.
  pose proof Hok as (_ & Hb & _).
  destruct (status s) eqn:Hst.
  - apply start_from_rest_ok; [congruence | apply Hb; congruence].
  - eapply scheduler_ok_ext; [| | | |exact Hok]; reflexivity.
  - apply start_from_rest_ok; [congruence | apply Hb; congruence].
Qed.

Lemma resetRecording_unfold `{Browser} s :
  resetRecording s
  = set_error None
      (release_timer
         (release_stream
            (set_mediaRecorderRef None
               (set_recordedChunks []
                  (set_status idle
                     match status s with
                     | recording => stopRecording s
                     | _ => cleanupAudioContext s
                     end))))).
Proof. reflexivity. Qed.

Lemma resetRecording_ok `{Browser} (s : State) :
  scheduler_ok s -> scheduler_ok (resetRecording s).
Proof.
  intros Hok. rewrite resetRecording_unfold.
  set (s1 := match status s with recording => stopRecording s | _ => _ end).
  assert (Hok1 : scheduler_ok s1).
  { subst s1. destruct (status s); try apply stopRecording_ok, Hok;
      (eapply scheduler_ok_same; [apply cleanupAudioContext_same | exact Hok]). }
  clearbody s1.
  apply scheduler_ok_idle; hook; [discriminate|].
  apply disarm_clears, Hok1.
Qed.

Lemma createNewSegment_cases `{Browser} now s :
  exists s1, same_session s1 s
    /\ (createNewSegment now s = Returned s1
        \/ exists err, createNewSegment now s = Thrown err s1).
Proof.
  pose proof (createNewSegment_same now s) as Hsame.
  destruct (createNewSegment now s) as [s1|err s1]; exists s1; eauto.
Qed.

(** In a format the browser accepts, a rotation does not throw. *)
Lemma createNewSegment_returns `{Browser} now s :
  isTypeSupported (mimeTypeRef s) = true ->
  exists s1, createNewSegment now s = Returned s1 /\ same_session s1 s.
Proof.
  intros Hsup.
  destruct (createNewSegment_cases now s) as (s1 & Hsame & [Hret|[err Hthr]]);
    [eauto|exfalso].
  unfold createNewSegment, start_on_stream in Hthr.
  destruct (streamRef (stop_if_recording s)); [|discriminate].
  unfold startNewSegment in Hthr.
  rewrite (mimeTypeRef_proper _ _ (stop_if_recording_same s)), Hsup in Hthr.
  discriminate.
Qed.

Lemma splitSegment_unfold `{Browser} now s :
  splitSegment now s
  = match status s with
    | recording =>
        and_then (createNewSegment now s)
          (fun s =>
             Returned
               (arm_timer now (segmentDurationRef (disarm_timer s))
                  (disarm_timer s)))
    | _ => Returned s
    end.
Proof. reflexivity. Qed.

(** What a split that goes through leaves armed: nothing, or one interval
    of the session's period, due one period from now. *)
Lemma rearmed_timers `{Browser} now s :
  scheduler_ok s ->
  timers (arm_timer now (segmentDurationRef (disarm_timer s)) (disarm_timer s))
  = if Qlt_le_dec 0 (segmentDurationRef s)
    then [{| tm_id := next_handle (disarm_timer s);
             tm_due := clock_ms now + timeout_ms (segmentDurationRef s * 60 * 1000);
             tm_period := timeout_ms (segmentDurationRef s * 60 * 1000) |}]
    else [].
Proof.
  intros Hok. hook. rewrite (disarm_clears s Hok).
  destruct (Qlt_le_dec 0 (segmentDurationRef s)); reflexivity.
Qed.

Lemma rearmed_ok `{Browser} now s :
  scheduler_ok s -> status s = recording ->
  scheduler_ok (arm_timer now (segmentDurationRef (disarm_timer s)) (disarm_timer s)).
Proof.
  intros Hok Hst. pose proof Hok as (Ha & Hb & Hc).
  unfold scheduler_ok. rewrite rearmed_timers by exact Hok. hook.
  split; [|split; [congruence | exact Hc]].
  destruct (Qlt_le_dec 0 (segmentDurationRef s)); intros tm Hin.
  - apply list_elem_of_singleton in Hin. subst tm. reflexivity.
  - inversion Hin.
Qed.

Lemma splitSegment_ok `{Browser} now (s : State) :
  scheduler_ok s -> scheduler_ok (state_of (splitSegment now s)).
Proof.
  intros Hok. rewrite splitSegment_unfold.
  destruct (status s) eqn:Hst; try exact Hok.
  destruct (createNewSegment_cases now s) as (s1 & Hsame & [->|[err ->]]).
  - apply rearmed_ok.
    + eapply scheduler_ok_same; eassumption.
    + rewrite (status_proper _ _ Hsame). exact Hst.
  - eapply scheduler_ok_same; eassumption.
Qed.

Lemma reschedule_ok `{Browser} tm (s : State) :
  scheduler_ok s -> scheduler_ok (reschedule tm s).
Proof.
  intros (Ha & Hb & Hc). unfold scheduler_ok. hook.
  split; [|split; [|exact Hc]].
  - intros t Hin. apply list_elem_of_fmap in Hin as (t0 & -> & Hin).
    rewrite (Ha t0 Hin). destruct (decide (tm_id t0 = tm_id tm)); reflexivity.
  - intros Hst. rewrite (Hb Hst). reflexivity.
Qed.

(** The [stop] handler adds a segment or changes nothing. *)
Lemma onstop_cases id now s :
  onstop id now s = s
  \/ exists b e data,
       onstop id now s
       = set_recordedChunks (add_chunk b e data (recordedChunks s)) s.
Proof.
  unfold onstop. repeat case_match; eauto.
Qed.

Lemma reachable_run `{Browser} (es : list Event) :
  forall s, reachable s -> reachable (run es s).
Proof.
  induction es as [|e es IH]; intros s Hs; [exact Hs|].
  apply IH. constructor. exact Hs.
Qed.

(** *** The segment list along a session *)

Lemma step_chunks `{Browser} (e : Event) (s : State) :
  chunks_change (recordedChunks s) (recordedChunks (step e s)).
Proof.
  destruct e; cbn [step].
  - replace (recordedChunks (startRecording _ _ _ _ s)) with (recordedChunks s);
      [constructor|].
    rewrite startRecording_unfold, startRecording_try_unfold.
    unfold and_then, startNewSegment.
    destruct (status s), (getUserMedia_error env), (audioContext_error env),
      (isTypeSupported mimeType); hook; reflexivity.
  - replace (recordedChunks (startRecording_call mimeType minutes s))
      with (recordedChunks s); [constructor|].
    unfold startRecording_call. destruct (status s); reflexivity.
  - destruct (pending_starts s !! call) as [[mimeType minutes]|]; [|constructor].
    replace (recordedChunks (startRecording_resume env now mimeType minutes _))
      with (recordedChunks s); [constructor|].
    rewrite startRecording_resume_unfold, startRecording_try_unfold.
    unfold and_then, startNewSegment.
    destruct (getUserMedia_error env), (audioContext_error env),
      (isTypeSupported mimeType); hook; reflexivity.
  - replace (recordedChunks (stopRecording s)) with (recordedChunks s);
      [constructor|].
    rewrite stopRecording_unfold. repeat case_match; hook; reflexivity.
  - replace (recordedChunks (state_of (splitSegment now s)))
      with (recordedChunks s); [constructor|].
    rewrite splitSegment_unfold. destruct (status s); try reflexivity.
    destruct (createNewSegment_cases now s) as (s1 & Hsame & [->|[err ->]]);
      cbn [and_then state_of]; hook; reflexivity.
  - apply chunks_deleted.
  - replace (recordedChunks (resetRecording s)) with (@nil SplitFile);
      [constructor|].
    rewrite resetRecording_unfold. hook. reflexivity.
  - destruct (due_timer id now s) as [tm|]; [|constructor].
    replace (recordedChunks (state_of (createNewSegment now (reschedule tm s))))
      with (recordedChunks s); [constructor|]. hook. reflexivity.
  - destruct (_ || _); [|constructor].
    replace (recordedChunks (ondataavailable id data s)) with (recordedChunks s);
      [constructor|]. hook. reflexivity.
  - destruct (stop_event_pending id s); [|constructor].
    destruct (onstop_cases id now (clear_stop_pending id s))
      as [->|(b & e & data & ->)]; hook.
    + constructor.
    + apply chunks_added.
  - destruct (bool_decide _); [|constructor].
    replace (recordedChunks (draw rms (cancelAnimationFrame id s)))
      with (recordedChunks s); [constructor|]. hook. reflexivity.
Qed.

Lemma reachable_names_NoDup `{Browser} (s : State) :
  reachable s -> NoDup (names (recordedChunks s)).
Proof.
  induction 1 as [|e s Hs IH]; [constructor|].
  destruct (step_chunks e s).
  - exact IH.
  - constructor.
  - apply filter_index_names_NoDup, IH.
  - apply add_chunk_names_NoDup, IH.
Qed.

End Session.

(** ** The recorder: segments *)

Section RecorderSegments.
Import JS Recorder Design Session.

(** C2. Along every session (any sequence of calls and browser events from
    the initial state) the names of the segments are pairwise distinct;
    and when a pass ends, the segment list is left as it was or gains one
    segment whose name is the plain [base.ext] if that is free, and
    otherwise [base_k.ext] for the first [k = 2, 3, ...] that is free. *)
Theorem segment_names_pairwise_distinct `{Browser} (s : State) :
  reachable s ->
  NoDup (names (recordedChunks s))
  /\ forall id now,
       recordedChunks (step (RecorderStopped id now) s) = recordedChunks s
       \/ exists e data nm,
            recordedChunks (step (RecorderStopped id now) s)
            = (recordedChunks s ++ [{| name := nm; blob := data |}])%list
            /\ disambiguated (recordedChunks s) (baseName (clock_date now)) e nm.
Proof.
  intros Hs. split; [apply reachable_names_NoDup, Hs|].
  intros id now. cbn [step].
  destruct (stop_event_pending id s); [|left; reflexivity].
  unfold onstop.
  destruct (recorders (clear_stop_pending id s) !! id) as [mr|];
    [|left; hook; reflexivity].
  destruct (0 <? blob_size _)%nat; [|left; hook; reflexivity].
  destruct (fileExtension (mr_mimeType mr)) as [ext|];
    [|left; hook; reflexivity].
  right. hook.
  destruct (add_chunk_spec (baseName (clock_date now)) ext
              (new_Blob (recorderChunks mr) (mr_mimeType mr)) (recordedChunks s))
    as (nm & Hadd & Hdis).
  exists ext, (new_Blob (recorderChunks mr) (mr_mimeType mr)), nm.
  split; assumption.
Qed.

Lemma segment_names_pairwise_distinct_witness :
  NoDup (names (recordedChunks (@run webm_mp4_browser three_passes initial)))
  /\ names (recordedChunks
              (@run webm_mp4_browser
                 (three_passes ++ [RecorderStopped 8 (at_2024_01_01 10 0 9500)])
                 initial))
     = ["202401011000.webm"; "202401011000_2.webm"; "202401011000_3.webm"].
Proof.
  split; [|vm_compute; reflexivity].
  apply (@segment_names_pairwise_distinct webm_mp4_browser).
  apply reachable_run, reachable_initial.
Defined.

Lemma onstop_clear_stop_pending id now s mr :
  recorders s !! id = Some mr ->
  onstop id now (clear_stop_pending id s)
  = let s' := clear_stop_pending id s in
    let data := new_Blob (recorderChunks mr) (mr_mimeType mr) in
    if (0 <? blob_size data)%nat then
      match fileExtension (mr_mimeType mr) with
      | Some ext =>
          set_recordedChunks
            (add_chunk (baseName (clock_date now)) ext data (recordedChunks s')) s'
      | None => s'
      end
    else s'.
Proof.
  intros Hmr. unfold onstop at 1.
  assert (Hlook : recorders (clear_stop_pending id s) !! id
            = Some {| mr_state := mr_state mr; mr_mimeType := mr_mimeType mr;
                      recorderChunks := recorderChunks mr;
                      mr_started := mr_started mr; mr_stop_pending := false |}).
  { unfold clear_stop_pending. rewrite Hmr. apply lookup_insert_eq. }
  rewrite Hlook. reflexivity.
Qed.

(** C6. When the chunks of a pass add up to zero bytes, its [stop] handler
    leaves the state as it is, and the end of the pass leaves the segment
    list (so its length), the error and the status as they were. *)
Theorem empty_pass_adds_no_segment `{Browser}
    (s : State) (id : positive) (now : Clock) (mr : MediaRecorder) :
  recorders s !! id = Some mr ->
  blob_size (new_Blob (recorderChunks mr) (mr_mimeType mr)) = 0%nat ->
  onstop id now s = s
  /\ recordedChunks (step (RecorderStopped id now) s) = recordedChunks s
  /\ length (recordedChunks (step (RecorderStopped id now) s))
     = length (recordedChunks s)
  /\ error (step (RecorderStopped id now) s) = error s
  /\ status (step (RecorderStopped id now) s) = status s.
Proof.
  intros Hmr Hsize.
  assert (Hstep : same_session (step (RecorderStopped id now) s) s).
  { cbn [step]. destruct (stop_event_pending id s); [|reflexivity].
    rewrite (onstop_clear_stop_pending _ _ _ _ Hmr). cbv zeta.
    rewrite Hsize. apply clear_stop_pending_same. }
  split; [unfold onstop; rewrite Hmr, Hsize; reflexivity|].
  destruct Hstep as (Hst & Hch & Herr & _).
  rewrite Hch. auto.
Qed.

Lemma empty_pass_adds_no_segment_witness :
  let s := @run webm_mp4_browser
             [CallStart microphone_granted (at_2024_01_01 10 0 0) "audio/webm" 0;
              CallStop] initial in
  stop_event_pending 4 s = true
  /\ recordedChunks (@step webm_mp4_browser
                       (RecorderStopped 4 (at_2024_01_01 10 0 10)) s) = []
  /\ error (@step webm_mp4_browser
               (RecorderStopped 4 (at_2024_01_01 10 0 10)) s) = None.
Proof.
  intros s. split; [vm_compute; reflexivity|].
  destruct (@empty_pass_adds_no_segment webm_mp4_browser s 4
              (at_2024_01_01 10 0 10)
              {| mr_state := rs_inactive; mr_mimeType := "audio/webm";
                 recorderChunks := []; mr_started := at_2024_01_01 10 0 0;
                 mr_stop_pending := true |})
    as (_ & Hch & _ & Herr & _);
    [vm_compute; reflexivity | reflexivity |].
  rewrite Hch, Herr. split; vm_compute; reflexivity.
Defined.

(** *** Deleting by index *)

Lemma filter_index_spec {A : Type} (i : Z) (l : list A) :
  forall k,
    filter_index (fun index => negb (index =? i)%Z) k l
    = if ((k <=? i) && (i <? k + Z.of_nat (length l)))%Z
      then (take (Z.to_nat (i - k)) l ++ drop (S (Z.to_nat (i - k))) l)%list
      else l.
Proof.
  induction l as [|x l IH]; intros k; cbn [filter_index length].
  - destruct (_ && _); [destruct (Z.to_nat (i - k))|]; reflexivity.
  - rewrite IH. destruct (Z.eqb_spec k i) as [->|Hne]; cbn [negb].
    + replace (i <=? i)%Z with true by (symmetry; apply Z.leb_le; lia).
      replace (i <? i + Z.of_nat (S (length l)))%Z with true
        by (symmetry; apply Z.ltb_lt; lia).
      replace (i + 1 <=? i)%Z with false by (symmetry; apply Z.leb_gt; lia).
      rewrite Z.sub_diag. reflexivity.
    + destruct (Z.leb_spec (k + 1) i) as [Hle|Hgt].
      * replace (k <=? i)%Z with true by (symmetry; apply Z.leb_le; lia).
        replace (i <? k + Z.of_nat (S (length l)))%Z
          with (i <? k + 1 + Z.of_nat (length l))%Z by (f_equal; lia).
        cbn [andb]. destruct (_ <? _)%Z; [|reflexivity].
        replace (Z.to_nat (i - k)) with (S (Z.to_nat (i - (k + 1)))) by lia.
        reflexivity.
      * replace (k <=? i)%Z with false by (symmetry; apply Z.leb_gt; lia).
        reflexivity.
Qed.

(** C10. [deleteSegment i] is total; an index below zero or not below the
    length of the segment list leaves the list as it is, an index in
    range removes that one segment and keeps the others in their order;
    status and error are left alone. *)
Theorem deleteSegment_by_position (s : State) (i : Z) :
  recordedChunks (deleteSegment i s)
  = (if ((0 <=? i) && (i <? Z.of_nat (length (recordedChunks s))))%Z
     then take (Z.to_nat i) (recordedChunks s)
          ++ drop (S (Z.to_nat i)) (recordedChunks s)
     else recordedChunks s)%list
  /\ status (deleteSegment i s) = status s
  /\ error (deleteSegment i s) = error s.
Proof.
  split; [|split; reflexivity].
  unfold deleteSegment. rewrite recordedChunks_set_recordedChunks.
  rewrite filter_index_spec, Z.sub_0_r. reflexivity.
Qed.

(** *** The name of a segment *)

Lemma split_cons_sep (c : ascii) (t : string) :
  split c (String c t) = EmptyString :: split c t.
Proof. cbn [split]. rewrite Ascii.eqb_refl. reflexivity. Qed.

Lemma split_nonempty (c : ascii) (t : string) :
  exists h tl, split c t = h :: tl.
Proof.
  induction t as [|a t (h & tl & IH)]; cbn [split]; [eauto|].
  destruct (Ascii.eqb a c); [eauto|]. rewrite IH. eauto.
Qed.

(** A piece free of the separator stays with the first part of what
    follows it. *)
Lemma split_app_free (c : ascii) (s t : string) :
  occurs c s = false ->
  split c (s +:+ t)
  = match split c t with
    | h :: tl => (s +:+ h) :: tl
    | [] => [s]
    end.
Proof.
  induction s as [|a s IH]; intros Hfree.
  - rewrite append_Empty.
    destruct (split_nonempty c t) as (h & tl & ->). reflexivity.
  - cbn [occurs] in Hfree. apply orb_false_iff in Hfree as [Ha Hs].
    rewrite append_String. cbn [split]. rewrite Ha, (IH Hs).
    destruct (split c t); reflexivity.
Qed.

Lemma append_Empty_r (s : string) : s +:+ EmptyString = s.
Proof.
  induction s as [|a s IH]; [reflexivity|]. rewrite append_String, IH. reflexivity.
Qed.

(** The extension is the subtype of a media type [type/subtype] or
    [type/subtype;parameters]. *)
Lemma fileExtension_subtype (type subtype params : string) :
  occurs "/" type = false ->
  occurs "/" subtype = false ->
  occurs ";" subtype = false ->
  params = EmptyString \/ (exists p, params = String ";" p) ->
  fileExtension (type +:+ "/" +:+ subtype +:+ params) = Some subtype.
Proof.
  intros Hty Hsub1 Hsub2 Hparams. unfold fileExtension.
  rewrite (split_app_free "/" type) by exact Hty.
  rewrite append_String, append_Empty, split_cons_sep.
  rewrite (split_app_free "/" subtype) by exact Hsub1.
  destruct (split_nonempty "/" params) as (h & tl & Hsplit). rewrite Hsplit.
  cbn [lookup list_lookup].
  rewrite (split_app_free ";" subtype) by exact Hsub2.
  destruct Hparams as [->|(p & ->)].
  - cbn [split] in Hsplit. injection Hsplit as <- <-.
    cbn [split]. rewrite append_Empty_r. reflexivity.
  - cbn [split] in Hsplit. change (Ascii.eqb ";" "/") with false in Hsplit.
    destruct (split "/" p) as [|h' tl'];
      injection Hsplit as <- <-; rewrite split_cons_sep, append_Empty_r;
      reflexivity.
Qed.

Lemma digits_aux_length_le (fuel : nat) :
  forall n acc, (String.length acc <= String.length (digits_aux fuel n acc))%nat.
Proof.
  induction fuel as [|fuel IH]; intros n acc; cbn [digits_aux]; [lia|].
  destruct (n / 10 =? 0)%nat; [cbn [String.length]; lia|].
  etransitivity; [|apply IH]. cbn [String.length]. lia.
Qed.

Lemma digits_aux_length_ge (k : nat) :
  forall fuel n acc,
    (10 ^ k <= n)%nat -> (k < fuel)%nat ->
    (String.length acc + k + 1 <= String.length (digits_aux fuel n acc))%nat.
Proof.
  induction k as [|k IH]; intros fuel n acc Hn Hfuel;
    (destruct fuel as [|fuel]; [lia|]); cbn [digits_aux].
  - destruct (n / 10 =? 0)%nat; [cbn [String.length]; lia|].
    etransitivity; [|apply digits_aux_length_le]. cbn [String.length]. lia.
  - assert (10 ^ k <= n / 10)%nat.
    { apply Nat.div_le_lower_bound; [lia|]. rewrite Nat.pow_succ_r' in Hn. lia. }
    assert (1 <= 10 ^ k)%nat by (apply Nat.neq_0_lt_0, Nat.pow_nonzero; lia).
    destruct (Nat.eqb_spec (n / 10) 0); [lia|].
    etransitivity; [|apply IH; [eassumption | lia]].
    cbn [String.length]. lia.
Qed.

(** From the year 1000 on, the base name the code builds is the
    [YYYYMMDDHHmm] format. *)
Lemma baseName_format (t : DateTime) :
  (1000 <= getFullYear t)%nat -> baseName t = format_YYYYMMDDHHmm t.
Proof.
  intros Hyear. unfold baseName, format_YYYYMMDDHHmm. f_equal.
  unfold padStart.
  pose proof (digits_aux_length_ge 3 (S (getFullYear t)) (getFullYear t)
                EmptyString Hyear ltac:(lia)) as Hlen.
  cbn [String.length] in Hlen. fold (toString (getFullYear t)) in Hlen.
  replace (4 - String.length (toString (getFullYear t)))%nat with 0%nat by lia.
  reflexivity.
Qed.

Lemma stop_event_pending_true id s mr :
  recorders s !! id = Some mr -> mr_stop_pending mr = true ->
  stop_event_pending id s = true.
Proof. intros Hmr Hp. unfold stop_event_pending. rewrite Hmr. exact Hp. Qed.

(** C7, as the code has it.  A pass that recorded something adds a segment
    named [base suffix . ext], where [base] is the clock at the moment the
    pass's [stop] handler runs, formatted as [YYYYMMDDHHmm] (for years of
    four digits or more), [suffix] is empty or [_k] with [k >= 2], and
    [ext] is the subtype of the session's media type [type/subtype] or
    [type/subtype;parameters]. *)
Theorem segment_named_after_stop_time `{Browser}
    (s : State) (id : positive) (now : Clock) (mr : MediaRecorder)
    (type subtype params : string) :
  recorders s !! id = Some mr ->
  mr_stop_pending mr = true ->
  (0 < blob_size (new_Blob (recorderChunks mr) (mr_mimeType mr)))%nat ->
  mr_mimeType mr = type +:+ "/" +:+ subtype +:+ params ->
  occurs "/" type = false ->
  occurs "/" subtype = false ->
  occurs ";" subtype = false ->
  params = EmptyString \/ (exists p, params = String ";" p) ->
  (1000 <= getFullYear (clock_date now))%nat ->
  exists nm suffix,
    recordedChunks (step (RecorderStopped id now) s)
    = (recordedChunks s
       ++ [{| name := nm;
              blob := new_Blob (recorderChunks mr) (mr_mimeType mr) |}])%list
    /\ nm = format_YYYYMMDDHHmm (clock_date now) +:+ suffix +:+ "." +:+ subtype
    /\ (suffix = EmptyString
        \/ exists k, (2 <= k)%nat /\ suffix = "_" +:+ toString k).
Proof.
  intros Hmr Hpending Hsize Hmime Hty Hsub1 Hsub2 Hparams Hyear.
  cbn [step]. rewrite (stop_event_pending_true _ _ _ Hmr Hpending).
  rewrite (onstop_clear_stop_pending _ _ _ _ Hmr). cbv zeta.
  apply Nat.ltb_lt in Hsize. rewrite Hsize.
  assert (Hext : fileExtension (mr_mimeType mr) = Some subtype)
    by (rewrite Hmime; apply fileExtension_subtype; assumption).
  rewrite Hext, (baseName_format _ Hyear). hook.
  destruct (add_chunk_spec (format_YYYYMMDDHHmm (clock_date now)) subtype
              (new_Blob (recorderChunks mr) (mr_mimeType mr)) (recordedChunks s))
    as (nm & -> & Hdis).
  exists nm. destruct Hdis as [_|k Hk _ _ _].
  - exists EmptyString. rewrite append_Empty. auto.
  - exists ("_" +:+ toString k). split; [reflexivity|]. split.
    + unfold numbered. rewrite !append_assoc. reflexivity.
    + right. eauto.
Qed.

Lemma segment_named_after_stop_time_witness :
  exists nm suffix,
    recordedChunks
      (@step webm_mp4_browser (RecorderStopped 8 (at_2024_01_01 10 25 1509000))
         (@run webm_mp4_browser three_passes initial))
    = (recordedChunks (@run webm_mp4_browser three_passes initial)
       ++ [{| name := nm;
              blob := new_Blob [one_byte] "audio/webm;codecs=opus" |}])%list
    /\ nm = "202401011025" +:+ suffix +:+ "." +:+ "webm"
    /\ (suffix = EmptyString
        \/ exists k, (2 <= k)%nat /\ suffix = "_" +:+ toString k).
Proof.
  apply (@segment_named_after_stop_time webm_mp4_browser
           (@run webm_mp4_browser three_passes initial) 8
           (at_2024_01_01 10 25 1509000)
           {| mr_state := rs_inactive; mr_mimeType := "audio/webm;codecs=opus";
              recorderChunks := [one_byte];
              mr_started := at_2024_01_01 10 0 9000;
              mr_stop_pending := true |}
           "audio" "webm" ";codecs=opus").
  - vm_compute. reflexivity.
  - reflexivity.
  - vm_compute. lia.
  - reflexivity.
  - reflexivity.
  - reflexivity.
  - reflexivity.
  - right. eexists. reflexivity.
  - vm_compute. lia.
Defined.

(** C7, as stated, fails: a pass started at 10:00 and stopped at 10:25 is
    named after 10:25. *)
Lemma segment_named_after_start_time_fails :
  ~ @named_after_start webm_mp4_browser.
Proof.
  intros Hnamed.
  destruct (Hnamed (@run webm_mp4_browser three_passes initial) 8%positive
              (at_2024_01_01 10 25 1509000)
              {| mr_state := rs_inactive; mr_mimeType := "audio/webm;codecs=opus";
                 recorderChunks := [one_byte];
                 mr_started := at_2024_01_01 10 0 9000;
                 mr_stop_pending := true |}
              {| name := "202401011025.webm";
                 blob := new_Blob [one_byte] "audio/webm;codecs=opus" |})
    as [rest Hrest].
  - apply reachable_run, reachable_initial.
  - vm_compute. reflexivity.
  - vm_compute. reflexivity.
  - vm_compute in Hrest. discriminate Hrest.
Qed.

End RecorderSegments.

(** ** The recorder: scheduler and teardown *)

Section RecorderScheduler.
Import JS Recorder Design Session.

(** C4 fails when two starts overlap.  The view never disables its
    button, so a second click before the microphone is granted calls
    [startRecording] again while the status is still [idle]; both calls arm
    an interval and the timer ref keeps the second.  A manual split at
    [T] = 300 s then cancels and re-arms only that one: the first interval
    stays armed, it is due at 1200 s, before [T + P] = 1500 s, and when it
    runs it rotates the recorder. *)
Theorem overlapping_starts_defeat_the_rearm :
  let s := @run webm_mp4_browser two_clicks initial in
  let T := at_2024_01_01 10 5 300000 in
  let s' := @step webm_mp4_browser (CallSplit T) s in
  let t := at_2024_01_01 10 20 1200000 in
  status s = recording
  /\ segmentDurationRef s = 20%Q
  /\ segmentTimerRef s' = Some 12%positive
  /\ timers s'
     = [{| tm_id := 5; tm_due := 1200000; tm_period := 1200000 |};
        {| tm_id := 12; tm_due := 1500000; tm_period := 1200000 |}]
  /\ is_Some (due_timer 5 t s')
  /\ (clock_ms t < clock_ms T + 20 * 60 * 1000)%Q
  /\ mediaRecorderRef (@step webm_mp4_browser (TimerDue 5 t) s')
     <> mediaRecorderRef s'.
Proof.
  vm_compute. repeat split; try reflexivity; [eauto | discriminate].
Qed.

(** It fails as well on a period of 35792 minutes or more, which the view
    accepts: the delay in milliseconds no longer fits the 32 bits
    [setInterval] takes, and the interval a split re-arms at [T] is due at
    [T]. *)
Lemma long_period_is_rearmed_due_at_once :
  let s := @run webm_mp4_browser
             [CallStart microphone_granted (at_2024_01_01 10 0 0) "audio/webm"
                35792] initial in
  let T := at_2024_01_01 10 5 300000 in
  let s' := @step webm_mp4_browser (CallSplit T) s in
  status s = recording
  /\ segmentDurationRef s = 35792%Q
  /\ timers s' = [{| tm_id := 7; tm_due := 300000; tm_period := 0 |}]
  /\ is_Some (due_timer 7 T s').
Proof.
  vm_compute. repeat split; try reflexivity. eauto.
Qed.

(** C3 fails on a start that throws after the stream was acquired.  In a
    browser that records no Ogg, starting with [audio/ogg;codecs=opus]
    ends in the [catch] clause: the status is still [idle], yet the
    stream is held and its tracks are live, and the telemetry loop has an
    animation frame requested and an analyser to read. *)
Theorem failed_start_keeps_stream_and_telemetry :
  let s := @startRecording webm_mp4_browser microphone_granted
             (at_2024_01_01 10 0 0) "audio/ogg;codecs=opus" 20 initial in
  status s = idle
  /\ error s = Some (MsgCannotStart "mimeType is not supported")
  /\ streamRef s = Some 1%positive
  /\ live_streams s = [1%positive]
  /\ animationFrameIdRef s = Some 3%positive
  /\ frames s = [3%positive]
  /\ analyserRef s = true
  /\ segmentTimerRef s = None.
Proof. vm_compute. repeat split; reflexivity. Qed.

End RecorderScheduler.

(** ** The batch splitter *)

Module Job.
Import JS Splitter Design.

Lemma triple_ret {A} (a : A) (P : State -> Prop) Q E I :
  (forall s, P s -> I s -> Q a s) -> triple P (mret a) Q E I.
Proof.
  intros HQ mach HP HI. split; [exact HI | apply HQ; [exact HP|]].
  exact (Forall_inv HI).
Qed.

Lemma triple_throw {A} (P : State -> Prop) (Q : A -> State -> Prop) E I :
  (forall s, P s -> I s -> E s) -> triple P throw Q E I.
Proof.
  intros HE mach HP HI. split; [exact HI | apply HE; [exact HP|]].
  exact (Forall_inv HI).
Qed.

Lemma triple_get (P : State -> Prop) Q E I :
  (forall s, P s -> I s -> Q s s) -> triple P get Q E I.
Proof.
  intros HQ mach HP HI. split; [exact HI | apply HQ; [exact HP|]].
  exact (Forall_inv HI).
Qed.

Lemma triple_update (f : State -> State) (P : State -> Prop) Q E I :
  (forall s, P s -> I s -> I (f s) /\ Q tt (f s)) -> triple P (update f) Q E I.
Proof.
  intros Hf mach HP HI. cbn.
  destruct (Hf _ HP (Forall_inv HI)) as [HIf HQ].
  split; [constructor; assumption | exact HQ].
Qed.

Lemma triple_bind {A B} (m : M A) (f : A -> M B) (P : State -> Prop) R Q E I :
  triple P m R E I -> (forall a, triple (R a) (f a) Q E I) ->
  triple P (m ≫= f) Q E I.
Proof.
  intros Hm Hf mach HP HI. unfold mbind, M_bind.
  destruct (Hm mach HP HI) as [HI' HR].
  destruct (m mach) as [mach' [a|]]; cbn in *.
  - apply (Hf a mach' HR HI').
  - split; assumption.
Qed.

Lemma triple_try_catch {A} (body handler : M A) (P : State -> Prop) Q E' E I :
  triple P body Q E' I -> triple E' handler Q E I ->
  triple P (try_catch body handler) Q E I.
Proof.
  intros Hb Hh mach HP HI. unfold try_catch.
  destruct (Hb mach HP HI) as [HI' HR].
  destruct (body mach) as [mach' [a|]]; cbn in *.
  - split; assumption.
  - apply (Hh mach' HR HI').
Qed.

Lemma triple_weaken {A} (m : M A) (P P' : State -> Prop) (Q Q' : A -> State -> Prop)
    (E E' I : State -> Prop) :
  (forall s, P' s -> P s) -> (forall a s, Q a s -> Q' a s) ->
  (forall s, E s -> E' s) ->
  triple P m Q E I -> triple P' m Q' E' I.
Proof.
  intros HP HQ HE Hm mach HP' HI.
  destruct (Hm mach (HP _ HP') HI) as [HI' HR]. split; [exact HI'|].
  destruct ((m mach).2); auto.
Qed.

(** *** The progress callback never accepts *)


Lemma keeps_update (f : State -> State) :
  (forall s, progress_idle s -> progress_idle (f s)) -> keeps (update f).
Proof. intros Hf. apply triple_update. auto. Qed.

Lemma keeps_bind {A B} (m : M A) (f : A -> M B) :
  keeps m -> (forall a, keeps (f a)) -> keeps (m ≫= f).
Proof. intros Hm Hf. eapply triple_bind; [exact Hm | exact Hf]. Qed.

Lemma keeps_ret {A} (a : A) : keeps (mret a).
Proof. apply triple_ret. auto. Qed.

Lemma keeps_throw {A} : keeps (@throw A).
Proof. apply triple_throw. auto. Qed.

Lemma keeps_get : keeps get.
Proof. apply triple_get. auto. Qed.

Lemma progress_idle_other (f : State -> State) :
  (forall s, progressRatio (f s) = progressRatio s) ->
  (forall s, ffmpegRef (f s) = ffmpegRef s) ->
  forall s, progress_idle s -> progress_idle (f s).
Proof.
  intros Hp Hf s [H0 He]. split; [rewrite Hp; exact H0|].
  rewrite Hf. exact He.
Qed.

Lemma keeps_setStatus v : keeps (setStatus v).
Proof. apply keeps_update, progress_idle_other; reflexivity. Qed.

Lemma keeps_setProgressMessage v : keeps (setProgressMessage v).
Proof. apply keeps_update, progress_idle_other; reflexivity. Qed.

Lemma keeps_setError v : keeps (setError v).
Proof. apply keeps_update, progress_idle_other; reflexivity. Qed.

Lemma keeps_setSplitFiles v : keeps (setSplitFiles v).
Proof. apply keeps_update, progress_idle_other; reflexivity. Qed.

Lemma keeps_setProgressRatio_0 : keeps (setProgressRatio 0).
Proof.
  apply keeps_update. intros s [_ He]. split; [reflexivity | exact He].
Qed.

Lemma keeps_update_area f : keeps (update_area f).
Proof.
  apply keeps_update. intros s [H0 He].
  destruct (ffmpegRef s) as [e|] eqn:Hs; [|split; [exact H0 | rewrite Hs; exact He]].
  split; [exact H0|]. cbn. intros e' [= <-]. cbn. apply He. reflexivity.
Qed.

(** With a closure whose [status] is not [processing], the callback
    publishes nothing. *)
Lemma progress_rejects captured ratio :
  captured <> processing -> progress captured ratio = mret tt.
Proof.
  intros Hc. unfold progress.
  replace (is_processing captured) with false
    by (destruct captured; try reflexivity; destruct Hc; reflexivity).
  rewrite andb_false_r. reflexivity.
Qed.

Lemma deliver_rejects captured ratios :
  captured <> processing -> forall mach, deliver captured ratios mach = (mach, Some tt).
Proof.
  intros Hc. induction ratios as [|ratio ratios IH]; intros mach; [reflexivity|].
  cbn [deliver]. rewrite (progress_rejects _ _ Hc).
  unfold mbind, M_bind, mret, M_ret. apply IH.
Qed.

Lemma keeps_get_engine :
  triple (fun _ => True) get_engine
    (fun e _ => progress_status e <> processing) (fun _ => True) progress_idle.
Proof.
  unfold get_engine. eapply triple_bind.
  - apply triple_get with (Q := fun a s => a = s /\ progress_idle s). auto.
  - intros s. destruct (ffmpegRef s) as [e|] eqn:Hs.
    + apply triple_ret. intros s' [<- [_ He]] _. apply He, Hs.
    + apply triple_throw. auto.
Qed.

Lemma keeps_get_engine_bind {B} (f : Engine -> M B) :
  (forall e, progress_status e <> processing -> keeps (f e)) ->
  keeps (get_engine ≫= f).
Proof.
  intros Hf. eapply triple_bind; [apply keeps_get_engine|].
  intros e mach Hc. apply (Hf e Hc mach I).
Qed.

Lemma keeps_if {A} (b : bool) (m1 m2 : M A) :
  keeps m1 -> keeps m2 -> keeps (if b then m1 else m2).
Proof. destruct b; auto. Qed.

Lemma keeps_try_catch {A} (body handler : M A) :
  keeps body -> keeps handler -> keeps (try_catch body handler).
Proof. intros Hb Hh. eapply triple_try_catch; [exact Hb | exact Hh]. Qed.

Create HintDb keeps.
#[global] Hint Resolve keeps_ret keeps_throw keeps_get keeps_setStatus
  keeps_setProgressMessage keeps_setError keeps_setSplitFiles
  keeps_setProgressRatio_0 keeps_update_area : keeps.

(** Splits a sequence of steps into its steps. *)
Ltac keeps_steps :=
  repeat first
    [ solve [auto with keeps]
    | lazymatch goal with
      | |- keeps (get_engine ≫= _) => apply keeps_get_engine_bind; intros ? ?
      | |- keeps (_ ≫= _) => apply keeps_bind; [|intros ?]
      | |- keeps (if _ then _ else _) => apply keeps_if
      | |- keeps (try_catch _ _) => apply keeps_try_catch
      end ].

Lemma keeps_FS_writeFile name data : keeps (FS_writeFile name data).
Proof. apply keeps_update_area. Qed.

Lemma keeps_FS_readdir : keeps FS_readdir.
Proof. unfold FS_readdir. keeps_steps. Qed.

Lemma keeps_FS_readFile name : keeps (FS_readFile name).
Proof. unfold FS_readFile. keeps_steps. repeat case_match; auto with keeps. Qed.

Lemma keeps_FS_unlink name : keeps (FS_unlink name).
Proof. unfold FS_unlink. keeps_steps. repeat case_match; auto with keeps. Qed.

#[global] Hint Resolve keeps_FS_writeFile keeps_FS_readdir keeps_FS_readFile
  keeps_FS_unlink : keeps.

Lemma keeps_read_blobs type names : keeps (read_blobs type names).
Proof. induction names; cbn [read_blobs]; keeps_steps. Qed.

Lemma keeps_unlink_all names : keeps (unlink_all names).
Proof. induction names; cbn [unlink_all]; keeps_steps. Qed.

Lemma keeps_deliver captured ratios :
  captured <> processing -> keeps (deliver captured ratios).
Proof.
  intros Hc mach _ HI. rewrite (deliver_rejects _ _ Hc). split; [exact HI | exact I].
Qed.

Lemma keeps_ffmpeg_run env args : keeps (ffmpeg_run env args).
Proof.
  unfold ffmpeg_run. keeps_steps. apply keeps_deliver. assumption.
Qed.

#[global] Hint Resolve keeps_read_blobs keeps_unlink_all keeps_ffmpeg_run : keeps.

(** Loading the engine from a render whose status is not [processing]. *)
Lemma keeps_loadFFmpeg snapshot env :
  status snapshot <> processing -> keeps (loadFFmpeg snapshot env).
Proof.
  intros Hsnap. unfold loadFFmpeg. keeps_steps.
  destruct (ffmpegRef _); keeps_steps.
  destruct (load env) as [area|]; keeps_steps.
  apply keeps_update. intros s [H0 _]. split; [exact H0|].
  cbn. intros e [= <-]. exact Hsnap.
Qed.

Lemma keeps_handleSplit_try snapshot f env :
  status snapshot <> processing -> keeps (handleSplit_try snapshot f env).
Proof.
  intros Hsnap. unfold handleSplit_try. keeps_steps.
  all: try solve [apply keeps_loadFFmpeg, Hsnap].
  all: try solve [destruct (fetch env); keeps_steps].
  case_match; keeps_steps.
Qed.

(** *** Every handler, from a state between two jobs *)

(** Runs the steps before the last one, which only have to keep
    [progress_idle]. *)
Ltac before_last :=
  repeat lazymatch goal with
    | |- triple _ (_ ≫= _) _ _ _ =>
        eapply triple_bind with (R := fun _ _ => True);
        [ lazymatch goal with |- triple _ ?m _ _ _ => change (keeps m) end
        | intros ? ]
    end.

Lemma handleSplit_try_done snapshot f env :
  status snapshot <> processing ->
  triple (fun _ => True) (handleSplit_try snapshot f env)
    (fun _ s => status s = done) (fun _ => True) progress_idle.
Proof.
  intros Hsnap. unfold handleSplit_try. before_last.
  all: try (apply triple_update; intros s _ HI; split; [|reflexivity];
            revert s HI; apply progress_idle_other; reflexivity).
  all: keeps_steps.
  all: try solve [apply keeps_loadFFmpeg, Hsnap].
  all: try solve [destruct (fetch env); keeps_steps].
  case_match; keeps_steps.
Qed.

Lemma handleSplit_from snapshot env :
  status snapshot <> processing ->
  triple (fun s => s = snapshot)
    match file snapshot with
    | None => setError (Some ErrNoFile)
    | Some f =>
        if Qle_bool (splitDuration snapshot) 0 then setError (Some ErrDuration)
        else
          setError None;;
          setSplitFiles [];;
          try_catch (handleSplit_try snapshot f env)
            (setError (Some ErrProcessing);; setStatus idle)
    end
    (fun _ s => status s <> processing) (fun _ => False) progress_idle.
Proof.
  intros Hsnap.
  assert (Hreject : forall msg,
            triple (fun s => s = snapshot) (setError (Some msg))
              (fun _ s => status s <> processing) (fun _ => False) progress_idle).
  { intros msg. apply triple_update. intros s -> HI. split; [|exact Hsnap].
    revert HI. apply progress_idle_other; reflexivity. }
  destruct (file snapshot) as [f|]; [|apply Hreject].
  destruct (Qle_bool (splitDuration snapshot) 0); [apply Hreject|].
  eapply triple_bind with (R := fun _ _ => True).
  { apply triple_update. intros s _ HI. split; [|exact I].
    revert HI. apply progress_idle_other; reflexivity. }
  intros _. eapply triple_bind with (R := fun _ _ => True).
  { apply triple_update. intros s _ HI. split; [|exact I].
    revert HI. apply progress_idle_other; reflexivity. }
  intros _. eapply triple_try_catch with (E' := fun _ => True).
  - eapply triple_weaken; [| | |apply (handleSplit_try_done snapshot f env Hsnap)];
      cbn; [auto | intros _ s ->; discriminate | auto].
  - eapply triple_bind with (R := fun _ _ => True).
    { apply triple_update. intros s _ HI. split; [|exact I].
      revert HI. apply progress_idle_other; reflexivity. }
    intros _. apply triple_update. intros s _ HI. split; [|discriminate].
    revert HI. apply progress_idle_other; reflexivity.
Qed.

(** Between two jobs the status is not [processing]; every handler keeps
    it so, and keeps [progress_idle] of every state it goes through. *)
Lemma handler_between_jobs (e : Event) :
  triple (fun s => status s <> processing) (handler e)
    (fun _ s => status s <> processing) (fun _ => False) progress_idle.
Proof.
  destruct e as [selected|minutes|env| |ratio]; cbn [handler].
  - unfold handleFileSelect.
    do 3 (eapply triple_bind with (R := fun _ _ => True);
          [apply triple_update; intros s _ HI; split; [|exact I];
           revert HI; apply progress_idle_other; reflexivity | intros _]).
    apply triple_update. intros s _ HI. split; [|discriminate].
    revert HI. apply progress_idle_other; reflexivity.
  - apply triple_update. intros s Hst HI. split; [|exact Hst].
    revert HI. apply progress_idle_other; reflexivity.
  - unfold handleSplit.
    eapply triple_bind with (R := fun a s => s = a /\ status a <> processing).
    { apply triple_get. auto. }
    intros snapshot mach [Hcur Hsnap] HI.
    apply (handleSplit_from snapshot env Hsnap mach Hcur HI).
  - unfold handleReset, handleFileSelect.
    do 3 (eapply triple_bind with (R := fun _ _ => True);
          [apply triple_update; intros s _ HI; split; [|exact I];
           revert HI; apply progress_idle_other; reflexivity | intros _]).
    apply triple_update. intros s _ HI. split; [|discriminate].
    revert HI. apply progress_idle_other; reflexivity.
  - eapply triple_bind
      with (R := fun a s => s = a /\ status a <> processing /\ progress_idle a).
    { apply triple_get. auto. }
    intros s0. destruct (ffmpegRef s0) as [e|] eqn:He.
    + intros mach (Hcur & Hst & HI0) HI.
      rewrite (progress_rejects _ ratio (proj2 HI0 e He)).
      split; [exact HI | cbn; rewrite Hcur; exact Hst].
    + apply triple_ret. intros s (-> & Hst & _) _. exact Hst.
Qed.

Lemma initial_between_jobs : progress_idle initial /\ status initial <> processing.
Proof. repeat split; [intros e [=] | discriminate]. Qed.

Lemma exec_from (m : M unit) (s : State) (P : State -> Prop) Q E I :
  triple P m Q E I -> P s -> I s ->
  Forall I (trace m s)
  /\ match (m {| cur := s; past := [] |}).2 with
     | Some a => Q a (final m s)
     | None => E (final m s)
     end.
Proof.
  intros Hm HP HI.
  destruct (Hm {| cur := s; past := [] |} HP ltac:(repeat constructor; exact HI))
    as [Htr Hres].
  split; [|exact Hres]. unfold trace, exec. apply Forall_rev. exact Htr.
Qed.

Lemma reachable_between_jobs (s : State) :
  reachable s -> progress_idle s /\ status s <> processing.
Proof.
  induction 1 as [|e s Hs [HI Hst]]; [apply initial_between_jobs|].
  destruct (exec_from _ s _ _ _ _ (handler_between_jobs e) Hst HI) as [Htr Hres].
  cbn in Hres. split; [|destruct ((handler e _).2); [exact Hres | destruct Hres]].
  apply Forall_rev in Htr. unfold trace in Htr. rewrite rev_involutive in Htr.
  exact (Forall_inv Htr).
Qed.

End Job.

(** ** The batch splitter: validation, progress, results *)

Section Batch.
Import JS Splitter Design Job.

Lemma reachable_trace_idle (s : State) (e : Event) :
  reachable s -> Forall progress_idle (trace (handler e) s).
Proof.
  intros Hs. destruct (reachable_between_jobs s Hs) as [HI Hst].
  apply (exec_from _ s _ _ _ _ (handler_between_jobs e) Hst HI).
Qed.

Lemma lookup_Forall {A : Type} (P : A -> Prop) (l : list A) (i : nat) (x : A) :
  Forall P l -> l !! i = Some x -> P x.
Proof. intros HP Hx. exact (proj1 (Forall_lookup P l) HP i x Hx). Qed.

(** C5. Along every handler run from a state the component can be in
    (in particular along every job, with whatever ratios the engine
    reports), the published [progressRatio] lies in [0,1] and never
    decreases, and an engine callback arriving at any of these states
    changes it only if the status there is [processing].  All three hold
    because the callback's guard reads the [status] captured when the
    engine was created, which is never [processing]: the value stays 0. *)
Theorem progress_ratio_published (s : State) (e : Event) :
  reachable s ->
  Forall (fun s' => (0 <= progressRatio s' <= 1)%Z) (trace (handler e) s)
  /\ nondecreasing (map progressRatio (trace (handler e) s))
  /\ forall s' ratio,
       s' ∈ trace (handler e) s ->
       progressRatio (final (handler (EngineProgress ratio)) s') <> progressRatio s' ->
       status s' = processing.
Proof.
  intros Hs. pose proof (reachable_trace_idle s e Hs) as Hidle.
  split; [|split].
  - eapply Forall_impl; [exact Hidle|]. intros s' [H0 _]. rewrite H0. lia.
  - intros i x y Hx Hy. rewrite list_lookup_fmap in Hx, Hy.
    destruct (trace (handler e) s !! i) as [sx|] eqn:Hsx; [|discriminate].
    destruct (trace (handler e) s !! S i) as [sy|] eqn:Hsy; [|discriminate].
    injection Hx as <-. injection Hy as <-.
    destruct (lookup_Forall _ _ _ _ Hidle Hsx) as [-> _].
    destruct (lookup_Forall _ _ _ _ Hidle Hsy) as [-> _]. lia.
  - intros s' ratio Hin Hchange. exfalso. apply Hchange.
    apply list_elem_of_lookup in Hin as [i Hi].
    destruct (lookup_Forall _ _ _ _ Hidle Hi) as [H0 He].
    unfold final, exec. cbn [handler]. unfold mbind, M_bind, get. cbn [cur fst].
    destruct (ffmpegRef s') as [eng|] eqn:Heng; [|reflexivity].
    rewrite (progress_rejects _ ratio (He eng eq_refl)). reflexivity.
Qed.

Lemma progress_ratio_published_witness :
  Forall (fun s' => (0 <= progressRatio s' <= 1)%Z)
    (trace (handler (Split (job_with (writes_outputs 12)))) talk_selected)
  /\ nondecreasing
       (map progressRatio
          (trace (handler (Split (job_with (writes_outputs 12)))) talk_selected))
  /\ forall s' ratio,
       s' ∈ trace (handler (Split (job_with (writes_outputs 12)))) talk_selected ->
       progressRatio (final (handler (EngineProgress ratio)) s') <> progressRatio s' ->
       status s' = processing.
Proof.
  apply (progress_ratio_published talk_selected
           (Split (job_with (writes_outputs 12)))).
  apply reachable_step, reachable_initial.
Defined.

(** What the callback would publish, had its closure the status
    [processing]: a percentage, not a ratio. *)
Lemma progress_publishes_percent :
  progressRatio (final (progress processing (1 # 2)) initial) = 50%Z.
Proof. reflexivity. Qed.

(** C9. A request without a file, or with a duration that is not
    positive, is rejected at once: the handler makes one state update,
    which sets the error message, whatever the engine would do; the
    message is the one about the missing file when no file is selected,
    and the one about the duration otherwise.  The status, the results and
    the engine with its working area stay as they were. *)
Theorem invalid_request_rejected (env : JobEnv) (s : State) :
  file s = None \/ (splitDuration s <= 0)%Q ->
  let msg := match file s with
             | None => ErrNoFile
             | Some _ => ErrDuration
             end in
  trace (handleSplit env) s = [s; set_error (Some msg) s]
  /\ final (handleSplit env) s = set_error (Some msg) s
  /\ error (final (handleSplit env) s) = Some msg
  /\ status (final (handleSplit env) s) = status s
  /\ splitFiles (final (handleSplit env) s) = splitFiles s
  /\ ffmpegRef (final (handleSplit env) s) = ffmpegRef s.
Proof.
  intros Hbad msg.
  assert (Hrun : handleSplit env {| cur := s; past := [] |}
                 = ({| cur := set_error (Some msg) s; past := [s] |}, Some tt)).
  { subst msg. unfold handleSplit, mbind, M_bind, get. cbn [cur].
    destruct (file s) as [f|] eqn:Hf; [|reflexivity].
    destruct Hbad as [[=]|Hle]. apply Qle_bool_iff in Hle. rewrite Hle.
    reflexivity. }
  unfold trace, final, exec. rewrite Hrun. repeat split.
Qed.

Lemma invalid_request_rejected_witness :
  let s := set_splitDuration 0 talk_selected in
  let env := job_with (writes_outputs 3) in
  trace (handleSplit env) s = [s; set_error (Some ErrDuration) s]
  /\ final (handleSplit env) s = set_error (Some ErrDuration) s
  /\ error (final (handleSplit env) s) = Some ErrDuration
  /\ status (final (handleSplit env) s) = status s
  /\ splitFiles (final (handleSplit env) s) = splitFiles s
  /\ ffmpegRef (final (handleSplit env) s) = ffmpegRef s.
Proof.
  intros s env. apply (invalid_request_rejected env s).
  right. vm_compute. discriminate.
Defined.

(** C1 fails on a job whose segmentation run rejects.  The input was
    written to the working area before the run; the [catch] clause sets
    the error and the status and deletes nothing, so the input is still
    there when [handleSplit] returns. *)
Theorem rejected_run_leaves_input :
  let s := final (handleSplit (job_with rejects)) talk_selected in
  status s = idle
  /\ error s = Some ErrProcessing
  /\ (working_area <$> ffmpegRef s) ≫= (.!! "input.mp3")
     = Some (Reg [Byte.x01; Byte.x02; Byte.x03]).
Proof. vm_compute. repeat split; reflexivity. Qed.

(** *** The order of the results *)

Lemma tokens_numbered_output (b e : string) (k : nat) :
  tokens None (numbered_output (b +:+ "_") ("." +:+ e) k)
  = (tokens None (b +:+ "_") ++ TNum k :: TChr "." :: tokens None e)%list.
Proof.
  unfold numbered_output. rewrite append_assoc, !append_String, !append_Empty.
  rewrite (tokens_app_nondigit b _ "_") by reflexivity. f_equal.
  change (String "." e) with (String "." EmptyString +:+ e).
  rewrite tokens_padStart_toString. reflexivity.
Qed.

(** Two outputs of one job compare as their numbers do. *)
Lemma compare_numbered_output (b e : string) (j k : nat) :
  localeCompare_numeric (numbered_output (b +:+ "_") ("." +:+ e) j)
                        (numbered_output (b +:+ "_") ("." +:+ e) k)
  = Nat.compare j k.
Proof.
  unfold localeCompare_numeric. rewrite !tokens_numbered_output.
  rewrite tokens_compare_app. cbn [tokens_compare token_compare].
  destruct (Nat.compare j k); try reflexivity.
  cbn [tokens_compare token_compare]. rewrite Nat.compare_refl.
  apply tokens_compare_refl.
Qed.

(** Sorting commutes with a map that respects the comparators. *)
Lemma sort_insert_map {A B : Type} (f : A -> B) cmpA cmpB :
  (forall x y, cmpB (f x) (f y) = cmpA x y) ->
  forall x l, sort_insert cmpB (f x) (map f l) = map f (sort_insert cmpA x l).
Proof.
  intros Hcmp x l. induction l as [|y l IH]; [reflexivity|].
  cbn [map sort_insert]. rewrite Hcmp.
  destruct (cmpA x y); cbn [map]; rewrite ?IH; reflexivity.
Qed.

Lemma sort_map {A B : Type} (f : A -> B) cmpA cmpB :
  (forall x y, cmpB (f x) (f y) = cmpA x y) ->
  forall l, sort cmpB (map f l) = map f (sort cmpA l).
Proof.
  intros Hcmp l. unfold sort. induction l as [|x l IH]; [reflexivity|].
  cbn [map foldr]. rewrite IH. apply sort_insert_map, Hcmp.
Qed.

Lemma sort_insert_nat_perm (x : nat) (l : list nat) :
  sort_insert Nat.compare x l ≡ₚ x :: l.
Proof.
  induction l as [|y l IH]; [reflexivity|]. cbn [sort_insert].
  destruct (Nat.compare x y); try reflexivity.
  rewrite IH. apply Permutation_swap.
Qed.

Lemma sort_insert_nat_sorted (x : nat) (l : list nat) :
  StronglySorted le l -> StronglySorted le (sort_insert Nat.compare x l).
Proof.
  induction 1 as [|y l Hl IH Hy]; [repeat constructor|]. cbn [sort_insert].
  destruct (Nat.compare_spec x y) as [->|Hlt|Hgt].
  - constructor; [constructor; assumption|]. constructor; [lia | exact Hy].
  - constructor; [constructor; assumption|].
    constructor; [lia|]. eapply Forall_impl; [exact Hy|]. intros; cbn in *; lia.
  - constructor; [exact IH|].
    rewrite sort_insert_nat_perm. constructor; [lia | exact Hy].
Qed.

Lemma sort_nat_spec (l : list nat) :
  StronglySorted le (sort Nat.compare l) /\ sort Nat.compare l ≡ₚ l.
Proof.
  unfold sort. induction l as [|x l [IHs IHp]]; [split; [constructor | reflexivity]|].
  cbn [foldr]. split.
  - apply sort_insert_nat_sorted, IHs.
  - rewrite sort_insert_nat_perm, IHp. reflexivity.
Qed.

(** Files named as the outputs of one job are sorted by their numbers. *)
Lemma sort_numbered_outputs (b e : string) (ks : list nat) (blobs : list SplitFile) :
  map name blobs = map (numbered_output (b +:+ "_") ("." +:+ e)) ks ->
  map name (sort by_name_numeric blobs)
  = map (numbered_output (b +:+ "_") ("." +:+ e)) (sort Nat.compare ks).
Proof.
  intros Hnames.
  rewrite <- (sort_map (numbered_output (b +:+ "_") ("." +:+ e))
                Nat.compare localeCompare_numeric)
    by (intros; apply compare_numbered_output).
  rewrite <- Hnames. symmetry. apply sort_map. reflexivity.
Qed.

(** *** A job that goes through *)

Lemma triple_pre {A} (m : M A) (P P' : State -> Prop) Q E I :
  (forall s, P' s -> P s) -> triple P m Q E I -> triple P' m Q E I.
Proof. intros HP. apply triple_weaken; auto. Qed.

Lemma triple_false {A} (m : M A) Q E I : triple (fun _ => False) m Q E I.
Proof. intros mach []. Qed.

Lemma triple_seq {A} (m : M unit) (k : M A) (P R : State -> Prop) Q E I :
  triple P m (fun _ => R) E I -> triple R k Q E I -> triple P (m;; k) Q E I.
Proof. intros Hm Hk. eapply triple_bind; [exact Hm | intros a; exact Hk]. Qed.

Lemma triple_update_to (f : State -> State) (P R : State -> Prop) E :
  (forall s, P s -> R (f s)) ->
  triple P (update f) (fun _ => R) E (fun _ => True).
Proof. intros Hf. apply triple_update. auto. Qed.

Lemma deliver_keeps (P : State -> Prop) captured ratios E :
  (forall v s, P s -> P (set_progressRatio v s)) ->
  triple P (deliver captured ratios) (fun _ => P) E (fun _ => True).
Proof.
  intros HP. induction ratios as [|ratio ratios IH]; cbn [deliver].
  - apply triple_ret. auto.
  - apply triple_seq with (R := P); [|exact IH].
    unfold progress. destruct (_ && _).
    + apply triple_update_to. auto.
    + apply triple_ret. auto.
Qed.

Lemma get_engine_area a (P : State -> Prop) E :
  (forall s, P s -> has_area a s) ->
  triple P get_engine (fun e s => P s /\ ffmpegRef s = Some e /\ working_area e = a)
    E (fun _ => True).
Proof.
  intros HP. unfold get_engine.
  eapply triple_bind with (R := fun s0 s => s = s0 /\ P s0).
  { apply triple_get. auto. }
  intros s0. destruct (ffmpegRef s0) as [e|] eqn:He.
  - apply triple_ret. intros s [-> Hs] _.
    destruct (HP _ Hs) as (e' & He' & Ha). rewrite He in He'.
    injection He' as <-. auto.
  - apply triple_pre with (P := fun _ => False); [|apply triple_false].
    intros s [-> Hs]. destruct (HP _ Hs) as (e' & He' & _). congruence.
Qed.

(** Reading files that are all there returns them, in the order asked. *)
Lemma read_blobs_all a type names mach :
  has_area a (cur mach) ->
  (forall n, n ∈ names -> exists data, a !! n = Some (Reg data)) ->
  exists blobs,
    read_blobs type names mach = (mach, Some blobs) /\ map name blobs = names.
Proof.
  intros (e & He & <-) Hall. induction names as [|n names IH].
  - exists []. split; reflexivity.
  - destruct IH as (blobs & Hread & Hnames);
      [intros n' Hn'; apply Hall; right; exact Hn'|].
    destruct (Hall n ltac:(left)) as [data Hdata].
    exists ({| name := n; blob := {| blob_bytes := data; blob_type := type |} |}
            :: blobs).
    split; [|cbn [map name]; rewrite Hnames; reflexivity].
    cbn [read_blobs]. unfold FS_readFile, get_engine, mbind, M_bind, get.
    cbn beta iota. rewrite He. unfold mret, M_ret. cbn beta iota.
    rewrite Hdata. cbn beta iota. rewrite Hread. reflexivity.
Qed.

Lemma keeps_results_update f :
  (forall s, splitFiles (f s) = splitFiles s) -> keeps_results (update f).
Proof.
  intros Hf R. apply triple_update. intros s Hs _. rewrite Hf. auto.
Qed.

Lemma keeps_results_update_area f : keeps_results (update_area f).
Proof. apply keeps_results_update. intros s. destruct (ffmpegRef s); reflexivity. Qed.

Lemma keeps_results_bind {A B} (m : M A) (k : A -> M B) :
  keeps_results m -> (forall a, keeps_results (k a)) -> keeps_results (m ≫= k).
Proof. intros Hm Hk R. eapply triple_bind; [apply Hm | intros a; apply Hk]. Qed.

Lemma keeps_results_FS_unlink n : keeps_results (FS_unlink n).
Proof.
  unfold FS_unlink, get_engine. apply keeps_results_bind.
  - apply keeps_results_bind.
    + intros R. apply triple_get. auto.
    + intros s R. destruct (ffmpegRef s); [apply triple_ret | apply triple_throw]; auto.
  - intros e. repeat case_match;
      try (intros R; apply triple_throw; auto); apply keeps_results_update_area.
Qed.

Lemma keeps_results_unlink_all names : keeps_results (unlink_all names).
Proof.
  induction names as [|n names IH]; cbn [unlink_all].
  - intros R. apply triple_ret. auto.
  - apply keeps_results_bind; [apply keeps_results_FS_unlink | intros _; exact IH].
Qed.

Lemma triple_and {A} (m : M A) (P P' : State -> Prop) Q Q' E E' :
  triple P m Q E (fun _ => True) -> triple P' m Q' E' (fun _ => True) ->
  triple (fun s => P s /\ P' s) m (fun a s => Q a s /\ Q' a s)
    (fun s => E s /\ E' s) (fun _ => True).
Proof.
  intros H1 H2 mach [HP HP'] HI.
  destruct (H1 mach HP HI) as [HI1 HR1]. destruct (H2 mach HP' HI) as [_ HR2].
  split; [exact HI1|]. destruct ((m mach).2); auto.
Qed.

(** Unlinking removes the name and brings no name back. *)
Lemma FS_unlink_absent (n : string) (names : list string) :
  triple (absent names) (FS_unlink n) (fun _ => absent (n :: names))
    (fun _ => True) (fun _ => True).
Proof.
  unfold FS_unlink.
  eapply triple_bind with (R := fun e s => absent names s /\ ffmpegRef s = Some e).
  { unfold get_engine.
    eapply triple_bind with (R := fun s0 s => s = s0 /\ absent names s0).
    { apply triple_get. auto. }
    intros s0. destruct (ffmpegRef s0) as [e|] eqn:He.
    - apply triple_ret. intros s [-> Hs] _. auto.
    - apply triple_throw. auto. }
  intros e. destruct (working_area e !! n) as [[|data]|];
    try (apply triple_throw; auto).
  apply triple_update_to. intros s [Habs He] e' n'. rewrite He.
  intros [= <-] Hn'. cbn [working_area]. apply lookup_delete_None.
  apply elem_of_cons in Hn' as [->|Hn']; [left; reflexivity | right].
  exact (Habs e n' He Hn').
Qed.

Lemma unlink_all_absent (names : list string) :
  forall done_names,
    triple (absent done_names) (unlink_all names)
      (fun _ => absent (rev names ++ done_names)) (fun _ => True) (fun _ => True).
Proof.
  induction names as [|n names IH]; intros done_names; cbn [unlink_all].
  - apply triple_ret. auto.
  - eapply triple_seq; [apply FS_unlink_absent|].
    cbn [rev]. rewrite <- app_assoc. apply IH.
Qed.

Section Successful.
Variables (env : JobEnv) (snapshot : State) (f : File).
Variables (area : gmap string Node) (ks : list nat).

Let input := "input." +:+ originalExtension f.
Let r := run env (job_args snapshot f) (<[input := Reg (file_bytes f)]> area).
Let output := numbered_output (baseName f +:+ "_") ("." +:+ originalExtension f).

Hypothesis Hengine : engine_area env snapshot = Some area.
Hypothesis Hfetch : fetchFile_rejects env = false.
Hypothesis Hrun : run_rejects r = false.
Hypothesis Hlisted :
  List.filter (fun n => startsWith n (baseName f))
    ("." :: ".." :: map fst (map_to_list (run_area r)))
  = map output ks.
Hypothesis Hfiles :
  forall k, k ∈ ks -> exists data, run_area r !! output k = Some (Reg data).

(** What holds of the results once they are set, and until the job ends. *)
Let sorted_results (s : State) : Prop :=
  map name (splitFiles s) = map output (sort Nat.compare ks).

Let working (a : gmap string Node) (s : State) : Prop :=
  has_area a s /\ splitFiles s = [].

(** What holds when the job ends with the status [done]. *)
Let cleaned (s : State) : Prop :=
  status s = done /\ absent (rev (map output ks) ++ [input]) s.

Lemma loadFFmpeg_area :
  triple (fun s => ffmpegRef s = ffmpegRef snapshot /\ splitFiles s = [])
    (loadFFmpeg snapshot env) (fun _ => working area) sorted_results
    (fun _ => True).
Proof.
  unfold loadFFmpeg.
  eapply triple_bind
    with (R := fun a s => s = a /\ ffmpegRef a = ffmpegRef snapshot
                          /\ splitFiles a = []).
  { apply triple_get. intros s [? ?] _. auto. }
  intros s0. unfold engine_area in Hengine.
  destruct (ffmpegRef s0) as [e|] eqn:He.
  - apply triple_ret. intros s (-> & Href & Hsf) _.
    rewrite <- Href in Hengine. injection Hengine as <-.
    split; [exists e; auto | exact Hsf].
  - apply triple_pre
      with (P := fun s => ffmpegRef snapshot = None /\ splitFiles s = []);
      [intros s (-> & Href & Hsf); split; [congruence | exact Hsf]|].
    apply triple_seq with (R := fun s => ffmpegRef snapshot = None /\ splitFiles s = []);
      [apply triple_update_to; auto|].
    apply triple_seq with (R := fun s => ffmpegRef snapshot = None /\ splitFiles s = []);
      [apply triple_update_to; auto|].
    intros mach [Hnone Hsf]. revert mach Hsf. rewrite Hnone in Hengine.
    destruct (checkFFmpeg env 50 0); [|discriminate]. rewrite Hengine.
    intros mach Hsf. revert mach Hsf.
    change (triple (fun s => splitFiles s = [])
              (mret tt;; setProgressMessage LoadingCore;;
               try_catch
                 (update (set_ffmpegRef
                            (Some {| progress_status := status snapshot;
                                     working_area := area |})))
                 (setError (Some ErrEngineLoad);; setStatus idle;; throw))
              (fun _ => working area) sorted_results (fun _ => True)).
    apply triple_seq with (R := fun s => splitFiles s = []);
      [apply triple_ret; auto|].
    apply triple_seq with (R := fun s => splitFiles s = []);
      [apply triple_update_to; auto|].
    eapply triple_try_catch; [|apply triple_false].
    apply triple_update_to. intros s Hsf. split; [|exact Hsf].
    eexists. split; reflexivity.
Qed.

Lemma working_update (g : State -> State) (a : gmap string Node) E :
  (forall s, ffmpegRef (g s) = ffmpegRef s) ->
  (forall s, splitFiles (g s) = splitFiles s) ->
  triple (working a) (update g) (fun _ => working a) E (fun _ => True).
Proof.
  intros Hg1 Hg2. apply triple_update_to. intros s [Hs1 Hs2].
  split; [unfold has_area; rewrite Hg1; exact Hs1 | rewrite Hg2; exact Hs2].
Qed.

Lemma working_update_area (g : gmap string Node -> gmap string Node) a E :
  triple (working a) (update_area g) (fun _ => working (g a)) E (fun _ => True).
Proof.
  apply triple_update_to. intros s [(e & He & <-) Hsf]. rewrite He.
  split; [eexists; split; reflexivity | exact Hsf].
Qed.

Lemma ffmpeg_run_area :
  triple (working (<[input := Reg (file_bytes f)]> area))
    (ffmpeg_run env (job_args snapshot f))
    (fun _ => working (run_area r)) sorted_results (fun _ => True).
Proof.
  unfold ffmpeg_run.
  eapply triple_bind;
    [apply (get_engine_area (<[input := Reg (file_bytes f)]> area));
     intros s [Hs _]; exact Hs|].
  intros e.
  apply triple_pre
    with (P := fun s => working_area e = <[input := Reg (file_bytes f)]> area
                        /\ working (<[input := Reg (file_bytes f)]> area) s);
    [intros s (Hs & _ & He); auto|].
  intros mach [He Hw]. revert mach Hw. rewrite He. fold r.
  change (triple (working (<[input := Reg (file_bytes f)]> area))
            (deliver (progress_status e) (run_progress r);;
             update_area (fun _ => run_area r);;
             (if run_rejects r then throw else mret tt))
            (fun _ => working (run_area r)) sorted_results (fun _ => True)).
  rewrite Hrun.
  eapply triple_seq.
  { apply deliver_keeps. intros v s [(e' & He' & Ha) Hsf].
    split; [exists e'; auto | exact Hsf]. }
  eapply triple_seq; [apply working_update_area|].
  apply triple_ret. auto.
Qed.

Lemma FS_readdir_area a (E : State -> Prop) :
  triple (working a) FS_readdir
    (fun entries s =>
       entries = "." :: ".." :: map fst (map_to_list a) /\ working a s)
    E (fun _ => True).
Proof.
  unfold FS_readdir.
  eapply triple_bind; [apply (get_engine_area a); intros s [Hs _]; exact Hs|].
  intros e. apply triple_ret. intros s (Hw & _ & <-) _. auto.
Qed.

Lemma cleanup_done :
  triple (fun _ => True)
    (FS_unlink input;; unlink_all (map output ks);; setStatus done)
    (fun _ => cleaned) (fun _ => True) (fun _ => True).
Proof.
  apply triple_pre with (P := absent []);
    [intros s _ e n _ Hn; inversion Hn|].
  eapply triple_seq; [apply FS_unlink_absent|].
  eapply triple_seq; [apply unlink_all_absent|].
  apply triple_update_to. intros s Habs. split; [reflexivity | exact Habs].
Qed.

Lemma results_set_and_kept :
  triple (working (run_area r))
    (match map output ks with
     | [] => setError (Some ErrNoOutput)
     | _ :: _ =>
         blobs ← read_blobs (file_type f) (map output ks);
         setSplitFiles (sort by_name_numeric blobs)
     end;;
     FS_unlink input;;
     unlink_all (map output ks);;
     setStatus done)
    (fun _ s => sorted_results s /\ cleaned s) sorted_results (fun _ => True).
Proof.
  eapply triple_seq with (R := sorted_results).
  - destruct (map output ks) as [|n names] eqn:Hout.
    + apply triple_update_to. intros s [_ Hsf]. unfold sorted_results.
      change (splitFiles (set_error (Some ErrNoOutput) s)) with (splitFiles s).
      rewrite Hsf. destruct ks; [reflexivity | discriminate].
    + rewrite <- Hout. intros mach [Hw Hsf] HI.
      destruct (read_blobs_all (run_area r) (file_type f) (map output ks) mach Hw)
        as (blobs & Hread & Hnames).
      { intros n' Hn'. apply list_elem_of_fmap in Hn' as (k & -> & Hk).
        apply Hfiles, Hk. }
      unfold mbind, M_bind. rewrite Hread. cbn.
      split; [constructor; [exact I | exact HI]|].
      unfold sorted_results, output. apply sort_numbered_outputs, Hnames.
  - pose proof (keeps_results_FS_unlink input) as H1.
    pose proof (keeps_results_unlink_all (map output ks)) as H2.
    assert (H3 : keeps_results (setStatus done))
      by (apply keeps_results_update; reflexivity).
    pose proof (keeps_results_bind _ _ H1
                  (fun _ => keeps_results_bind _ _ H2 (fun _ => H3))
                  (fun sf => map name sf = map output (sort Nat.compare ks)))
      as Hkept.
    eapply triple_weaken; [| | |exact (triple_and _ _ _ _ _ _ _ Hkept cleanup_done)];
      cbn beta; [auto | auto | intros s [Hs _]; exact Hs].
Qed.

Lemma handleSplit_try_sorted :
  triple (fun s => ffmpegRef s = ffmpegRef snapshot /\ splitFiles s = [])
    (handleSplit_try snapshot f env)
    (fun _ s => sorted_results s /\ cleaned s) sorted_results (fun _ => True).
Proof.
  unfold handleSplit_try.
  assert (Hresolved : fetch env = fetchFile_resolved)
    by (unfold fetchFile_rejects in Hfetch; destruct (fetch env); congruence).
  rewrite Hresolved.
  eapply triple_seq; [apply loadFFmpeg_area|].
  eapply triple_seq; [apply triple_ret; intros s Hs _; exact Hs|].
  eapply triple_seq; [apply working_update; reflexivity|].
  eapply triple_seq; [apply working_update; reflexivity|].
  eapply triple_seq; [apply working_update; reflexivity|].
  cbv zeta.
  eapply triple_seq; [apply triple_ret; intros s Hs _; exact Hs|].
  eapply triple_seq; [apply working_update_area|].
  eapply triple_seq; [apply working_update; reflexivity|].
  eapply triple_seq; [apply ffmpeg_run_area|].
  eapply triple_seq; [apply working_update; reflexivity|].
  eapply triple_bind; [apply FS_readdir_area|].
  intros entries.
  apply triple_pre
    with (P := fun s => entries = "." :: ".." :: map fst (map_to_list (run_area r))
                        /\ working (run_area r) s); [auto|].
  intros mach [-> Hw]. revert mach Hw. rewrite Hlisted.
  apply results_set_and_kept.
Qed.

Hypothesis Hfile : file snapshot = Some f.
Hypothesis Hduration : (0 < splitDuration snapshot)%Q.

(** The whole handler: the results are sorted, and the job ends with the
    working area cleaned and the status [done], or with the status
    [idle]. *)
Lemma handleSplit_sorted :
  triple (fun s => s = snapshot) (handleSplit env)
    (fun _ s => sorted_results s /\ (cleaned s \/ status s = idle))
    (fun _ => False) (fun _ => True).
Proof.
  unfold handleSplit.
  eapply triple_bind with (R := fun a s => s = a /\ a = snapshot).
  { apply triple_get. auto. }
  intros snapshot'.
  apply triple_pre with (P := fun s => snapshot' = snapshot /\ s = snapshot);
    [intros s [-> ->]; auto|].
  intros mach [-> Hcur]. revert mach Hcur. rewrite Hfile.
  replace (Qle_bool (splitDuration snapshot) 0) with false.
  2:{ symmetry. apply not_true_is_false. intros Hle.
      apply Qle_bool_iff in Hle. exact (Qle_not_lt _ _ Hle Hduration). }
  change (triple (fun s => s = snapshot)
            (setError None;; setSplitFiles [];;
             try_catch (handleSplit_try snapshot f env)
               (setError (Some ErrProcessing);; setStatus idle))
            (fun _ s => sorted_results s /\ (cleaned s \/ status s = idle))
            (fun _ => False) (fun _ => True)).
  eapply triple_seq with (R := fun s => ffmpegRef s = ffmpegRef snapshot).
  { apply triple_update_to. intros s ->. reflexivity. }
  eapply triple_seq
    with (R := fun s => ffmpegRef s = ffmpegRef snapshot /\ splitFiles s = []).
  { apply triple_update_to. intros s Hs. split; [exact Hs | reflexivity]. }
  eapply triple_try_catch with (E' := sorted_results).
  - eapply triple_weaken; [| | |apply handleSplit_try_sorted];
      cbn beta; [auto | intros _ s [Hs Hc]; auto | auto].
  - eapply triple_seq with (R := sorted_results);
      apply triple_update_to; intros s Hs; [exact Hs|].
    split; [exact Hs | right; reflexivity].
Qed.

End Successful.

(** C8. In a job that goes through (the engine is there or loads, the
    file is fetched, the run resolves) and whose results are the files
    [base_NNN.ext] numbered by [ks] (in whatever order the working area
    lists them), the published results are these files in ascending order
    of their numbers, compared as numbers. *)
Theorem batch_results_in_numeric_order
    (env : JobEnv) (s : State) (f : File) (area : gmap string Node)
    (ks : list nat) :
  let input := "input." +:+ originalExtension f in
  let r := run env (job_args s f) (<[input := Reg (file_bytes f)]> area) in
  let output := numbered_output (baseName f +:+ "_") ("." +:+ originalExtension f) in
  file s = Some f ->
  (0 < splitDuration s)%Q ->
  engine_area env s = Some area ->
  fetchFile_rejects env = false ->
  run_rejects r = false ->
  List.filter (fun n => startsWith n (baseName f))
    ("." :: ".." :: map fst (map_to_list (run_area r)))
  = map output ks ->
  (forall k, k ∈ ks -> exists data, run_area r !! output k = Some (Reg data)) ->
  map name (splitFiles (final (handleSplit env) s))
  = map output (sort Nat.compare ks)
  /\ StronglySorted le (sort Nat.compare ks)
  /\ sort Nat.compare ks ≡ₚ ks.
Proof.
  intros input r output Hfile Hdur Harea Hfetch Hrun Hlisted Hfiles.
  split; [|apply sort_nat_spec].
  pose proof (handleSplit_sorted env s f area ks Harea Hfetch Hrun Hlisted Hfiles
                Hfile Hdur) as Hjob.
  destruct (exec_from _ s _ _ _ _ Hjob eq_refl I) as [_ Hres].
  destruct ((handleSplit env _).2); [exact (proj1 Hres) | destruct Hres].
Qed.

(** Under the same conditions, a job that ends with the status [done] has
    unlinked its input and every result from the working area. *)
Lemma finished_job_cleans_up
    (env : JobEnv) (s : State) (f : File) (area : gmap string Node)
    (ks : list nat) :
  let input := "input." +:+ originalExtension f in
  let r := run env (job_args s f) (<[input := Reg (file_bytes f)]> area) in
  let output := numbered_output (baseName f +:+ "_") ("." +:+ originalExtension f) in
  file s = Some f ->
  (0 < splitDuration s)%Q ->
  engine_area env s = Some area ->
  fetchFile_rejects env = false ->
  run_rejects r = false ->
  List.filter (fun n => startsWith n (baseName f))
    ("." :: ".." :: map fst (map_to_list (run_area r)))
  = map output ks ->
  (forall k, k ∈ ks -> exists data, run_area r !! output k = Some (Reg data)) ->
  status (final (handleSplit env) s) = done ->
  absent (input :: map output ks) (final (handleSplit env) s).
Proof.
  intros input r output Hfile Hdur Harea Hfetch Hrun Hlisted Hfiles Hdone.
  pose proof (handleSplit_sorted env s f area ks Harea Hfetch Hrun Hlisted Hfiles
                Hfile Hdur) as Hjob.
  destruct (exec_from _ s _ _ _ _ Hjob eq_refl I) as [_ Hres].
  destruct ((handleSplit env _).2); [|destruct Hres].
  destruct Hres as [_ [[_ Habs]|Hidle]]; [|congruence].
  intros e n He Hn. apply (Habs e n He).
  apply list_elem_of_In, in_or_app. rewrite <- in_rev.
  apply list_elem_of_In in Hn. destruct Hn as [<-|Hn];
    [right; left; reflexivity | left; exact Hn].
Qed.

Lemma batch_results_in_numeric_order_witness :
  map name (splitFiles (final (handleSplit (job_with (writes_outputs 12)))
                          talk_selected))
  = map (numbered_output "talk_" ".mp3")
      (sort Nat.compare [11; 10; 7; 3; 5; 9; 1; 6; 2; 4; 8; 0]%nat)
  /\ StronglySorted le (sort Nat.compare [11; 10; 7; 3; 5; 9; 1; 6; 2; 4; 8; 0]%nat)
  /\ sort Nat.compare [11; 10; 7; 3; 5; 9; 1; 6; 2; 4; 8; 0]%nat
     ≡ₚ [11; 10; 7; 3; 5; 9; 1; 6; 2; 4; 8; 0]%nat.
Proof.
  apply (batch_results_in_numeric_order (job_with (writes_outputs 12))
           talk_selected talk fresh_area
           [11; 10; 7; 3; 5; 9; 1; 6; 2; 4; 8; 0]%nat).
  - reflexivity.
  - vm_compute. reflexivity.
  - vm_compute. reflexivity.
  - reflexivity.
  - reflexivity.
  - vm_compute. reflexivity.
  - intros k Hk.
    repeat (apply elem_of_cons in Hk as [->|Hk];
            [eexists; vm_compute; reflexivity|]).
    inversion Hk.
Defined.

End Batch.

(** ** The outcomes of a job *)

Section JobOutcomes.
Import JS Splitter Design JobDesign Job.

Lemma triple_pure {A} (φ : Prop) (P : State -> Prop) (m : M A) Q E I :
  (φ -> triple P m Q E I) -> triple (fun s => φ /\ P s) m Q E I.
Proof. intros Hm mach [Hφ HP]. apply (Hm Hφ mach HP). Qed.

Lemma tracked_update (g : State -> State) a err sf E :
  (forall s, ffmpegRef (g s) = ffmpegRef s) ->
  (forall s, error (g s) = error s) ->
  (forall s, splitFiles (g s) = splitFiles s) ->
  triple (tracked a err sf) (update g) (fun _ => tracked a err sf) E (fun _ => True).
Proof.
  intros H1 H2 H3. apply triple_update_to. intros s (Ha & He & Hs).
  unfold tracked, has_area. rewrite H1, H2, H3. auto.
Qed.

Lemma tracked_setError v a err sf E :
  triple (tracked a err sf) (setError v) (fun _ => tracked a v sf) E (fun _ => True).
Proof. apply triple_update_to. intros s (Ha & He & Hs). repeat split; auto. Qed.

Lemma tracked_setSplitFiles v a err sf E :
  triple (tracked a err sf) (setSplitFiles v) (fun _ => tracked a err v) E
    (fun _ => True).
Proof. apply triple_update_to. intros s (Ha & He & Hs). repeat split; auto. Qed.

Lemma tracked_update_area (g : gmap string Node -> gmap string Node) a err sf E :
  triple (tracked a err sf) (update_area g) (fun _ => tracked (g a) err sf) E
    (fun _ => True).
Proof.
  apply triple_update_to. intros s ((e & He & <-) & Herr & Hsf). rewrite He.
  split; [eexists; split; reflexivity | auto].
Qed.

Lemma tracked_get_engine a err sf E :
  triple (tracked a err sf) get_engine
    (fun e s => working_area e = a /\ tracked a err sf s) E (fun _ => True).
Proof.
  eapply triple_weaken;
    [| | |apply (get_engine_area a (tracked a err sf) E); intros s [Hs _]; exact Hs];
    cbn beta; [auto | intros e s (Hs & _ & He); auto | auto].
Qed.

Lemma tracked_deliver captured ratios a err sf E :
  triple (tracked a err sf) (deliver captured ratios) (fun _ => tracked a err sf) E
    (fun _ => True).
Proof.
  apply deliver_keeps. intros v s ((e & He & Ha) & Herr & Hsf).
  split; [exists e; auto | auto].
Qed.

(** The run leaves its area; when it rejects, nothing more is known. *)
Lemma tracked_ffmpeg_run env args a err sf :
  triple (tracked a err sf) (ffmpeg_run env args)
    (fun _ s => run_rejects (run env args a) = false
                /\ tracked (run_area (run env args a)) err sf s)
    (fun _ => True) (fun _ => True).
Proof.
  unfold ffmpeg_run.
  eapply triple_bind; [apply tracked_get_engine|].
  intros e. apply triple_pure. intros ->.
  eapply triple_seq; [apply tracked_deliver|].
  eapply triple_seq; [apply tracked_update_area|].
  destruct (run_rejects _); [apply triple_throw | apply triple_ret]; auto.
Qed.

Lemma tracked_FS_readdir a err sf E :
  triple (tracked a err sf) FS_readdir
    (fun entries s =>
       entries = "." :: ".." :: map fst (map_to_list a) /\ tracked a err sf s)
    E (fun _ => True).
Proof.
  unfold FS_readdir. eapply triple_bind; [apply tracked_get_engine|].
  intros e. apply triple_ret. intros s [<- Hs] _. auto.
Qed.

Lemma tracked_FS_readFile n a err sf :
  triple (tracked a err sf) (FS_readFile n)
    (fun data s => a !! n = Some (Reg data) /\ tracked a err sf s)
    (fun _ => True) (fun _ => True).
Proof.
  unfold FS_readFile. eapply triple_bind; [apply tracked_get_engine|].
  intros e. apply triple_pure. intros ->.
  destruct (a !! n) as [[|data]|]; try (apply triple_throw; auto).
  apply triple_ret. auto.
Qed.

Lemma tracked_read_blobs type names a err sf :
  triple (tracked a err sf) (read_blobs type names)
    (fun blobs s => Forall2 (read_from a type) names blobs /\ tracked a err sf s)
    (fun _ => True) (fun _ => True).
Proof.
  induction names as [|n names IH]; cbn [read_blobs].
  - apply triple_ret. intros s Hs _. split; [constructor | exact Hs].
  - eapply triple_bind; [apply tracked_FS_readFile|].
    intros data. apply triple_pure. intros Hdata.
    eapply triple_bind; [exact IH|].
    intros blobs. apply triple_pure. intros Hblobs.
    apply triple_ret. intros s Hs _. split; [|exact Hs].
    constructor; [repeat split; exact Hdata | exact Hblobs].
Qed.

Lemma tracked_FS_unlink n a err sf :
  triple (tracked a err sf) (FS_unlink n)
    (fun _ s => (exists data, a !! n = Some (Reg data))
                /\ tracked (delete n a) err sf s)
    (fun _ => True) (fun _ => True).
Proof.
  unfold FS_unlink. eapply triple_bind; [apply tracked_get_engine|].
  intros e. apply triple_pure. intros ->.
  destruct (a !! n) as [[|data]|] eqn:Hn; try (apply triple_throw; auto).
  intros mach HP HI.
  destruct (tracked_update_area (delete n) a err sf (fun _ => True) mach HP HI)
    as [HI' HQ].
  split; [exact HI' | split; [eauto | exact HQ]].
Qed.

Lemma tracked_unlink_all names : forall a err sf,
  triple (tracked a err sf) (unlink_all names)
    (fun _ s => (forall n, n ∈ names -> exists data, a !! n = Some (Reg data))
                /\ NoDup names
                /\ tracked (foldl (fun a n => delete n a) a names) err sf s)
    (fun _ => True) (fun _ => True).
Proof.
  induction names as [|n names IH]; intros a err sf; cbn [unlink_all].
  - apply triple_ret. intros s Hs _.
    split; [intros n Hn; inversion Hn | split; [constructor | exact Hs]].
  - eapply triple_seq; [apply tracked_FS_unlink|].
    apply triple_pure. intros [data Hdata].
    eapply triple_weaken; [| | |apply (IH (delete n a) err sf)];
      cbn beta; [auto | | auto].
    intros _ s (Hall & Hnd & Hs). split; [|split; [|exact Hs]].
    + intros n' Hn'. apply elem_of_cons in Hn' as [->|Hn']; [eauto|].
      destruct (Hall n' Hn') as [data' Hdata'].
      apply lookup_delete_Some in Hdata' as [_ Hdata']. eauto.
    + constructor; [|exact Hnd]. intros Hin.
      destruct (Hall n Hin) as [data' Hdata'].
      rewrite lookup_delete_eq in Hdata'. discriminate.
Qed.

Lemma triple_exist {A X : Type} (P : X -> State -> Prop) (m : M A) Q E I :
  (forall x, triple (P x) m Q E I) -> triple (fun s => exists x, P x s) m Q E I.
Proof. intros Hm mach [x HP]. apply (Hm x mach HP). Qed.

(** [loadFFmpeg] returns with an engine whose area is [engine_area]. *)
Lemma tracked_loadFFmpeg snapshot env err sf :
  triple (fun s => ffmpegRef s = ffmpegRef snapshot /\ error s = err
                   /\ splitFiles s = sf)
    (loadFFmpeg snapshot env)
    (fun _ s => exists area,
       engine_area env snapshot = Some area /\ tracked area err sf s)
    (fun _ => True) (fun _ => True).
Proof.
  unfold loadFFmpeg.
  eapply triple_bind
    with (R := fun a s => s = a /\ ffmpegRef a = ffmpegRef snapshot
                          /\ error a = err /\ splitFiles a = sf).
  { apply triple_get. intros s (? & ? & ?) _. auto. }
  intros s0. unfold engine_area.
  destruct (ffmpegRef s0) as [e|] eqn:He.
  - apply triple_ret. intros s (-> & Href & Herr & Hsf) _.
    rewrite <- Href. exists (working_area e).
    split; [reflexivity | split; [exists e; auto | auto]].
  - apply triple_pre
      with (P := fun s => ffmpegRef snapshot = None
                          /\ (error s = err /\ splitFiles s = sf));
      [intros s (-> & Href & Herr & Hsf); split; [congruence | auto]|].
    apply triple_pure. intros ->.
    eapply triple_seq with (R := fun s => error s = err /\ splitFiles s = sf);
      [apply triple_update_to; auto|].
    eapply triple_seq with (R := fun s => error s = err /\ splitFiles s = sf);
      [apply triple_update_to; auto|].
    destruct (checkFFmpeg env 50 0).
    2:{ eapply triple_seq with (R := fun _ => False);
          [apply triple_throw; auto | apply triple_false]. }
    eapply triple_seq with (R := fun s => error s = err /\ splitFiles s = sf);
      [apply triple_ret; auto|].
    eapply triple_seq with (R := fun s => error s = err /\ splitFiles s = sf);
      [apply triple_update_to; auto|].
    eapply triple_try_catch with (E' := fun _ => True).
    + destruct (load env) as [area|]; [|apply triple_throw; auto].
      apply triple_update_to. intros s [Herr Hsf]. exists area.
      split; [reflexivity | split; [eexists; split; reflexivity | auto]].
    + eapply triple_seq with (R := fun _ => True); [apply triple_update_to; auto|].
      eapply triple_seq with (R := fun _ => True); [apply triple_update_to; auto|].
      apply triple_throw. auto.
Qed.

(** What the [try] block of [handleSplit] has done when it returns. *)
Lemma handleSplit_try_went_through snapshot f env :
  triple (fun s => ffmpegRef s = ffmpegRef snapshot /\ error s = None
                   /\ splitFiles s = [])
    (handleSplit_try snapshot f env)
    (fun _ => went_through env snapshot f) (fun _ => True) (fun _ => True).
Proof.
  unfold handleSplit_try.
  eapply triple_seq; [apply tracked_loadFFmpeg|].
  apply triple_exist. intros area. apply triple_pure. intros Hengine.
  assert (Hfetch : fetch env = fetchFile_resolved -> fetchFile_rejects env = false)
    by (unfold fetchFile_rejects; intros ->; reflexivity).
  destruct (fetch env).
  { eapply triple_seq with (R := fun _ => False);
      [apply triple_throw; auto | apply triple_false]. }
  { eapply triple_seq; [apply triple_ret; intros s Hs _; exact Hs|].
    do 3 (eapply triple_seq; [apply tracked_update; reflexivity|]).
    cbv zeta.
    eapply triple_seq with (R := fun _ => False);
      [apply triple_throw; auto | apply triple_false]. }
  specialize (Hfetch eq_refl).
  eapply triple_seq; [apply triple_ret; intros s Hs _; exact Hs|].
  do 3 (eapply triple_seq; [apply tracked_update; reflexivity|]).
  cbv zeta.
  eapply triple_seq; [apply triple_ret; intros s Hs _; exact Hs|].
  eapply triple_seq; [apply tracked_update_area|].
  eapply triple_seq; [apply tracked_update; reflexivity|].
  eapply triple_seq; [apply tracked_ffmpeg_run|].
  apply triple_pure. intros Hrun.
  eapply triple_seq; [apply tracked_update; reflexivity|].
  eapply triple_bind; [apply tracked_FS_readdir|].
  intros entries. apply triple_pure. intros ->.
  set (input := "input." +:+ originalExtension f) in *.
  set (r := run env _ (<[input := Reg (file_bytes f)]> area)) in *.
  fold (resultFiles f (run_area r)).
  set (listed := resultFiles f (run_area r)).
  eapply triple_seq
    with (R := fun s => exists blobs,
                 Forall2 (read_from (run_area r) (file_type f)) listed blobs
                 /\ tracked (run_area r)
                      (match listed with [] => Some ErrNoOutput | _ :: _ => None end)
                      (sort by_name_numeric blobs) s).
  { destruct listed as [|n names].
    - eapply triple_weaken; [| | |apply tracked_setError with (a := run_area r) (E := fun _ => True)];
        cbn beta; [intros s Hs; exact Hs | | auto].
      intros _ s Hs. exists []. split; [constructor | exact Hs].
    - eapply triple_bind; [apply tracked_read_blobs|].
      intros blobs. apply triple_pure. intros Hblobs.
      eapply triple_weaken; [| | |apply tracked_setSplitFiles with (a := run_area r) (E := fun _ => True)];
        cbn beta; [intros s Hs; exact Hs | | auto].
      intros _ s Hs. exists blobs. split; [exact Hblobs | exact Hs]. }
  apply triple_exist. intros blobs. apply triple_pure. intros Hblobs.
  eapply triple_seq; [apply tracked_FS_unlink|].
  apply triple_pure. intros Hinput.
  eapply triple_seq; [apply tracked_unlink_all|].
  apply triple_pure. intros Hall. apply triple_pure. intros Hnodup.
  apply triple_update_to. intros s (Harea & Herr & Hsf).
  exists area, blobs. cbv zeta. fold input. fold r. fold listed.
  assert (Hnot : input ∉ listed).
  { intros Hin. destruct (Hall _ Hin) as [data Hdata].
    rewrite lookup_delete_eq in Hdata. discriminate. }
  repeat split; try assumption.
  intros n Hn. apply elem_of_cons in Hn as [->|Hn]; [exact Hinput|].
  destruct (Hall n Hn) as [data Hdata].
  apply lookup_delete_Some in Hdata as [_ Hdata]. eauto.
Qed.

(** A job whose request is valid went through, or ends [idle] with the
    processing error. *)
Lemma handleSplit_job env s f :
  file s = Some f -> (0 < splitDuration s)%Q ->
  went_through env s f (final (handleSplit env) s)
  \/ (status (final (handleSplit env) s) = idle
      /\ error (final (handleSplit env) s) = Some ErrProcessing).
Proof.
  intros Hfile Hduration.
  assert (Hjob : triple (fun s' => s' = s) (handleSplit env)
                   (fun _ s' => went_through env s f s'
                                \/ (status s' = idle /\ error s' = Some ErrProcessing))
                   (fun _ => False) (fun _ => True)).
  { unfold handleSplit.
    eapply triple_bind with (R := fun a s' => s' = a /\ a = s).
    { apply triple_get. auto. }
    intros snapshot.
    apply triple_pre with (P := fun s' => snapshot = s /\ s' = s);
      [intros s' [-> ->]; auto|].
    apply triple_pure. intros ->. rewrite Hfile.
    replace (Qle_bool (splitDuration s) 0) with false.
    2:{ symmetry. apply not_true_is_false. intros Hle.
        apply Qle_bool_iff in Hle. exact (Qle_not_lt _ _ Hle Hduration). }
    eapply triple_seq with (R := fun s' => ffmpegRef s' = ffmpegRef s /\ error s' = None).
    { apply triple_update_to. intros s' ->. split; reflexivity. }
    eapply triple_seq
      with (R := fun s' => ffmpegRef s' = ffmpegRef s /\ error s' = None
                           /\ splitFiles s' = []).
    { apply triple_update_to. intros s' [? ?]. repeat split; assumption. }
    eapply triple_try_catch with (E' := fun _ => True).
    - eapply triple_weaken; [| | |apply handleSplit_try_went_through];
        cbn beta; [intros s' Hs'; exact Hs' | intros _ s' Hs'; left; exact Hs' | auto].
    - eapply triple_seq with (R := fun s' => error s' = Some ErrProcessing);
        [apply triple_update_to; reflexivity|].
      apply triple_update_to. intros s' Hs'. right. split; [reflexivity | exact Hs']. }
  destruct (exec_from _ s _ _ _ _ Hjob eq_refl I) as [_ Hres].
  destruct ((handleSplit env _).2); [exact Hres | destruct Hres].
Qed.

Lemma sort_insert_perm {A : Type} (cmp : A -> A -> comparison) (x : A) (l : list A) :
  sort_insert cmp x l ≡ₚ x :: l.
Proof.
  induction l as [|y l IH]; [reflexivity|]. cbn [sort_insert].
  destruct (cmp x y); try reflexivity.
  rewrite IH. apply Permutation_swap.
Qed.

Lemma sort_perm {A : Type} (cmp : A -> A -> comparison) (l : list A) :
  sort cmp l ≡ₚ l.
Proof.
  unfold sort. induction l as [|x l IH]; [reflexivity|].
  cbn [foldr]. rewrite sort_insert_perm, IH. reflexivity.
Qed.

Lemma read_from_names a type names blobs :
  Forall2 (read_from a type) names blobs -> map name blobs = names.
Proof.
  induction 1 as [|n sf names blobs (Hn & _ & _) _ IH]; [reflexivity|].
  cbn [map]. rewrite Hn, IH. reflexivity.
Qed.

Lemma read_from_data a type names blobs :
  Forall2 (read_from a type) names blobs ->
  Forall (fun sf => blob_type (blob sf) = type
                    /\ a !! name sf = Some (Reg (blob_bytes (blob sf)))) blobs.
Proof.
  induction 1 as [|n sf names blobs (Hn & Ht & Hd) _ IH]; constructor;
    [rewrite Hn; auto | exact IH].
Qed.

Lemma lookup_unlinked (names : list string) : forall (a : gmap string Node) n,
  foldl (fun a n => delete n a) a names !! n
  = if decide (n ∈ names) then None else a !! n.
Proof.
  induction names as [|m names IH]; intros a n; cbn [foldl].
  - destruct (decide (n ∈ [])) as [Hin|_]; [inversion Hin | reflexivity].
  - rewrite IH. destruct (decide (n ∈ names)) as [Hin|Hout].
    + rewrite decide_True by (right; exact Hin). reflexivity.
    + destruct (decide (n = m)) as [->|Hne].
      * rewrite decide_True by left. apply lookup_delete_eq.
      * rewrite decide_False by (intros Hin; apply elem_of_cons in Hin as [?|?]; auto).
        apply lookup_delete_ne. auto.
Qed.

(** X1. However the engine behaves, a valid request ends in one of three
    ways: [done] without error, [done] with the no-output error and no
    results, or [idle] with the processing error.  In particular the
    message of a failed engine load is never the one left on display. *)
Theorem split_ends_done_or_idle (env : JobEnv) (s : State) (f : File) :
  file s = Some f -> (0 < splitDuration s)%Q ->
  let s' := final (handleSplit env) s in
  (status s' = done
   /\ (error s' = None \/ (error s' = Some ErrNoOutput /\ splitFiles s' = [])))
  \/ (status s' = idle /\ error s' = Some ErrProcessing).
Proof.
  intros Hfile Hdur s'.
  destruct (handleSplit_job env s f Hfile Hdur) as [Hjob|Hfail]; [left | right; exact Hfail].
  destruct Hjob as (area & blobs & _ & _ & _ & Hblobs & _ & _ & _ & Hdone & _ & Herr & Hsf).
  split; [exact Hdone|]. fold s' in Herr, Hsf.
  destruct (resultFiles f _); [right | left; exact Herr].
  inversion Hblobs; subst. split; [exact Herr | exact Hsf].
Qed.

Lemma split_ends_done_or_idle_witness :
  let s' := final (handleSplit (job_with (writes_outputs 3))) talk_selected in
  (status s' = done
   /\ (error s' = None \/ (error s' = Some ErrNoOutput /\ splitFiles s' = [])))
  \/ (status s' = idle /\ error s' = Some ErrProcessing).
Proof.
  apply (split_ends_done_or_idle (job_with (writes_outputs 3)) talk_selected talk).
  - reflexivity.
  - vm_compute. reflexivity.
Defined.

(** X2. The results of a job that ends [done] are the listed files, each
    once: every result carries the bytes of the file of its name and the
    media type of the input. *)
Theorem split_results_are_the_listed_files
    (env : JobEnv) (s : State) (f : File) (area : gmap string Node) :
  let input := "input." +:+ originalExtension f in
  let r := run env (job_args s f) (<[input := Reg (file_bytes f)]> area) in
  file s = Some f -> (0 < splitDuration s)%Q ->
  engine_area env s = Some area ->
  status (final (handleSplit env) s) = done ->
  map name (splitFiles (final (handleSplit env) s)) ≡ₚ resultFiles f (run_area r)
  /\ NoDup (map name (splitFiles (final (handleSplit env) s)))
  /\ Forall (fun sf =>
               blob_type (blob sf) = file_type f
               /\ run_area r !! name sf = Some (Reg (blob_bytes (blob sf))))
       (splitFiles (final (handleSplit env) s)).
Proof.
  intros input r Hfile Hdur Harea Hdone.
  destruct (handleSplit_job env s f Hfile Hdur) as [Hjob|[Hidle _]]; [|congruence].
  destruct Hjob as (area' & blobs & Harea' & _ & _ & Hblobs & _ & _ & Hnodup & _ & Ht).
  rewrite Harea in Harea'. injection Harea' as <-.
  fold input in Hblobs, Hnodup, Ht. fold r in Hblobs, Hnodup, Ht.
  destruct Ht as (_ & _ & ->).
  assert (Hperm : map name (sort by_name_numeric blobs) ≡ₚ resultFiles f (run_area r)).
  { rewrite sort_perm. rewrite (read_from_names _ _ _ _ Hblobs). reflexivity. }
  split; [exact Hperm | split].
  - rewrite Hperm. exact Hnodup.
  - rewrite sort_perm. apply (read_from_data _ _ _ _ Hblobs).
Qed.

Lemma split_results_are_the_listed_files_witness :
  let r := run (job_with (writes_outputs 3)) (job_args talk_selected talk)
             (<["input.mp3" := Reg (file_bytes talk)]> fresh_area) in
  let s' := final (handleSplit (job_with (writes_outputs 3))) talk_selected in
  map name (splitFiles s') ≡ₚ resultFiles talk (run_area r)
  /\ NoDup (map name (splitFiles s'))
  /\ Forall (fun sf =>
               blob_type (blob sf) = file_type talk
               /\ run_area r !! name sf = Some (Reg (blob_bytes (blob sf))))
       (splitFiles s').
Proof.
  apply (split_results_are_the_listed_files (job_with (writes_outputs 3))
           talk_selected talk fresh_area).
  - reflexivity.
  - vm_compute. reflexivity.
  - vm_compute. reflexivity.
  - vm_compute. reflexivity.
Defined.

(** X3. A job that ends [done] shows the no-output error exactly when the
    run left no file whose name starts with the base name; it then shows
    no results either. *)
Theorem split_without_outputs
    (env : JobEnv) (s : State) (f : File) (area : gmap string Node) :
  let input := "input." +:+ originalExtension f in
  let r := run env (job_args s f) (<[input := Reg (file_bytes f)]> area) in
  file s = Some f -> (0 < splitDuration s)%Q ->
  engine_area env s = Some area ->
  status (final (handleSplit env) s) = done ->
  (resultFiles f (run_area r) = []
   <-> error (final (handleSplit env) s) = Some ErrNoOutput)
  /\ (resultFiles f (run_area r) <> []
      <-> error (final (handleSplit env) s) = None)
  /\ (resultFiles f (run_area r) = [] -> splitFiles (final (handleSplit env) s) = []).
Proof.
  intros input r Hfile Hdur Harea Hdone.
  destruct (handleSplit_job env s f Hfile Hdur) as [Hjob|[Hidle _]]; [|congruence].
  destruct Hjob as (area' & blobs & Harea' & _ & _ & Hblobs & _ & _ & _ & _ & Ht).
  rewrite Harea in Harea'. injection Harea' as <-.
  fold input in Hblobs, Ht. fold r in Hblobs, Ht.
  destruct Ht as (_ & -> & ->).
  destruct (resultFiles f (run_area r)) as [|n names].
  - inversion Hblobs; subst. repeat split; try reflexivity; try congruence.
  - repeat split; try reflexivity; try congruence; discriminate.
Qed.

Lemma split_without_outputs_witness :
  let r := run (job_with (writes_outputs 0)) (job_args talk_selected talk)
             (<["input.mp3" := Reg (file_bytes talk)]> fresh_area) in
  let s' := final (handleSplit (job_with (writes_outputs 0))) talk_selected in
  (resultFiles talk (run_area r) = [] <-> error s' = Some ErrNoOutput)
  /\ (resultFiles talk (run_area r) <> [] <-> error s' = None)
  /\ (resultFiles talk (run_area r) = [] -> splitFiles s' = []).
Proof.
  apply (split_without_outputs (job_with (writes_outputs 0))
           talk_selected talk fresh_area).
  - reflexivity.
  - vm_compute. reflexivity.
  - vm_compute. reflexivity.
  - vm_compute. reflexivity.
Defined.

(** X4. A job that ends [done] has removed from the working area its input
    and the listed files, and nothing else: every other entry is as the
    run left it. *)
Theorem finished_job_unlinks_its_files
    (env : JobEnv) (s : State) (f : File) (area : gmap string Node) :
  let input := "input." +:+ originalExtension f in
  let r := run env (job_args s f) (<[input := Reg (file_bytes f)]> area) in
  file s = Some f -> (0 < splitDuration s)%Q ->
  engine_area env s = Some area ->
  status (final (handleSplit env) s) = done ->
  exists e,
    ffmpegRef (final (handleSplit env) s) = Some e
    /\ forall n,
         working_area e !! n
         = if decide (n ∈ input :: resultFiles f (run_area r)) then None
           else run_area r !! n.
Proof.
  intros input r Hfile Hdur Harea Hdone.
  destruct (handleSplit_job env s f Hfile Hdur) as [Hjob|[Hidle _]]; [|congruence].
  destruct Hjob as (area' & blobs & Harea' & _ & _ & _ & _ & _ & _ & _ & Ht).
  rewrite Harea in Harea'. injection Harea' as <-.
  fold input in Ht. fold r in Ht.
  destruct Ht as ((e & He & Ha) & _ & _). exists e. split; [exact He|].
  intros n. rewrite Ha, lookup_unlinked.
  destruct (decide (n ∈ resultFiles f (run_area r))) as [Hin|Hout].
  - rewrite decide_True by (right; exact Hin). reflexivity.
  - destruct (decide (n = input)) as [->|Hne].
    + rewrite decide_True by left. apply lookup_delete_eq.
    + rewrite decide_False by (intros Hin; apply elem_of_cons in Hin as [?|?]; auto).
      apply lookup_delete_ne. auto.
Qed.

Lemma finished_job_unlinks_its_files_witness :
  let r := run (job_with (writes_outputs 3)) (job_args talk_selected talk)
             (<["input.mp3" := Reg (file_bytes talk)]> fresh_area) in
  exists e,
    ffmpegRef (final (handleSplit (job_with (writes_outputs 3))) talk_selected)
    = Some e
    /\ forall n,
         working_area e !! n
         = if decide (n ∈ "input.mp3" :: resultFiles talk (run_area r)) then None
           else run_area r !! n.
Proof.
  apply (finished_job_unlinks_its_files (job_with (writes_outputs 3))
           talk_selected talk fresh_area).
  - reflexivity.
  - vm_compute. reflexivity.
  - vm_compute. reflexivity.
  - vm_compute. reflexivity.
Defined.

(** X5. A file whose base name is a prefix of the name the input gets in
    the working area ([input.<ext>]) can never be split: the input is
    listed among the results, so it is unlinked twice and the second
    [unlink] throws.  This holds of every file name without a dot, whose
    base name is empty. *)
Theorem split_fails_when_input_is_listed (env : JobEnv) (s : State) (f : File) :
  file s = Some f -> (0 < splitDuration s)%Q ->
  startsWith ("input." +:+ originalExtension f) (baseName f) = true ->
  status (final (handleSplit env) s) = idle
  /\ error (final (handleSplit env) s) = Some ErrProcessing.
Proof.
  intros Hfile Hdur Hprefix.
  destruct (handleSplit_job env s f Hfile Hdur) as [Hjob|Hfail]; [|exact Hfail].
  destruct Hjob as (area & blobs & _ & _ & _ & _ & Hall & Hnot & _).
  destruct Hnot. destruct (Hall _ ltac:(left)) as [data Hdata].
  unfold resultFiles. apply list_elem_of_In, filter_In. split; [|exact Hprefix].
  right. right. apply list_elem_of_In, list_elem_of_fmap.
  eexists (_, _). split; [reflexivity | apply elem_of_map_to_list; exact Hdata].
Qed.

Lemma split_fails_when_input_is_listed_witness :
  status (final (handleSplit (job_with (writes_outputs 3))) notes_selected) = idle
  /\ error (final (handleSplit (job_with (writes_outputs 3))) notes_selected)
     = Some ErrProcessing.
Proof.
  apply (split_fails_when_input_is_listed (job_with (writes_outputs 3))
           notes_selected notes).
  - reflexivity.
  - vm_compute. reflexivity.
  - reflexivity.
Defined.

(** With an engine there or a load that goes through, [loadFFmpeg] does
    not throw. *)
Lemma loadFFmpeg_loads snapshot env area err sf E :
  engine_area env snapshot = Some area ->
  triple (fun s => ffmpegRef s = ffmpegRef snapshot /\ error s = err
                   /\ splitFiles s = sf)
    (loadFFmpeg snapshot env) (fun _ => tracked area err sf) E (fun _ => True).
Proof.
  intros Hengine. unfold loadFFmpeg.
  eapply triple_bind
    with (R := fun a s => s = a /\ ffmpegRef a = ffmpegRef snapshot
                          /\ error a = err /\ splitFiles a = sf).
  { apply triple_get. intros s (? & ? & ?) _. auto. }
  intros s0. unfold engine_area in Hengine.
  destruct (ffmpegRef s0) as [e|] eqn:He.
  - apply triple_ret. intros s (-> & Href & Herr & Hsf) _.
    rewrite <- Href in Hengine. injection Hengine as <-.
    split; [exists e; auto | auto].
  - apply triple_pre
      with (P := fun s => ffmpegRef snapshot = None
                          /\ (error s = err /\ splitFiles s = sf));
      [intros s (-> & Href & Herr & Hsf); split; [congruence | auto]|].
    apply triple_pure. intros Hnone. rewrite Hnone in Hengine.
    eapply triple_seq with (R := fun s => error s = err /\ splitFiles s = sf);
      [apply triple_update_to; auto|].
    eapply triple_seq with (R := fun s => error s = err /\ splitFiles s = sf);
      [apply triple_update_to; auto|].
    destruct (checkFFmpeg env 50 0); [|discriminate]. rewrite Hengine.
    eapply triple_seq with (R := fun s => error s = err /\ splitFiles s = sf);
      [apply triple_ret; auto|].
    eapply triple_seq with (R := fun s => error s = err /\ splitFiles s = sf);
      [apply triple_update_to; auto|].
    eapply triple_try_catch; [|apply triple_false].
    apply triple_update_to. intros s [Herr Hsf].
    split; [eexists; split; reflexivity | auto].
Qed.

Lemma tracked_ffmpeg_run_rejects env args a err sf (Q : unit -> State -> Prop) :
  run_rejects (run env args a) = true ->
  triple (tracked a err sf) (ffmpeg_run env args) Q
    (tracked (run_area (run env args a)) err sf) (fun _ => True).
Proof.
  intros Hrun. unfold ffmpeg_run.
  eapply triple_bind; [apply tracked_get_engine|].
  intros e. apply triple_pure. intros ->.
  eapply triple_seq; [apply tracked_deliver|].
  eapply triple_seq; [apply tracked_update_area|].
  rewrite Hrun. apply triple_throw. auto.
Qed.

(** X6. When the run rejects, nothing is cleaned up: the job ends [idle]
    with the processing error and no results, and the working area is
    the one the run left, the input included if the run kept it. *)
Theorem rejected_run_cleans_nothing
    (env : JobEnv) (s : State) (f : File) (area : gmap string Node) :
  let input := "input." +:+ originalExtension f in
  let r := run env (job_args s f) (<[input := Reg (file_bytes f)]> area) in
  file s = Some f -> (0 < splitDuration s)%Q ->
  engine_area env s = Some area ->
  fetchFile_rejects env = false ->
  run_rejects r = true ->
  status (final (handleSplit env) s) = idle
  /\ tracked (run_area r) (Some ErrProcessing) [] (final (handleSplit env) s).
Proof.
  intros input r Hfile Hduration Harea Hfetch Hrun.
  assert (Hjob : triple (fun s' => s' = s) (handleSplit env)
                   (fun _ s' => status s' = idle
                                /\ tracked (run_area r) (Some ErrProcessing) [] s')
                   (fun _ => False) (fun _ => True)).
  { unfold handleSplit.
    eapply triple_bind with (R := fun a s' => s' = a /\ a = s).
    { apply triple_get. auto. }
    intros snapshot.
    apply triple_pre with (P := fun s' => snapshot = s /\ s' = s);
      [intros s' [-> ->]; auto|].
    apply triple_pure. intros ->. rewrite Hfile.
    replace (Qle_bool (splitDuration s) 0) with false.
    2:{ symmetry. apply not_true_is_false. intros Hle.
        apply Qle_bool_iff in Hle. exact (Qle_not_lt _ _ Hle Hduration). }
    eapply triple_seq with (R := fun s' => ffmpegRef s' = ffmpegRef s /\ error s' = None).
    { apply triple_update_to. intros s' ->. split; reflexivity. }
    eapply triple_seq
      with (R := fun s' => ffmpegRef s' = ffmpegRef s /\ error s' = None
                           /\ splitFiles s' = []).
    { apply triple_update_to. intros s' [? ?]. repeat split; assumption. }
    eapply triple_try_catch with (E' := tracked (run_area r) None []).
    - unfold handleSplit_try.
      assert (Hresolved : fetch env = fetchFile_resolved)
        by (unfold fetchFile_rejects in Hfetch; destruct (fetch env); congruence).
      rewrite Hresolved.
      eapply triple_seq; [apply (loadFFmpeg_loads s env area), Harea|].
      eapply triple_seq; [apply triple_ret; intros s' Hs' _; exact Hs'|].
      do 3 (eapply triple_seq; [apply tracked_update; reflexivity|]).
      cbv zeta.
      eapply triple_seq; [apply triple_ret; intros s' Hs' _; exact Hs'|].
      eapply triple_seq; [apply tracked_update_area|].
      eapply triple_seq; [apply tracked_update; reflexivity|].
      eapply triple_seq with (R := fun _ => False); [|apply triple_false].
      apply tracked_ffmpeg_run_rejects. exact Hrun.
    - eapply triple_seq; [apply tracked_setError|].
      apply triple_update_to. intros s' Hs'. split; [reflexivity | exact Hs']. }
  destruct (exec_from _ s _ _ _ _ Hjob eq_refl I) as [_ Hres].
  destruct ((handleSplit env _).2); [exact Hres | destruct Hres].
Qed.

Lemma rejected_run_cleans_nothing_witness :
  let r := run (job_with rejects) (job_args talk_selected talk)
             (<["input.mp3" := Reg (file_bytes talk)]> fresh_area) in
  status (final (handleSplit (job_with rejects)) talk_selected) = idle
  /\ tracked (run_area r) (Some ErrProcessing) []
       (final (handleSplit (job_with rejects)) talk_selected).
Proof.
  apply (rejected_run_cleans_nothing (job_with rejects) talk_selected talk fresh_area).
  - reflexivity.
  - vm_compute. reflexivity.
  - vm_compute. reflexivity.
  - reflexivity.
  - reflexivity.
Defined.

(** X7. Between two handlers the component is never busy: its status is
    [idle] or [done], whatever happened to the jobs before. *)
Theorem never_busy_between_handlers (s : State) :
  reachable s -> status s = idle \/ status s = done.
Proof.
  induction 1 as [|e s Hs IH]; [left; reflexivity|].
  destruct e as [selected|minutes|env| |ratio].
  - left. reflexivity.
  - exact IH.
  - destruct (file s) as [f|] eqn:Hfile.
    + destruct (Qlt_le_dec 0 (splitDuration s)) as [Hdur|Hdur].
      * destruct (handleSplit_job env s f Hfile Hdur) as [Hjob|[Hidle _]];
          [right | left; exact Hidle].
        destruct Hjob as (area & blobs & _ & _ & _ & _ & _ & _ & _ & Hdone & _).
        exact Hdone.
      * apply Qle_bool_iff in Hdur.
        unfold final, exec, handler, handleSplit, mbind, M_bind, get. cbn [cur fst].
        rewrite Hfile, Hdur. exact IH.
    + unfold final, exec, handler, handleSplit, mbind, M_bind, get. cbn [cur fst].
      rewrite Hfile. exact IH.
  - left. reflexivity.
  - unfold final, exec, handler, mbind, M_bind, get. cbn [cur fst].
    destruct (ffmpegRef s) as [e|]; [|exact IH].
    unfold progress. destruct (_ && _); exact IH.
Qed.

Lemma never_busy_between_handlers_witness :
  status (final (handler (Split (job_with rejects))) talk_selected) = idle
  \/ status (final (handler (Split (job_with rejects))) talk_selected) = done.
Proof.
  apply (never_busy_between_handlers
           (final (handler (Split (job_with rejects))) talk_selected)).
  apply reachable_step, reachable_step, reachable_initial.
Defined.

Lemma loadFFmpeg_loaded snapshot env mach :
  ffmpegRef (cur mach) <> None -> loadFFmpeg snapshot env mach = (mach, Some tt).
Proof.
  intros He. unfold loadFFmpeg, mbind, M_bind, get.
  destruct (ffmpegRef (cur mach)); [reflexivity | contradiction].
Qed.

Lemma bind_eq {A B} (m : M A) (k : A -> M B) mach :
  (m ≫= k) mach
  = match m mach with
    | (mach', Some a) => k a mach'
    | (mach', None) => (mach', None)
    end.
Proof. reflexivity. Qed.

Lemma bind_get {B} (k : State -> M B) mach : (get ≫= k) mach = k (cur mach) mach.
Proof. reflexivity. Qed.

Lemma bind_update {B} (g : State -> State) (k : unit -> M B) mach :
  (update g ≫= k) mach
  = k tt {| cur := g (cur mach); past := cur mach :: past mach |}.
Proof. reflexivity. Qed.

(** X8. The engine is loaded once.  With an engine in [ffmpegRef], a job
    goes through the same states whatever the script poll and the load
    would do now: neither is consulted.  What the job still reads on every
    run is [window.FFMPEG], for [fetchFile]: when the script is not there,
    a valid request ends [idle] with the processing error, the cached
    engine left as it was. *)
Theorem engine_is_loaded_once
    (env : JobEnv) (poll : nat -> bool) (load' : option (gmap string Node))
    (s : State) :
  ffmpegRef s <> None ->
  trace (handleSplit {| script_defined := poll; load := load';
                        fetch := fetch env; run := run env |}) s
  = trace (handleSplit env) s
  /\ (fetch env = FFMPEG_undefined ->
      is_Some (file s) -> (0 < splitDuration s)%Q ->
      status (final (handleSplit env) s) = idle
      /\ error (final (handleSplit env) s) = Some ErrProcessing
      /\ ffmpegRef (final (handleSplit env) s) = ffmpegRef s).
Proof.
  intros He. split.
  - destruct env as [sd ld fr rn]. cbn [fetch run].
    assert (Hsame :
              handleSplit {| script_defined := poll; load := load';
                             fetch := fr; run := rn |}
                {| cur := s; past := [] |}
              = handleSplit {| script_defined := sd; load := ld;
                               fetch := fr; run := rn |}
                  {| cur := s; past := [] |});
      [|unfold trace, exec; rewrite Hsame; reflexivity].
    unfold handleSplit. rewrite !bind_get. cbn [cur].
    destruct (file s) as [f|]; [|reflexivity].
    destruct (Qle_bool (splitDuration s) 0); [reflexivity|].
    unfold setError, setSplitFiles. rewrite !bind_update. cbn [cur past].
    unfold try_catch, handleSplit_try.
    rewrite !(bind_eq (loadFFmpeg _ _)), !loadFFmpeg_loaded by exact He.
    reflexivity.
  - intros Hgone [f Hfile] Hduration.
    assert (Hdur : Qle_bool (splitDuration s) 0 = false).
    { apply not_true_is_false. intros Hle.
      apply Qle_bool_iff in Hle. exact (Qle_not_lt _ _ Hle Hduration). }
    unfold final, exec, handleSplit. rewrite bind_get. cbn [cur].
    rewrite Hfile, Hdur.
    unfold setError, setSplitFiles. rewrite !bind_update. cbn [cur past].
    unfold try_catch, handleSplit_try.
    rewrite (bind_eq (loadFFmpeg _ _)), loadFFmpeg_loaded by exact He.
    rewrite Hgone. repeat split.
Qed.

Lemma engine_is_loaded_once_witness :
  let s := final (handleSplit (job_with (writes_outputs 3))) talk_selected in
  let env := {| script_defined := script_defined (job_with (writes_outputs 3));
                load := load (job_with (writes_outputs 3));
                fetch := FFMPEG_undefined;
                run := run (job_with (writes_outputs 3)) |} in
  trace (handleSplit {| script_defined := fun poll => false;
                        load := None;
                        fetch := fetch env; run := run env |}) s
  = trace (handleSplit env) s
  /\ (fetch env = FFMPEG_undefined ->
      is_Some (file s) -> (0 < splitDuration s)%Q ->
      status (final (handleSplit env) s) = idle
      /\ error (final (handleSplit env) s) = Some ErrProcessing
      /\ ffmpegRef (final (handleSplit env) s) = ffmpegRef s).
Proof.
  intros s env. apply (engine_is_loaded_once env (fun poll => false) None s).
  vm_compute. discriminate.
Defined.

(** The second job of a page whose script is gone: the engine of the
    first job is still in [ffmpegRef], and the job ends [idle] with the
    processing error. *)
Example second_job_without_script :
  let s := final (handleSplit (job_with (writes_outputs 3))) talk_selected in
  let env := {| script_defined := fun poll => false;
                load := None;
                fetch := FFMPEG_undefined;
                run := run (job_with (writes_outputs 3)) |} in
  status s = done
  /\ is_Some (ffmpegRef s)
  /\ status (final (handleSplit env) s) = idle
  /\ error (final (handleSplit env) s) = Some ErrProcessing.
Proof. vm_compute. repeat split. eauto. Qed.

Lemma checkFFmpeg_from (env : JobEnv) (fuel : nat) : forall attempts,
  (attempts + fuel = 50)%nat ->
  checkFFmpeg env fuel attempts = true
  <-> exists poll, (attempts <= poll <= 50)%nat /\ script_defined env poll = true.
Proof.
  induction fuel as [|fuel IH]; intros attempts Hsum; cbn [checkFFmpeg].
  - destruct (script_defined env attempts) eqn:Hnow.
    + split; [intros _; exists attempts; split; [lia | exact Hnow] | reflexivity].
    + replace (attempts <? 50)%nat with false by (symmetry; apply Nat.ltb_ge; lia).
      split; [discriminate|]. intros (poll & Hpoll & Hdef).
      replace poll with attempts in Hdef by lia. congruence.
  - destruct (script_defined env attempts) eqn:Hnow.
    + split; [intros _; exists attempts; split; [lia | exact Hnow] | reflexivity].
    + replace (attempts <? 50)%nat with true by (symmetry; apply Nat.ltb_lt; lia).
      rewrite (IH (S attempts)) by lia. split.
      * intros (poll & Hpoll & Hdef). exists poll. split; [lia | exact Hdef].
      * intros (poll & Hpoll & Hdef). exists poll. split; [|exact Hdef].
        destruct (decide (poll = attempts)) as [->|Hne]; [congruence | lia].
Qed.

(** X9. The wait for the engine's script polls 51 times, the first time at
    once and then at each of 50 retries: it resolves exactly when the
    script is defined at one of these polls. *)
Theorem checkFFmpeg_polls_51_times (env : JobEnv) :
  checkFFmpeg env 50 0 = true
  <-> exists poll, (poll <= 50)%nat /\ script_defined env poll = true.
Proof.
  rewrite (checkFFmpeg_from env 50 0) by reflexivity. split.
  - intros (poll & Hpoll & Hdef). exists poll. split; [lia | exact Hdef].
  - intros (poll & Hpoll & Hdef). exists poll. split; [lia | exact Hdef].
Qed.

(** *** File names *)

Lemma split_without_dot (s : string) :
  lastIndexOf_dot s = None -> split "." s = [s].
Proof.
  induction s as [|c s IH]; [reflexivity|]. cbn [lastIndexOf_dot split].
  destruct (lastIndexOf_dot s); [discriminate|].
  destruct (Ascii.eqb c "."); [discriminate|]. intros _. rewrite IH; reflexivity.
Qed.

Lemma split_at_last_dot (s : string) (i : nat) :
  lastIndexOf_dot s = Some i ->
  exists hd tl,
    split "." s = hd :: tl /\ tl <> []
    /\ s = String.substring 0 i s +:+ "." +:+ List.last tl EmptyString.
Proof.
  revert i. induction s as [|c s IH]; intros i; [discriminate|].
  cbn [lastIndexOf_dot split].
  destruct (lastIndexOf_dot s) as [j|] eqn:Hs.
  - intros [= <-]. destruct (IH j eq_refl) as (hd & tl & Hsplit & Htl & Heq).
    rewrite Hsplit. cbn [String.substring].
    destruct (Ascii.eqb c ".").
    + exists EmptyString, (hd :: tl). split; [reflexivity|]. split; [discriminate|].
      rewrite append_String. f_equal.
      destruct tl as [|x tl]; [contradiction|]. exact Heq.
    + exists (String c hd), tl. split; [reflexivity|]. split; [exact Htl|].
      rewrite append_String. f_equal. exact Heq.
  - destruct (Ascii.eqb c ".") eqn:Hc; [|discriminate]. intros [= <-].
    apply Ascii.eqb_eq in Hc as ->.
    rewrite (split_without_dot s Hs).
    exists EmptyString, [s]. split; [reflexivity|]. split; [discriminate|].
    destruct s; reflexivity.
Qed.

Lemma split_never_empty (sep : ascii) (s : string) : split sep s <> [].
Proof.
  destruct s as [|c s]; cbn [split]; [discriminate|].
  destruct (Ascii.eqb c sep); [discriminate|].
  destruct (split sep s); discriminate.
Qed.

Lemma last_split_no_dot (s : string) :
  occurs "." (List.last (split "." s) EmptyString) = false.
Proof.
  induction s as [|c s IH]; [reflexivity|]. cbn [split].
  destruct (Ascii.eqb c ".") eqn:Hc.
  - destruct (split "." s) eqn:Hs; [destruct (split_never_empty _ _ Hs)|]. exact IH.
  - destruct (split "." s) as [|hd tl] eqn:Hs; [destruct (split_never_empty _ _ Hs)|].
    destruct tl as [|x tl]; [|exact IH].
    cbn [List.last occurs] in *. rewrite Hc. exact IH.
Qed.

Lemma lower_char_dot (c : ascii) :
  Ascii.eqb (lower_char c) "." = Ascii.eqb c ".".
Proof. destruct c as [[] [] [] [] [] [] [] []]; reflexivity. Qed.

Lemma toLowerCase_no_dot (s : string) :
  occurs "." (toLowerCase s) = occurs "." s.
Proof.
  induction s as [|c s IH]; [reflexivity|].
  cbn [toLowerCase occurs]. rewrite lower_char_dot, IH. reflexivity.
Qed.

(** X10. How [handleSplit] takes a file name apart.  A name with a dot is
    its base name, a dot, and the part after the last dot; a name without
    a dot has the empty base name and is that part itself.  The extension
    used for the engine's files is never empty and has no dot. *)
Theorem file_name_parts (f : File) :
  let ext := List.last (split "." (file_name f)) EmptyString in
  (forall i, lastIndexOf_dot (file_name f) = Some i ->
     file_name f = baseName f +:+ "." +:+ ext)
  /\ (lastIndexOf_dot (file_name f) = None ->
      baseName f = EmptyString /\ ext = file_name f)
  /\ originalExtension f <> EmptyString
  /\ occurs "." (originalExtension f) = false.
Proof.
  intros ext. repeat split.
  - intros i Hi. unfold baseName. rewrite Hi.
    destruct (split_at_last_dot _ _ Hi) as (hd & tl & Hsplit & Htl & Heq).
    unfold ext. rewrite Hsplit. destruct tl as [|x tl]; [contradiction|]. exact Heq.
  - unfold baseName. rewrite H. reflexivity.
  - unfold ext. rewrite (split_without_dot _ H). reflexivity.
  - unfold originalExtension. fold ext.
    destruct (String.eqb (toLowerCase ext) EmptyString) eqn:He; [discriminate|].
    intros Hnil. rewrite Hnil in He. discriminate.
  - unfold originalExtension. fold ext.
    destruct (String.eqb (toLowerCase ext) EmptyString); [reflexivity|].
    rewrite toLowerCase_no_dot. apply last_split_no_dot.
Qed.

End JobOutcomes.

(** ** The recorder's scheduler and devices *)

(** Reading one field of the state below a run of steps. *)
Module Fields.
Import JS Recorder Design DeviceDesign Session.

Create HintDb stages.
#[global] Hint Unfold cancelAnimationFrame cancel_frame close_context
  cleanupAudioContext draw setInterval clearInterval arm_timer disarm_timer
  release_timer stop_tracks release_stream acquire_stream connect_analyser
  recorder_stop ondataavailable onstop clear_stop_pending reschedule
  deleteSegment stop_if_recording : stages.

(** The state a rotation leaves, thrown or not: the one [stop_if_recording]
    left, with a new recorder if there is a stream and the browser accepts
    the format. *)
Lemma state_of_createNewSegment `{Browser} now s :
  state_of (createNewSegment now s)
  = match streamRef (stop_if_recording s) with
    | Some stream =>
        if isTypeSupported (mimeTypeRef (stop_if_recording s)) then
          set_recorders
            (<[next_handle (stop_if_recording s) :=
                 {| mr_state := rs_recording;
                    mr_mimeType := mimeTypeRef (stop_if_recording s);
                    recorderChunks := []; mr_started := now;
                    mr_stop_pending := false |}]>
               (recorders (stop_if_recording s)))
            (set_mediaRecorderRef (Some (next_handle (stop_if_recording s)))
               (set_next_handle (Pos.succ (next_handle (stop_if_recording s)))
                  (stop_if_recording s)))
        else stop_if_recording s
    | None => stop_if_recording s
    end.
Proof.
  unfold createNewSegment, start_on_stream, startNewSegment.
  destruct (streamRef (stop_if_recording s)); [|reflexivity].
  destruct (isTypeSupported (mimeTypeRef (stop_if_recording s))); reflexivity.
Qed.

(** Proves [proj (f x) = proj x] for a step [f] that leaves the field
    [proj] alone, by cases on what [f] tests. *)
Ltac untouched x :=
  repeat match goal with
    | H : ?P |- _ => lazymatch type of P with Prop => clear H end
    end;
  tryif is_var x then idtac else (generalize x; intros ?);
  rewrite ?state_of_createNewSegment;
  repeat autounfold with stages; repeat case_match;
  lazymatch goal with |- ?G => exact (eq_refl : G) end.

Ltac skip1 proj :=
  match goal with
  | |- context [proj (state_of (?g ?x))] =>
      let E := fresh in
      assert (E : proj (state_of (g x)) = proj x) by untouched x;
      rewrite E; clear E
  | |- context [proj (?g ?x)] =>
      let E := fresh in
      assert (E : proj (g x) = proj x) by untouched x;
      rewrite E; clear E
  end.

(** Drops, below a field of the state, one step that leaves the field
    alone. *)
Ltac skip :=
  first [ skip1 status | skip1 recordedChunks | skip1 error
        | skip1 streamRef | skip1 segmentTimerRef
        | skip1 mimeTypeRef | skip1 segmentDurationRef | skip1 audioContextRef
        | skip1 analyserRef | skip1 sourceNodeRef | skip1 animationFrameIdRef
        | skip1 live_streams | skip1 open_contexts
        | skip1 timers | skip1 frames | skip1 pending_starts ].

(** The same for the recorder ref and the recorders. *)
Ltac skip_recorders := first [skip1 mediaRecorderRef | skip1 recorders].

Create Rewrite HintDb devices.

(** Settles an equation between fields of [s] and of a step from [s], by
    cases on the refs the step tests. *)
Ltac by_refs s :=
  destruct s;
  repeat match goal with x : option _ |- _ => destruct x end;
  reflexivity.

Lemma animationFrameIdRef_cleanupAudioContext s :
  animationFrameIdRef (cleanupAudioContext s) = None.
Proof. by_refs s. Qed.

Lemma frames_cleanupAudioContext s :
  frames (cleanupAudioContext s)
  = match animationFrameIdRef s with
    | Some id => filter (λ f, f ≠ id) (frames s)
    | None => frames s
    end.
Proof. by_refs s. Qed.

Lemma analyserRef_cleanupAudioContext s : analyserRef (cleanupAudioContext s) = false.
Proof. by_refs s. Qed.

Lemma sourceNodeRef_cleanupAudioContext s :
  sourceNodeRef (cleanupAudioContext s) = false.
Proof. by_refs s. Qed.

Lemma audioContextRef_cleanupAudioContext s :
  audioContextRef (cleanupAudioContext s) = None.
Proof. reflexivity. Qed.

Lemma open_contexts_cleanupAudioContext s :
  open_contexts (cleanupAudioContext s)
  = match audioContextRef s with
    | Some c => filter (λ c', c' ≠ c) (open_contexts s)
    | None => open_contexts s
    end.
Proof. by_refs s. Qed.

Lemma streamRef_release_stream s : streamRef (release_stream s) = None.
Proof. by_refs s. Qed.

Lemma live_streams_release_stream s :
  live_streams (release_stream s)
  = match streamRef s with
    | Some st => filter (λ st', st' ≠ st) (live_streams s)
    | None => live_streams s
    end.
Proof. by_refs s. Qed.

Lemma streamRef_acquire_stream s :
  streamRef (acquire_stream s) = Some (next_handle s).
Proof. reflexivity. Qed.

Lemma live_streams_acquire_stream s :
  live_streams (acquire_stream s) = next_handle s :: live_streams s.
Proof. reflexivity. Qed.

Lemma audioContextRef_connect_analyser s :
  audioContextRef (connect_analyser s) = Some (next_handle s).
Proof. reflexivity. Qed.

Lemma open_contexts_connect_analyser s :
  open_contexts (connect_analyser s) = next_handle s :: open_contexts s.
Proof. reflexivity. Qed.

Lemma analyserRef_connect_analyser s : analyserRef (connect_analyser s) = true.
Proof. reflexivity. Qed.

Lemma sourceNodeRef_connect_analyser s : sourceNodeRef (connect_analyser s) = true.
Proof. reflexivity. Qed.

Lemma frames_draw rms s :
  frames (draw rms s)
  = if analyserRef s then (frames s ++ [next_handle s])%list else frames s.
Proof. unfold draw. destruct (analyserRef s); reflexivity. Qed.

Lemma animationFrameIdRef_draw rms s :
  animationFrameIdRef (draw rms s)
  = if analyserRef s then Some (next_handle s) else animationFrameIdRef s.
Proof. unfold draw. destruct (analyserRef s); reflexivity. Qed.

Lemma frames_cancelAnimationFrame id s :
  frames (cancelAnimationFrame id s) = filter (λ f, f ≠ id) (frames s).
Proof. reflexivity. Qed.

Lemma mediaRecorderRef_recorder_stop id s :
  mediaRecorderRef (recorder_stop id s) = mediaRecorderRef s.
Proof. unfold recorder_stop. destruct (recorders s !! id); reflexivity. Qed.

Lemma mediaRecorderRef_stop_if_recording s :
  mediaRecorderRef (stop_if_recording s) = mediaRecorderRef s.
Proof.
  unfold stop_if_recording. destruct (mediaRecorderRef s) as [id|] eqn:Href.
  - destruct (recorder_is_recording id s);
      [rewrite mediaRecorderRef_recorder_stop|]; exact Href.
  - exact Href.
Qed.

Lemma mediaRecorderRef_set_mediaRecorderRef v s :
  mediaRecorderRef (set_mediaRecorderRef v s) = v.
Proof. reflexivity. Qed.

#[global] Hint Rewrite streamRef_acquire_stream live_streams_acquire_stream
  audioContextRef_connect_analyser open_contexts_connect_analyser
  analyserRef_connect_analyser sourceNodeRef_connect_analyser frames_draw
  animationFrameIdRef_draw frames_cancelAnimationFrame
  mediaRecorderRef_set_mediaRecorderRef : devices.

#[global] Hint Rewrite animationFrameIdRef_cleanupAudioContext
  frames_cleanupAudioContext analyserRef_cleanupAudioContext
  sourceNodeRef_cleanupAudioContext audioContextRef_cleanupAudioContext
  open_contexts_cleanupAudioContext streamRef_release_stream
  live_streams_release_stream : devices.

(** Rewrites the fields of a state built by the hook's steps. *)
Ltac fields := repeat first [progress autorewrite with hook devices | skip].

End Fields.

Section Conduct.
Import JS Recorder Design DeviceDesign StreamDesign TakeDesign Session Fields.

Section Scheduler.
Context `{Browser}.

Lemma timer_armed_ext (s s' : State) :
  status s = status s' -> segmentTimerRef s = segmentTimerRef s' ->
  timers s = timers s' -> segmentDurationRef s = segmentDurationRef s' ->
  timer_armed s' -> timer_armed s.
Proof.
  intros Hst Href Htm Hdur. unfold timer_armed. rewrite Hst, Href, Htm, Hdur. auto.
Qed.

Lemma timer_armed_same (s s' : State) :
  same_session s s' -> timer_armed s' -> timer_armed s.
Proof.
  intros (Hst & _ & _ & Href & Htm & _ & Hdur). apply timer_armed_ext; assumption.
Qed.

Lemma timer_armed_rest (s : State) :
  status s <> recording -> segmentTimerRef s = None -> timers s = [] ->
  timer_armed s.
Proof.
  intros Hst Href Htm. unfold timer_armed.
  destruct (status s); auto. destruct Hst. reflexivity.
Qed.

Lemma timer_armed_at_rest (s : State) :
  timer_armed s -> status s <> recording ->
  segmentTimerRef s = None /\ timers s = [].
Proof.
  unfold timer_armed. intros Harmed Hst.
  destruct (status s); auto. destruct Hst. reflexivity.
Qed.

Lemma scheduler_ok_armed (s : State) :
  timer_armed s ->
  (status s = recording -> isTypeSupported (mimeTypeRef s) = true) ->
  scheduler_ok s.
Proof.
  unfold timer_armed. intros Harmed Hsup.
  assert (Hcases : (segmentTimerRef s = None /\ timers s = [])
                   \/ (status s = recording
                       /\ exists id due period,
                            segmentTimerRef s = Some id
                            /\ timers s = [{| tm_id := id; tm_due := due;
                                              tm_period := period |}])).
  { destruct (status s); auto.
    destruct (Qlt_le_dec 0 (segmentDurationRef s)); auto.
    destruct Harmed as (id & due & Href & Htm). right. eauto 10. }
  destruct Hcases as [[Href Htm]|(Hst & id & due & period & Href & Htm)];
    unfold scheduler_ok; rewrite Href, Htm.
  - split; [intros tm Hin; inversion Hin|]. split; [reflexivity | exact Hsup].
  - split; [|split; [intros Hne; destruct (Hne Hst) | exact Hsup]].
    intros tm Hin. apply list_elem_of_singleton in Hin. subst tm. reflexivity.
Qed.

Lemma timer_armed_recording (s : State) (minutes : Q) :
  status s = recording -> segmentDurationRef s = minutes ->
  (if Qlt_le_dec 0 minutes then
     exists id due,
       segmentTimerRef s = Some id
       /\ timers s = [{| tm_id := id; tm_due := due;
                         tm_period := timeout_ms (minutes * 60 * 1000) |}]
   else segmentTimerRef s = None /\ timers s = []) ->
  timer_armed s.
Proof. intros Hst Hdur Harmed. unfold timer_armed. rewrite Hst, Hdur. exact Harmed. Qed.

(** The rest of a start, from a session that is not recording and whose
    period ref holds the period of the call. *)
Lemma timer_armed_resume env now mimeType minutes (s : State) :
  status s <> recording -> segmentTimerRef s = None -> timers s = [] ->
  segmentDurationRef s = minutes ->
  timer_armed (startRecording_resume env now mimeType minutes s).
Proof.
  intros Hst Href Htm Hdur.
  rewrite startRecording_resume_unfold, startRecording_try_unfold.
  destruct (getUserMedia_error env);
    [apply timer_armed_rest; fields; assumption|].
  destruct (audioContext_error env);
    [apply timer_armed_rest; fields; assumption|].
  unfold startNewSegment, and_then.
  destruct (isTypeSupported mimeType);
    [|apply timer_armed_rest; fields; assumption].
  apply (timer_armed_recording _ minutes);
    [fields; reflexivity | fields; exact Hdur|].
  fields. rewrite Htm, Href.
  destruct (Qlt_le_dec 0 minutes); [|split; reflexivity].
  eexists _, _; split; reflexivity.
Qed.

Lemma timer_armed_start_from_rest env now mimeType minutes (s : State) :
  status s <> recording -> segmentTimerRef s = None -> timers s = [] ->
  timer_armed
    match
      startRecording_try env now mimeType minutes
        (set_segmentDurationRef minutes
           (set_mimeTypeRef mimeType (set_error None s)))
    with
    | Returned s => s
    | Thrown err s => set_error (Some (start_error_message err)) s
    end.
Proof.
  intros Hst Href Htm.
  apply (timer_armed_resume env now mimeType minutes
           (set_segmentDurationRef minutes
              (set_mimeTypeRef mimeType (set_error None s))));
    [exact Hst | exact Href | exact Htm | reflexivity].
Qed.

Lemma timer_armed_call mimeType minutes (s : State) :
  timer_armed s -> timer_armed (startRecording_call mimeType minutes s).
Proof.
  intros Harmed. unfold startRecording_call. destruct (status s) eqn:Hst.
  2:{ eapply timer_armed_ext; [| | | |exact Harmed]; reflexivity. }
  all: destruct (timer_armed_at_rest s Harmed ltac:(congruence)) as [Href Htm].
  all: apply timer_armed_rest; [|exact Href | exact Htm].
  all: change (status s <> recording); congruence.
Qed.

Lemma timer_armed_start env now mimeType minutes (s : State) :
  timer_armed s -> timer_armed (startRecording env now mimeType minutes s).
Proof.
  intros Harmed. rewrite startRecording_unfold.
  destruct (status s) eqn:Hst.
  2:{ eapply timer_armed_ext; [| | | |exact Harmed]; reflexivity. }
  all: destruct (timer_armed_at_rest s Harmed ltac:(congruence)) as [Href Htm].
  all: apply timer_armed_start_from_rest; [congruence | assumption..].
Qed.

Lemma timer_armed_clears (s : State) :
  timer_armed s ->
  match segmentTimerRef s with
  | Some id => filter (λ tm, tm_id tm ≠ id) (timers s)
  | None => timers s
  end = [].
Proof.
  unfold timer_armed. intros Harmed.
  assert (Hcases : (segmentTimerRef s = None /\ timers s = [])
                   \/ exists id due period,
                        segmentTimerRef s = Some id
                        /\ timers s = [{| tm_id := id; tm_due := due;
                                          tm_period := period |}]).
  { destruct (status s); auto.
    destruct (Qlt_le_dec 0 (segmentDurationRef s)); auto.
    destruct Harmed as (id & due & Href & Htm). right. eauto. }
  destruct Hcases as [[-> ->]|(id & due & period & -> & ->)]; [reflexivity|].
  apply filter_none. intros tm Htm Hne.
  apply list_elem_of_singleton in Htm. subst tm. apply Hne. reflexivity.
Qed.

Lemma timer_armed_stop (s : State) :
  timer_armed s -> timer_armed (stopRecording s).
Proof.
  intros Harmed. rewrite stopRecording_unfold.
  destruct (status s) eqn:Hst; try exact Harmed.
  destruct (mediaRecorderRef s); [|exact Harmed].
  apply timer_armed_rest; fields; [discriminate | reflexivity|].
  apply timer_armed_clears, Harmed.
Qed.

Lemma timer_armed_reset (s : State) :
  timer_armed s -> timer_armed (resetRecording s).
Proof.
  intros Harmed. rewrite resetRecording_unfold.
  set (s1 := match status s with recording => stopRecording s | _ => _ end).
  assert (Harmed1 : timer_armed s1).
  { subst s1. destruct (status s); try apply timer_armed_stop, Harmed;
      (eapply timer_armed_same; [apply cleanupAudioContext_same | exact Harmed]). }
  clearbody s1.
  apply timer_armed_rest; fields; [discriminate | reflexivity|].
  apply timer_armed_clears, Harmed1.
Qed.

Lemma timer_armed_rearm now (s : State) :
  timer_armed s -> status s = recording ->
  timer_armed (arm_timer now (segmentDurationRef (disarm_timer s)) (disarm_timer s)).
Proof.
  intros Harmed Hst. pose proof (timer_armed_clears s Harmed) as Hclear.
  unfold timer_armed in *. fields. rewrite Hclear, Hst in *.
  destruct (Qlt_le_dec 0 (segmentDurationRef s)).
  - eexists _, _. split; reflexivity.
  - destruct Harmed as [-> _]. split; reflexivity.
Qed.

Lemma timer_armed_split now (s : State) :
  timer_armed s -> timer_armed (state_of (splitSegment now s)).
Proof.
  intros Harmed. rewrite splitSegment_unfold.
  destruct (status s) eqn:Hst; try exact Harmed.
  destruct (createNewSegment_cases now s) as (s1 & Hsame & [->|[err ->]]).
  - apply timer_armed_rearm.
    + eapply timer_armed_same; eassumption.
    + rewrite (status_proper _ _ Hsame). exact Hst.
  - eapply timer_armed_same; eassumption.
Qed.

Lemma timer_armed_reschedule tm (s : State) :
  timer_armed s -> timer_armed (reschedule tm s).
Proof.
  unfold timer_armed. fields. intros Harmed.
  assert (Hnil : timers s = [] ->
                 map (fun t => if decide (tm_id t = tm_id tm)
                               then {| tm_id := tm_id t;
                                       tm_due := tm_due t + tm_period t;
                                       tm_period := tm_period t |}
                               else t) (timers s) = [])
    by (intros ->; reflexivity).
  destruct (status s); try (destruct Harmed; auto).
  destruct (Qlt_le_dec 0 (segmentDurationRef s)); [|destruct Harmed; auto].
  destruct Harmed as (id & due & Href & Htm). rewrite Htm. cbn [map tm_id].
  destruct (decide (id = tm_id tm)); eexists _, _; split; try exact Href; reflexivity.
Qed.

(** The steps that start nothing. *)

Lemma quiet_move_refl s : quiet_move s s.
Proof. repeat split. auto. Qed.

Lemma quiet_move_trans s1 s2 s3 :
  quiet_move s1 s2 -> quiet_move s2 s3 -> quiet_move s1 s3.
Proof.
  intros (Hp & Hm & Hd & Hs) (Hp' & Hm' & Hd' & Hs').
  repeat split; try congruence. auto.
Qed.

Lemma rtc_quiet_move s s' : rtc quiet_move s s' -> quiet_move s s'.
Proof.
  induction 1; [apply quiet_move_refl|].
  eapply quiet_move_trans; eassumption.
Qed.

Ltac hush :=
  intros; repeat autounfold with stages; repeat case_match;
  (split; [|split; [|split]]);
  first [reflexivity | intros Hrec; first [exact Hrec | discriminate Hrec]].

Lemma quiet_set_status_stopped s : quiet_move s (set_status stopped s).
Proof. hush. Qed.
Lemma quiet_set_status_idle s : quiet_move s (set_status idle s).
Proof. hush. Qed.
Lemma quiet_set_recordedChunks v s : quiet_move s (set_recordedChunks v s).
Proof. hush. Qed.
Lemma quiet_set_error v s : quiet_move s (set_error v s).
Proof. hush. Qed.
Lemma quiet_set_mediaRecorderRef v s : quiet_move s (set_mediaRecorderRef v s).
Proof. hush. Qed.
Lemma quiet_draw rms s : quiet_move s (draw rms s).
Proof. hush. Qed.
Lemma quiet_arm_timer now minutes s : quiet_move s (arm_timer now minutes s).
Proof. hush. Qed.
Lemma quiet_disarm_timer s : quiet_move s (disarm_timer s).
Proof. hush. Qed.
Lemma quiet_release_timer s : quiet_move s (release_timer s).
Proof. hush. Qed.
Lemma quiet_release_stream s : quiet_move s (release_stream s).
Proof. unfold release_stream, stop_tracks. hush. Qed.
Lemma quiet_cleanupAudioContext s : quiet_move s (cleanupAudioContext s).
Proof. hush. Qed.
Lemma quiet_stop_if_recording s : quiet_move s (stop_if_recording s).
Proof. hush. Qed.
Lemma quiet_deleteSegment i s : quiet_move s (deleteSegment i s).
Proof. hush. Qed.
Lemma quiet_reschedule tm s : quiet_move s (reschedule tm s).
Proof. hush. Qed.
Lemma quiet_ondataavailable id data s : quiet_move s (ondataavailable id data s).
Proof. hush. Qed.
Lemma quiet_clear_stop_pending id s : quiet_move s (clear_stop_pending id s).
Proof. hush. Qed.
Lemma quiet_onstop id now s : quiet_move s (onstop id now s).
Proof. unfold onstop. hush. Qed.
Lemma quiet_cancelAnimationFrame id s : quiet_move s (cancelAnimationFrame id s).
Proof. hush. Qed.

Lemma quiet_new_recorder r s :
  quiet_move s
    (set_recorders r
       (set_mediaRecorderRef (Some (next_handle s))
          (set_next_handle (Pos.succ (next_handle s)) s))).
Proof. hush. Qed.

Create HintDb quiet.
#[local] Hint Resolve quiet_set_status_stopped quiet_set_status_idle
  quiet_set_recordedChunks quiet_set_error quiet_set_mediaRecorderRef
  quiet_draw quiet_arm_timer quiet_disarm_timer quiet_release_timer
  quiet_release_stream quiet_cleanupAudioContext quiet_stop_if_recording
  quiet_deleteSegment quiet_reschedule quiet_ondataavailable
  quiet_clear_stop_pending quiet_onstop quiet_cancelAnimationFrame
  quiet_new_recorder : quiet.

Ltac quiets :=
  repeat first
    [ apply rtc_refl
    | eapply rtc_r; [|solve [auto with quiet]] ].

Lemma quiets_createNewSegment now s :
  rtc quiet_move s (state_of (createNewSegment now s)).
Proof.
  rewrite state_of_createNewSegment.
  destruct (streamRef _); [destruct (isTypeSupported _)|]; quiets.
Qed.

Lemma quiets_stopRecording s : rtc quiet_move s (stopRecording s).
Proof.
  rewrite stopRecording_unfold.
  destruct (status s); try apply rtc_refl.
  destruct (mediaRecorderRef s); quiets.
Qed.

(** Every event but the two parts of a start is quiet. *)
Lemma quiet_step (e : Event) (s : State) :
  match e with
  | CallStart _ _ _ _ | StartCalled _ _ | StartResumed _ _ _ => False
  | _ => True
  end ->
  quiet_move s (step e s).
Proof.
  intros Hquiet. apply rtc_quiet_move. destruct e; try destruct Hquiet; cbn [step].
  - apply quiets_stopRecording.
  - rewrite splitSegment_unfold. destruct (status s); try apply rtc_refl.
    pose proof (quiets_createNewSegment now s) as Hnew.
    destruct (createNewSegment now s) as [s1|err s1]; cbn [and_then state_of] in *.
    + etrans; [exact Hnew|]. quiets.
    + exact Hnew.
  - quiets.
  - rewrite resetRecording_unfold. quiets.
    destruct (status s); [|apply quiets_stopRecording|]; quiets.
  - destruct (due_timer id now s); [|apply rtc_refl].
    etrans; [|apply quiets_createNewSegment]. quiets.
  - destruct (_ || _); quiets.
  - destruct (stop_event_pending id s); quiets.
  - destruct (bool_decide _); quiets.
Qed.

(** A quiet event keeps the scheduler's bookkeeping. *)
Lemma timer_armed_quiet_step (e : Event) (s : State) :
  match e with
  | CallStart _ _ _ _ | StartCalled _ _ | StartResumed _ _ _ => False
  | _ => True
  end ->
  timer_armed s -> timer_armed (step e s).
Proof.
  intros Hquiet Harmed. destruct e; try destruct Hquiet; cbn [step].
  - apply timer_armed_stop, Harmed.
  - apply timer_armed_split, Harmed.
  - eapply timer_armed_ext; [| | | |exact Harmed]; reflexivity.
  - apply timer_armed_reset, Harmed.
  - destruct (due_timer id now s) as [tm|]; [|exact Harmed].
    eapply timer_armed_same; [apply createNewSegment_same|].
    apply timer_armed_reschedule, Harmed.
  - destruct (_ || _); [|exact Harmed].
    eapply timer_armed_same; [apply ondataavailable_same | exact Harmed].
  - destruct (stop_event_pending id s); [|exact Harmed].
    assert (Harmed1 : timer_armed (clear_stop_pending id s))
      by (eapply timer_armed_same; [apply clear_stop_pending_same | exact Harmed]).
    destruct (onstop_cases id now (clear_stop_pending id s))
      as [->|(b & e & data & ->)]; [exact Harmed1|].
    eapply timer_armed_ext; [| | | |exact Harmed1]; reflexivity.
  - destruct (bool_decide _); [|exact Harmed].
    eapply timer_armed_ext; [| | | |exact Harmed]; fields; reflexivity.
Qed.

(** The rest of a start records only in a format the browser accepts, and
    leaves the waiting calls alone. *)
Lemma resume_supported env now mimeType minutes (s : State) :
  status s <> recording -> mimeTypeRef s = mimeType ->
  status (startRecording_resume env now mimeType minutes s) = recording ->
  isTypeSupported (mimeTypeRef (startRecording_resume env now mimeType minutes s))
  = true.
Proof.
  intros Hst Hmime.
  rewrite startRecording_resume_unfold, startRecording_try_unfold.
  unfold and_then, startNewSegment.
  destruct (getUserMedia_error env), (audioContext_error env),
    (isTypeSupported mimeType) eqn:Hsup; fields;
    try (intros Hrec; destruct (Hst Hrec)).
  intros _. rewrite Hmime. exact Hsup.
Qed.

Lemma pending_starts_resume env now mimeType minutes (s : State) :
  pending_starts (startRecording_resume env now mimeType minutes s)
  = pending_starts s.
Proof.
  rewrite startRecording_resume_unfold, startRecording_try_unfold.
  unfold and_then, startNewSegment.
  destruct (getUserMedia_error env), (audioContext_error env),
    (isTypeSupported mimeType); fields; reflexivity.
Qed.

(** Any event keeps the scheduler's bookkeeping, as long as at most one
    call waits. *)
Lemma timer_armed_step (e : Event) (s : State) :
  timer_armed s -> pending_ok s -> timer_armed (step e s).
Proof.
  intros Harmed Hpending.
  destruct e; try (apply timer_armed_quiet_step; [exact I | exact Harmed]);
    cbn [step].
  - apply timer_armed_start, Harmed.
  - apply timer_armed_call, Harmed.
  - destruct Hpending as [Hnone|[Hst Hone]].
    { rewrite Hnone, lookup_nil. exact Harmed. }
    rewrite Hone.
    destruct call as [|call]; cbn [lookup list_lookup delete list_delete];
      [|rewrite ?lookup_nil; exact Harmed].
    destruct (timer_armed_at_rest s Harmed Hst) as [Href Htm].
    apply timer_armed_resume; [exact Hst | exact Href | exact Htm | reflexivity].
Qed.

(** One event that waits its turn keeps the bookkeeping of the scheduler
    and of the waiting call. *)
Lemma turn_ok_step (e : Event) (s : State) :
  in_turn e s -> turn_ok s -> turn_ok (step e s).
Proof.
  intros Hturn (Harmed & Hpending & Hsup).
  split; [apply timer_armed_step; assumption|].
  assert (Hquiet :
    match e with
    | CallStart _ _ _ _ | StartCalled _ _ | StartResumed _ _ _ => False
    | _ => True
    end ->
    pending_ok (step e s)
    /\ (status (step e s) = recording ->
        isTypeSupported (mimeTypeRef (step e s)) = true)).
  { intros Hq. destruct (quiet_step e s Hq) as (Hp & Hm & Hd & Hs). split.
    - unfold pending_ok. rewrite Hp, Hm, Hd.
      destruct Hpending as [Hnone|[Hst Hone]]; [left; exact Hnone | right].
      split; [intros Hrec; apply Hst, Hs, Hrec | exact Hone].
    - intros Hrec. rewrite Hm. apply Hsup, Hs, Hrec. }
  destruct e; try (apply Hquiet; exact I); cbn [step]; cbn [in_turn] in Hturn.
  - (* a whole start *)
    rewrite startRecording_by_resume.
    destruct (status s) eqn:Hst.
    2:{ split; [left; exact Hturn | intros _; apply Hsup; reflexivity]. }
    all: split; [left; rewrite pending_starts_resume; exact Hturn|].
    all: apply resume_supported; [|reflexivity].
    all: change (status s <> recording); rewrite Hst; discriminate.
  - (* the call *)
    unfold startRecording_call. destruct (status s) eqn:Hst.
    2:{ split; [left; exact Hturn | intros _; apply Hsup; reflexivity]. }
    all: split;
      [ right; split;
        [ change (status s <> recording); rewrite Hst; discriminate
        | cbn; rewrite Hturn; reflexivity ]
      | intros Hrec; change (status s = recording) in Hrec;
        rewrite Hst in Hrec; discriminate Hrec ].
  - (* the rest of the call *)
    destruct Hpending as [Hnone|[Hst Hone]].
    { rewrite Hnone. rewrite lookup_nil. split; [left; exact Hnone | exact Hsup]. }
    rewrite Hone. destruct call as [|call]; cbn [lookup list_lookup delete list_delete].
    2:{ rewrite ?lookup_nil. split; [|exact Hsup]. right. split; assumption. }
    split; [left; rewrite pending_starts_resume; reflexivity|].
    apply resume_supported; [exact Hst | reflexivity].
Qed.

Lemma reachable_in_turn_ok (s : State) : reachable_in_turn s -> turn_ok s.
Proof.
  induction 1 as [|e s Hs IH Hturn]; [|apply turn_ok_step; assumption].
  split; [split; reflexivity|]. split; [left; reflexivity | discriminate].
Qed.

Lemma reachable_in_turn_reachable (s : State) : reachable_in_turn s -> reachable s.
Proof. induction 1; constructor; assumption. Qed.

Lemma reachable_in_turn_run (es : list Event) (s : State) :
  reachable_in_turn s -> run_in_turn es s -> reachable_in_turn (run es s).
Proof.
  revert s. induction es as [|e es IH]; intros s Hs Hes; [exact Hs|].
  destruct Hes as [He Hes]. apply IH; [constructor; assumption | exact Hes].
Qed.

(** The delay of a timer is the delay asked for, cut to whole
    milliseconds, as long as that is below [2^31]. *)
Lemma timeout_ms_small (delay : Q) :
  (0 <= delay)%Q -> (delay < inject_Z (2 ^ 31))%Q ->
  timeout_ms delay = inject_Z (Qfloor delay).
Proof.
  intros Hpos Hsmall. unfold timeout_ms. cbv zeta.
  assert (Hnum : (0 <= Qnum delay)%Z).
  { unfold Qle in Hpos. cbn in Hpos. lia. }
  assert (Hfloor : Z.quot (Qnum delay) (Z.pos (Qden delay)) = Qfloor delay).
  { destruct delay as [n d]. cbn [Qnum Qden] in *. unfold Qfloor.
    apply Z.quot_div_nonneg; lia. }
  rewrite Hfloor.
  assert (H0 : (0 <= Qfloor delay)%Z).
  { change 0%Z with (Qfloor 0). apply Qfloor_resp_le, Hpos. }
  assert (H1 : (Qfloor delay < 2 ^ 31)%Z).
  { apply Qlt_floor in Hsmall || idtac.
    destruct (Z_lt_le_dec (Qfloor delay) (2 ^ 31)) as [Hlt|Hge]; [exact Hlt|].
    exfalso. apply (Qlt_not_le _ _ Hsmall).
    eapply Qle_trans; [|apply Qfloor_le].
    rewrite <- Zle_Qle. exact Hge. }
  rewrite Z.mod_small by lia.
  destruct (Z.ltb_spec (Qfloor delay) (2 ^ 31)); [|lia].
  rewrite Z.max_r by lia. reflexivity.
Qed.

End Scheduler.

(** X11. In a session in which no start is called while another still
    waits for its stream, no interval is armed and the timer ref is empty
    whenever the session is not recording, also after a start that
    failed. *)
Theorem no_timer_unless_recording `{Browser} (s : State) :
  reachable_in_turn s -> status s <> recording ->
  segmentTimerRef s = None /\ timers s = [].
Proof.
  intros Hs Hst. destruct (reachable_in_turn_ok s Hs) as (Harmed & _).
  apply timer_armed_at_rest; assumption.
Qed.

Lemma no_timer_unless_recording_witness :
  segmentTimerRef (@run webm_mp4_browser three_passes initial) = None
  /\ timers (@run webm_mp4_browser three_passes initial) = [].
Proof.
  apply (@no_timer_unless_recording webm_mp4_browser).
  - apply reachable_in_turn_run; [constructor|]. vm_compute. repeat split.
  - vm_compute. discriminate.
Defined.





Lemma recordedChunks_resume `{Browser} env now mimeType minutes (s : State) :
  recordedChunks (startRecording_resume env now mimeType minutes s)
  = recordedChunks s.
Proof.
  rewrite startRecording_resume_unfold, startRecording_try_unfold.
  unfold and_then, startNewSegment.
  destruct (getUserMedia_error env), (audioContext_error env),
    (isTypeSupported mimeType); fields; reflexivity.
Qed.

(** X13. Only three events change the segment list: a delete, a reset, and
    the [stop] event of a recorder, which appends at most one segment and
    leaves the segments before it as they were. *)
Theorem segments_change_only_by_three_events `{Browser} (e : Event) (s : State) :
  match e with
  | CallDelete _ | CallReset => True
  | RecorderStopped _ _ =>
      recordedChunks (step e s) = recordedChunks s
      \/ exists seg, recordedChunks (step e s) = (recordedChunks s ++ [seg])%list
  | _ => recordedChunks (step e s) = recordedChunks s
  end.
Proof.
  destruct e; cbn [step]; try exact I.
  - rewrite startRecording_by_resume.
    destruct (status s); [|reflexivity|]; rewrite recordedChunks_resume;
      reflexivity.
  - unfold startRecording_call. destruct (status s); reflexivity.
  - destruct (pending_starts s !! call) as [[mimeType minutes]|]; [|reflexivity].
    rewrite recordedChunks_resume. reflexivity.
  - rewrite stopRecording_unfold. destruct (status s); try reflexivity.
    destruct (mediaRecorderRef s); [|reflexivity]. fields. reflexivity.
  - rewrite splitSegment_unfold. destruct (status s); try reflexivity.
    destruct (createNewSegment_cases now s) as (s1 & Hsame & [->|[err ->]]);
      cbn [and_then state_of]; fields; apply Hsame.
  - destruct (due_timer id now s) as [tm|]; [|reflexivity]. fields. reflexivity.
  - destruct (_ || _); [|reflexivity]. fields. reflexivity.
  - destruct (stop_event_pending id s); [|left; reflexivity].
    destruct (onstop_cases id now (clear_stop_pending id s))
      as [->|(b & e & data & ->)]; fields; [left; reflexivity|].
    unfold add_chunk. destruct (pick_name _ _ _ _ _ _); eauto.
  - destruct (bool_decide _); [|reflexivity]. fields. reflexivity.
Qed.





(** ** Teardown *)

Section Teardown.
Context `{Browser}.

Lemma filter_others {A : Type} `{EqDecision A} (x : A) (l : list A) :
  (forall y, y ∈ l -> y = x) -> filter (λ y, y ≠ x) l = [].
Proof.
  intros Hall. apply filter_none. intros y Hy Hne. exact (Hne (Hall y Hy)).
Qed.

(** Cancelling what the refs hold cancels everything, when the refs hold
    everything. *)
Lemma telemetry_ok_frames (s : State) :
  telemetry_ok s ->
  match animationFrameIdRef s with
  | Some id => filter (λ f, f ≠ id) (frames s)
  | None => frames s
  end = [].
Proof.
  intros [Hf _]. destruct (animationFrameIdRef s) as [id|] eqn:Href.
  - apply filter_others. intros f Hin. specialize (Hf f Hin). congruence.
  - destruct (frames s) as [|f fs]; [reflexivity|]. discriminate (Hf f ltac:(left)).
Qed.

Lemma telemetry_ok_contexts (s : State) :
  telemetry_ok s ->
  match audioContextRef s with
  | Some c => filter (λ c', c' ≠ c) (open_contexts s)
  | None => open_contexts s
  end = [].
Proof.
  intros [_ Hc]. destruct (audioContextRef s) as [c|] eqn:Href.
  - apply filter_others. intros c' Hin. specialize (Hc c' Hin). congruence.
  - destruct (open_contexts s) as [|c cs]; [reflexivity|]. discriminate (Hc c ltac:(left)).
Qed.

Lemma streams_ok_streams (s : State) :
  streams_ok s ->
  match streamRef s with
  | Some st => filter (λ st', st' ≠ st) (live_streams s)
  | None => live_streams s
  end = [].
Proof.
  unfold streams_ok. intros Hs. destruct (streamRef s) as [st|] eqn:Href.
  - apply filter_others. intros st' Hin. specialize (Hs st' Hin). congruence.
  - destruct (live_streams s) as [|st sts]; [reflexivity|]. discriminate (Hs st ltac:(left)).
Qed.

Lemma stopRecording_tears_down (s : State) :
  telemetry_ok s -> streams_ok s ->
  status s = recording -> is_Some (mediaRecorderRef s) ->
  torn_down (stopRecording s).
Proof.
  intros Ht Hs Hst [id Href]. rewrite stopRecording_unfold, Hst, Href.
  unfold torn_down. fields.
  rewrite (telemetry_ok_frames s Ht), (telemetry_ok_contexts s Ht),
    (streams_ok_streams s Hs).
  repeat split.
Qed.

Lemma torn_down_ok (s : State) :
  torn_down s -> telemetry_ok s /\ streams_ok s.
Proof.
  intros (_ & Hf & _ & _ & _ & Hc & _ & Hl). unfold telemetry_ok, streams_ok.
  rewrite Hf, Hc, Hl. repeat split; intros x Hx; inversion Hx.
Qed.

Lemma resetRecording_tears_down (s : State) :
  telemetry_ok s -> streams_ok s ->
  (status s = recording -> is_Some (mediaRecorderRef s)) ->
  torn_down (resetRecording s).
Proof.
  intros Ht Hs Href. rewrite resetRecording_unfold.
  set (s1 := match status s with recording => stopRecording s | _ => _ end).
  assert (H1 : animationFrameIdRef s1 = None /\ frames s1 = []
               /\ analyserRef s1 = false /\ sourceNodeRef s1 = false
               /\ audioContextRef s1 = None /\ open_contexts s1 = []
               /\ streams_ok s1).
  { assert (Hclean : animationFrameIdRef (cleanupAudioContext s) = None
                     /\ frames (cleanupAudioContext s) = []
                     /\ analyserRef (cleanupAudioContext s) = false
                     /\ sourceNodeRef (cleanupAudioContext s) = false
                     /\ audioContextRef (cleanupAudioContext s) = None
                     /\ open_contexts (cleanupAudioContext s) = []
                     /\ streams_ok (cleanupAudioContext s)).
    { unfold streams_ok. fields.
      rewrite (telemetry_ok_frames s Ht), (telemetry_ok_contexts s Ht).
      repeat split. exact Hs. }
    subst s1. destruct (status s) eqn:Hst; try exact Hclean.
    destruct (stopRecording_tears_down s Ht Hs Hst (Href eq_refl))
      as (? & ? & ? & ? & ? & ? & Hsr & Hl).
    repeat split; try assumption.
    intros st Hin. rewrite Hl in Hin. inversion Hin. }
  clearbody s1. destruct H1 as (Ha & Hf & Han & Hso & Hac & Hoc & Hs1).
  unfold torn_down. fields. rewrite (streams_ok_streams s1 Hs1).
  repeat split; assumption.
Qed.

Lemma singleton_ok {A : Type} (x y : A) : y ∈ [x] -> Some x = Some y.
Proof. intros Hy. apply list_elem_of_singleton in Hy. congruence. Qed.

(** Once the microphone and the level meter are set up on a session that
    held none, the session holds exactly the new ones. *)
Lemma devices_set_up rms (s0 : State) :
  frames s0 = [] -> open_contexts s0 = [] -> live_streams s0 = [] ->
  forall s1,
    s1 = draw rms (connect_analyser (acquire_stream s0)) ->
    telemetry_ok s1 /\ streams_ok s1 /\ status s1 = status s0.
Proof.
  intros Hf Hoc Hl s1 ->. split; [split|split].
  - intros x. fields. cbv iota. fields. rewrite Hf. apply singleton_ok.
  - intros x. fields. rewrite Hoc. apply singleton_ok.
  - intros x. fields. rewrite Hl. apply singleton_ok.
  - fields. reflexivity.
Qed.

(** A start from a session that is torn down leaves good bookkeeping,
    however far it gets. *)
Lemma start_from_torn_down env now mimeType minutes (s : State) :
  status s <> recording -> torn_down s ->
  forall s',
    s' = startRecording_resume env now mimeType minutes s ->
    telemetry_ok s' /\ streams_ok s'
    /\ (status s' = recording -> is_Some (mediaRecorderRef s'))
    /\ (is_Some (getUserMedia_error env) -> torn_down s')
    /\ (getUserMedia_error env = None -> audioContext_error env = None ->
        isTypeSupported mimeType = true -> status s' = recording).
Proof.
  intros Hst (Ha & Hf & Han & Hso & Hac & Hoc & Hsr & Hl) s' ->.
  rewrite startRecording_resume_unfold, startRecording_try_unfold.
  destruct (getUserMedia_error env) as [err|].
  { unfold telemetry_ok, streams_ok, torn_down. fields.
    rewrite Ha, Hf, Han, Hso, Hac, Hoc, Hsr, Hl.
    repeat split; try (intros x Hx; inversion Hx); congruence. }
  destruct (audioContext_error env) as [err|].
  { unfold telemetry_ok, streams_ok. fields. rewrite Hf, Hoc, Hl.
    split; [|split; [|split; [|split]]].
    - split; intros x Hx; inversion Hx.
    - apply singleton_ok.
    - congruence.
    - intros [x [=]].
    - intros _ [=]. }
  unfold startNewSegment, and_then.
  match goal with
  | |- context [draw ?rms (connect_analyser (acquire_stream ?s0))] =>
      assert (Hs0 : frames s0 = [] /\ open_contexts s0 = []
                    /\ live_streams s0 = [] /\ status s0 = status s)
        by (repeat split; fields; assumption || reflexivity);
      destruct Hs0 as (Hf0 & Hoc0 & Hl0 & Hst0);
      pose proof (devices_set_up rms s0 Hf0 Hoc0 Hl0) as Hstarted;
      generalize dependent (draw rms (connect_analyser (acquire_stream s0)))
  end.
  intros s1 Hstarted.
  destruct (Hstarted s1 eq_refl) as ((Hf1 & Hc1) & Hs1 & Hst1).
  clear Hstarted.
  destruct (isTypeSupported mimeType).
  - split; [|split; [|split; [|split]]].
    + split; intros x; fields; [apply Hf1 | apply Hc1].
    + intros x. fields. apply Hs1.
    + intros _. repeat skip_recorders. autorewrite with devices. eauto.
    + intros [x [=]].
    + intros _ _ _. fields. reflexivity.
  - split; [|split; [|split; [|split]]].
    + split; intros x; fields; [apply Hf1 | apply Hc1].
    + intros x. fields. apply Hs1.
    + fields. congruence.
    + intros [x [=]].
    + intros _ _ [=].
Qed.

Lemma devices_ok_ext (s s' : State) :
  same_devices s' s -> status s' = status s ->
  (is_Some (mediaRecorderRef s) -> is_Some (mediaRecorderRef s')) ->
  devices_ok s -> devices_ok s'.
Proof.
  intros (Ha & Hf & Han & Hso & Hac & Hoc & Hsr & Hl) Hst Href.
  unfold devices_ok, telemetry_ok, streams_ok, torn_down.
  rewrite Ha, Hf, Han, Hso, Hac, Hoc, Hsr, Hl, Hst.
  intros (Ht & Hs & Hrec & Hdown). repeat split; try apply Ht; try apply Hs;
    try apply Hdown; auto.
Qed.

Lemma createNewSegment_devices now (s : State) :
  same_devices (state_of (createNewSegment now s)) s
  /\ status (state_of (createNewSegment now s)) = status s
  /\ (is_Some (mediaRecorderRef s) ->
      is_Some (mediaRecorderRef (state_of (createNewSegment now s)))).
Proof.
  split; [|split].
  - repeat split; fields; reflexivity.
  - fields. reflexivity.
  - intros Href. rewrite state_of_createNewSegment.
    destruct (streamRef _); [destruct (isTypeSupported _)|];
      repeat skip_recorders; autorewrite with devices;
      rewrite ?mediaRecorderRef_stop_if_recording; eauto.
Qed.

(** The rest of a clean start, from a session that is torn down. *)
Lemma devices_ok_resume env now mimeType minutes (s : State) :
  clean_setup env mimeType -> status s <> recording -> torn_down s ->
  devices_ok (startRecording_resume env now mimeType minutes s).
Proof.
  intros Hclean Hnot Hdown.
  destruct (start_from_torn_down env now mimeType minutes s Hnot Hdown _ eq_refl)
    as (Ht & Hs & Href & Hfail & Hgo).
  split; [exact Ht | split; [exact Hs | split; [exact Href|]]].
  destruct Hclean as [Herr | [Hctx Hsup]]; [intros _; exact (Hfail Herr)|].
  destruct (getUserMedia_error env) as [err|] eqn:Hgum;
    [ intros _; apply Hfail; eauto
    | intros Hidle; destruct Hidle; exact (Hgo eq_refl Hctx Hsup) ].
Qed.

(** A call that waits was made from a session that does not record. *)
Lemma pending_ok_lookup (s : State) call start :
  pending_ok s -> pending_starts s !! call = Some start ->
  status s <> recording.
Proof.
  intros [Hnone|[Hnot _]] Hlook; [|exact Hnot].
  rewrite Hnone, lookup_nil in Hlook. discriminate.
Qed.

Lemma startRecording_call_devices mimeType minutes (s : State) :
  same_devices (startRecording_call mimeType minutes s) s
  /\ status (startRecording_call mimeType minutes s) = status s
  /\ mediaRecorderRef (startRecording_call mimeType minutes s)
     = mediaRecorderRef s.
Proof.
  unfold startRecording_call.
  destruct (status s) eqn:Hst; repeat split; exact Hst.
Qed.

Lemma devices_ok_step (e : Event) (s : State) :
  clean_start e s -> pending_ok s -> devices_ok s -> devices_ok (step e s).
Proof.
  intros Hclean Hpending Hok. destruct e; cbn [step].
  - rewrite startRecording_by_resume.
    destruct (status s) eqn:Hst.
    2: { eapply devices_ok_ext; [| | |exact Hok]; [repeat split| |];
           fields; auto. }
    all: destruct Hok as (_ & _ & _ & Hdown);
      assert (Hnot : status s <> recording) by (rewrite Hst; discriminate);
      specialize (Hdown Hnot);
      apply devices_ok_resume; [exact Hclean | exact Hnot | exact Hdown].
  - destruct (startRecording_call_devices mimeType minutes s) as (Hd & Hst & Href).
    eapply devices_ok_ext; [exact Hd | exact Hst | rewrite Href; auto | exact Hok].
  - cbn [clean_start] in Hclean.
    destruct (pending_starts s !! call) as [[mimeType minutes]|] eqn:Hlook;
      [|exact Hok].
    pose proof (pending_ok_lookup s _ _ Hpending Hlook) as Hnot.
    destruct Hok as (_ & _ & _ & Hdown).
    apply devices_ok_resume; [exact Hclean | exact Hnot | exact (Hdown Hnot)].
  - destruct Hok as (Ht & Hs & Href & Hdown).
    destruct (status s) eqn:Hst.
    1,3: rewrite stopRecording_unfold, Hst;
      (split; [exact Ht | split; [exact Hs | split; [rewrite Hst; exact Href|]]]);
      rewrite Hst; exact Hdown.
    pose proof (stopRecording_tears_down s Ht Hs Hst (Href eq_refl)) as Hd.
    destruct (torn_down_ok _ Hd) as [Ht' Hs'].
    assert (Hstopped : status (stopRecording s) = stopped).
    { rewrite stopRecording_unfold, Hst. destruct (Href eq_refl) as [id ->].
      fields. reflexivity. }
    split; [exact Ht' | split; [exact Hs' | split]].
    + rewrite Hstopped. discriminate.
    + intros _. exact Hd.
  - rewrite splitSegment_unfold. destruct (status s) eqn:Hst; try exact Hok.
    destruct (createNewSegment_devices now s) as (Hd & Hst1 & Href).
    destruct (createNewSegment now s) as [s1|err s1];
      cbn [and_then state_of] in *.
    + eapply devices_ok_ext; [| | |exact Hok].
      * destruct Hd as (?&?&?&?&?&?&?&?). repeat split; fields; assumption.
      * fields. exact Hst1.
      * intros Hs. repeat skip_recorders. auto.
    + eapply devices_ok_ext; [exact Hd|exact Hst1|exact Href|exact Hok].
  - eapply devices_ok_ext; [| | |exact Hok]; [repeat split| |]; fields; auto.
  - destruct Hok as (Ht & Hs & Href & _).
    pose proof (resetRecording_tears_down s Ht Hs Href) as Hd.
    destruct (torn_down_ok _ Hd) as [Ht' Hs'].
    assert (Hidle : status (resetRecording s) = idle)
      by (rewrite resetRecording_unfold; fields; reflexivity).
    split; [exact Ht' | split; [exact Hs' | split]].
    + rewrite Hidle. discriminate.
    + intros _. exact Hd.
  - destruct (due_timer id now s) as [tm|]; [|exact Hok].
    destruct (createNewSegment_devices now (reschedule tm s)) as (Hd & Hst1 & Href).
    eapply devices_ok_ext; [exact Hd|exact Hst1|exact Href|].
    eapply devices_ok_ext; [| | |exact Hok]; [repeat split| |]; fields; auto.
  - destruct (_ || _); [|exact Hok].
    eapply devices_ok_ext; [| | |exact Hok]; [repeat split| |]; fields;
      try reflexivity.
    repeat skip_recorders. auto.
  - destruct (stop_event_pending id s); [|exact Hok].
    assert (Hok1 : devices_ok (clear_stop_pending id s)).
    { eapply devices_ok_ext; [| | |exact Hok]; [repeat split| |]; fields;
        try reflexivity.
      repeat skip_recorders. auto. }
    destruct (onstop_cases id now (clear_stop_pending id s))
      as [->|(b & e & data & ->)]; [exact Hok1|].
    eapply devices_ok_ext; [| | |exact Hok1]; [repeat split| |]; fields; auto.
  - destruct (bool_decide (id ∈ frames s)) eqn:Hin; [|exact Hok].
    apply bool_decide_eq_true in Hin.
    destruct Hok as (Ht & Hs & Href & Hdown).
    assert (Hrec : status s = recording).
    { destruct (status s) eqn:Hst; [|reflexivity|].
      all: assert (Hnot : status s <> recording) by (rewrite Hst; discriminate);
        destruct (Hdown ltac:(rewrite <- Hst; exact Hnot)) as (_ & Hf & _);
        rewrite Hf in Hin; inversion Hin. }
    destruct Ht as [Hfr Hctx].
    assert (Hone : filter (λ f, f ≠ id) (frames s) = []).
    { apply filter_others. intros f Hf. pose proof (Hfr f Hf) as H1.
      pose proof (Hfr id Hin) as H2. congruence. }
    split; [split|split; [|split]].
    + intros f. fields. cbv iota. fields. rewrite Hone.
      destruct (analyserRef s); [apply singleton_ok | intros Hx; inversion Hx].
    + intros c. fields. apply Hctx.
    + intros st. fields. apply Hs.
    + intros _. repeat skip_recorders. auto.
    + fields. intros Hnot. contradiction.
Qed.

Lemma reachable_clean_in_turn (s : State) :
  reachable_clean s -> reachable_in_turn s.
Proof. induction 1; constructor; assumption. Qed.

Lemma reachable_clean_ok (s : State) : reachable_clean s -> devices_ok s.
Proof.
  induction 1 as [|e s Hs IH Hturn Hclean].
  - split; [split|split; [|split]]; try (intros x Hx; inversion Hx).
    + discriminate.
    + intros _. repeat split.
  - destruct (reachable_in_turn_ok s (reachable_clean_in_turn s Hs))
      as (_ & Hpending & _).
    apply devices_ok_step; assumption.
Qed.

Lemma reachable_clean_reachable (s : State) : reachable_clean s -> reachable s.
Proof. induction 1; constructor; assumption. Qed.

Lemma reachable_clean_run (es : list Event) (s : State) :
  reachable_clean s -> run_clean es s -> reachable_clean (run es s).
Proof.
  revert s. induction es as [|e es IH]; intros s Hs Hes; [exact Hs|].
  destruct Hes as (Hturn & Hclean & Hes).
  apply IH; [constructor; assumption | exact Hes].
Qed.

Lemma resettable_resume env now mimeType minutes (s : State) :
  status s <> recording -> torn_down s ->
  telemetry_ok (startRecording_resume env now mimeType minutes s)
  /\ streams_ok (startRecording_resume env now mimeType minutes s)
  /\ (status (startRecording_resume env now mimeType minutes s) = recording ->
      is_Some (mediaRecorderRef (startRecording_resume env now mimeType minutes s))).
Proof.
  intros Hnot Hdown.
  destruct (start_from_torn_down env now mimeType minutes s Hnot Hdown _ eq_refl)
    as (Ht & Hs & Href & _); auto.
Qed.

(** Whatever one more event does, a start that fails half-way included,
    the bookkeeping [resetRecording] relies on still holds. *)
Lemma resettable_step (e : Event) (s : State) :
  pending_ok s -> devices_ok s ->
  telemetry_ok (step e s) /\ streams_ok (step e s)
  /\ (status (step e s) = recording -> is_Some (mediaRecorderRef (step e s))).
Proof.
  intros Hpending Hok.
  assert (Hclean : clean_start e s -> telemetry_ok (step e s) /\ streams_ok (step e s)
    /\ (status (step e s) = recording -> is_Some (mediaRecorderRef (step e s)))).
  { intros Hc. destruct (devices_ok_step e s Hc Hpending Hok) as (? & ? & ? & _).
    auto. }
  destruct e; try (apply Hclean; exact I); cbn [step].
  - rewrite startRecording_by_resume.
    destruct (status s) eqn:Hst.
    2: { destruct Hok as (Ht & Hs & Href & _).
         destruct Ht as [Hf Hc].
         split; [|split]; [split; intros x| intros x |]; fields;
           [apply Hf | apply Hc | apply Hs | exact Href]. }
    all: destruct Hok as (_ & _ & _ & Hdown);
      assert (Hnot : status s <> recording) by (rewrite Hst; discriminate);
      specialize (Hdown Hnot);
      apply resettable_resume; [exact Hnot | exact Hdown].
  - destruct (pending_starts s !! call) as [[mimeType minutes]|] eqn:Hlook.
    2:{ destruct Hok as (Ht & Hs & Href & _). auto. }
    pose proof (pending_ok_lookup s _ _ Hpending Hlook) as Hnot.
    destruct Hok as (_ & _ & _ & Hdown). specialize (Hdown Hnot).
    apply resettable_resume; [exact Hnot | exact Hdown].
Qed.

End Teardown.

(** X15. In a session in which no start is called while another still
    waits for its stream, and whose starts either are refused the
    microphone or go all the way, nothing outlives a recording: when the
    session is not recording, no animation frame is scheduled, no audio
    context is open, no stream is live, and the refs to them are empty. *)
Theorem devices_released_unless_recording `{Browser} (s : State) :
  reachable_clean s -> status s <> recording -> torn_down s.
Proof.
  intros Hs Hst. destruct (reachable_clean_ok s Hs) as (_ & _ & _ & Hdown).
  exact (Hdown Hst).
Qed.

Lemma devices_released_unless_recording_witness :
  torn_down (@run webm_mp4_browser three_passes initial).
Proof.
  apply (@devices_released_unless_recording webm_mp4_browser).
  - apply reachable_clean_run; [constructor|]. vm_compute.
    repeat first [split | right; split; reflexivity].
  - vm_compute. discriminate.
Defined.

(** X16. In a session in which no start is called while another still
    waits for its stream, and whose starts either are refused the
    microphone or go all the way, whatever the browser still holds is what
    the refs point at: every scheduled animation frame is the one in the
    frame ref, every open audio context the one in the context ref, every
    live stream the one in the stream ref; and a recording session has a
    recorder in its ref. *)
Theorem no_device_without_its_ref `{Browser} (s : State) :
  reachable_clean s ->
  (forall f, f ∈ frames s -> animationFrameIdRef s = Some f)
  /\ (forall c, c ∈ open_contexts s -> audioContextRef s = Some c)
  /\ (forall st, st ∈ live_streams s -> streamRef s = Some st)
  /\ (status s = recording -> is_Some (mediaRecorderRef s)).
Proof.
  intros Hs. destruct (reachable_clean_ok s Hs) as ((Hf & Hc) & Hst & Href & _).
  auto.
Qed.

Lemma no_device_without_its_ref_witness :
  let s := @run webm_mp4_browser (take 3 three_passes) initial in
  (forall f, f ∈ frames s -> animationFrameIdRef s = Some f)
  /\ (forall c, c ∈ open_contexts s -> audioContextRef s = Some c)
  /\ (forall st, st ∈ live_streams s -> streamRef s = Some st)
  /\ (status s = recording -> is_Some (mediaRecorderRef s)).
Proof.
  apply (@no_device_without_its_ref webm_mp4_browser).
  apply reachable_clean_run; [constructor|]. vm_compute.
  repeat first [split | right; split; reflexivity].
Defined.



Section Streams.
Context `{Browser}.

Lemma stream_move_fresh (s s' : State) :
  stream_move s s' -> handles_fresh s -> handles_fresh s'.
Proof.
  intros [Hle [[Hl _]|[(_ & stream & _ & Hl)|(_ & Hl & Hlt)]]] Hfresh st;
    rewrite Hl.
  - intros Hin. specialize (Hfresh st Hin). lia.
  - intros [_ Hin]%list_elem_of_filter. specialize (Hfresh st Hin). lia.
  - intros [->|Hin]%elem_of_cons; [exact Hlt|].
    specialize (Hfresh st Hin). lia.
Qed.

Lemma stream_move_orphaned (st : positive) (s s' : State) :
  stream_move s s' -> handles_fresh s -> orphaned st s -> orphaned st s'.
Proof.
  intros [Hle [[Hl Hr]|[(Hr & stream & Hs & Hl)|(Hr & Hl & Hlt)]]] Hfresh [Hin Href];
    unfold orphaned; rewrite Hl, Hr; split; try assumption; try discriminate.
  - apply list_elem_of_filter. split; [congruence | exact Hin].
  - right. exact Hin.
  - intros [= <-]. specialize (Hfresh _ Hin). lia.
Qed.

Lemma rtc_stream_move_fresh (s s' : State) :
  rtc stream_move s s' -> handles_fresh s -> handles_fresh s'.
Proof. induction 1; eauto using stream_move_fresh. Qed.

Lemma rtc_stream_move_orphaned (st : positive) (s s' : State) :
  rtc stream_move s s' -> handles_fresh s -> orphaned st s -> orphaned st s'.
Proof.
  induction 1; [auto|]. intros Hfresh Horph.
  eauto using stream_move_fresh, stream_move_orphaned.
Qed.

(** A step that leaves the streams alone and gives out handles at most. *)
Ltac aside :=
  intros; repeat autounfold with stages; repeat case_match;
  (split; [cbn; lia | left; split; reflexivity]).

Lemma move_set_status v s : stream_move s (set_status v s).
Proof. aside. Qed.
Lemma move_set_recordedChunks v s : stream_move s (set_recordedChunks v s).
Proof. aside. Qed.
Lemma move_set_error v s : stream_move s (set_error v s).
Proof. aside. Qed.
Lemma move_set_mimeTypeRef v s : stream_move s (set_mimeTypeRef v s).
Proof. aside. Qed.
Lemma move_set_segmentDurationRef v s : stream_move s (set_segmentDurationRef v s).
Proof. aside. Qed.
Lemma move_set_mediaRecorderRef v s : stream_move s (set_mediaRecorderRef v s).
Proof. aside. Qed.
Lemma move_set_pending_starts v s : stream_move s (set_pending_starts v s).
Proof. aside. Qed.
Lemma move_connect_analyser s : stream_move s (connect_analyser s).
Proof. aside. Qed.
Lemma move_draw rms s : stream_move s (draw rms s).
Proof. aside. Qed.
Lemma move_arm_timer now minutes s : stream_move s (arm_timer now minutes s).
Proof. aside. Qed.
Lemma move_disarm_timer s : stream_move s (disarm_timer s).
Proof. aside. Qed.
Lemma move_release_timer s : stream_move s (release_timer s).
Proof. aside. Qed.
Lemma move_cleanupAudioContext s : stream_move s (cleanupAudioContext s).
Proof. aside. Qed.
Lemma move_stop_if_recording s : stream_move s (stop_if_recording s).
Proof. aside. Qed.
Lemma move_deleteSegment i s : stream_move s (deleteSegment i s).
Proof. aside. Qed.
Lemma move_reschedule tm s : stream_move s (reschedule tm s).
Proof. aside. Qed.
Lemma move_ondataavailable id data s : stream_move s (ondataavailable id data s).
Proof. aside. Qed.
Lemma move_clear_stop_pending id s : stream_move s (clear_stop_pending id s).
Proof. aside. Qed.
Lemma move_onstop id now s : stream_move s (onstop id now s).
Proof. aside. Qed.
Lemma move_cancelAnimationFrame id s : stream_move s (cancelAnimationFrame id s).
Proof. aside. Qed.

Lemma move_new_recorder r s :
  stream_move s
    (set_recorders r
       (set_mediaRecorderRef (Some (next_handle s))
          (set_next_handle (Pos.succ (next_handle s)) s))).
Proof. aside. Qed.

Lemma move_acquire_stream s : stream_move s (acquire_stream s).
Proof.
  split; [cbn; lia|]. right. right. repeat split. cbn. lia.
Qed.

Lemma move_release_stream s : rtc stream_move s (release_stream s).
Proof.
  unfold release_stream. destruct (streamRef s) as [stream|] eqn:Href;
    [|reflexivity].
  apply rtc_once. split; [cbn; lia|]. right. left. split; [reflexivity|].
  exists stream. split; [exact Href | reflexivity].
Qed.

Create HintDb streams.
#[local] Hint Resolve move_set_status move_set_recordedChunks move_set_error
  move_set_mimeTypeRef move_set_segmentDurationRef move_set_mediaRecorderRef
  move_connect_analyser move_draw move_arm_timer move_disarm_timer
  move_release_timer move_cleanupAudioContext move_stop_if_recording
  move_deleteSegment move_reschedule move_ondataavailable
  move_clear_stop_pending move_onstop move_cancelAnimationFrame
  move_new_recorder move_acquire_stream move_set_pending_starts : streams.

(** Follows an operation step by step, from its last step back. *)
Ltac moves :=
  repeat first
    [ apply rtc_refl
    | eapply rtc_trans; [|apply move_release_stream]
    | eapply rtc_r; [|solve [auto with streams]] ].

Lemma moves_createNewSegment now s :
  rtc stream_move s (state_of (createNewSegment now s)).
Proof.
  rewrite state_of_createNewSegment.
  destruct (streamRef _); [destruct (isTypeSupported _)|]; moves.
Qed.

Lemma moves_stopRecording s : rtc stream_move s (stopRecording s).
Proof.
  rewrite stopRecording_unfold.
  destruct (status s); try apply rtc_refl.
  destruct (mediaRecorderRef s); moves.
Qed.

Lemma moves_startRecording env now mimeType minutes s :
  rtc stream_move s (startRecording env now mimeType minutes s).
Proof.
  rewrite startRecording_unfold, startRecording_try_unfold.
  unfold and_then, startNewSegment.
  destruct (status s), (getUserMedia_error env), (audioContext_error env),
    (isTypeSupported mimeType); moves.
Qed.

Lemma moves_resume env now mimeType minutes s :
  rtc stream_move s (startRecording_resume env now mimeType minutes s).
Proof.
  rewrite startRecording_resume_unfold, startRecording_try_unfold.
  unfold and_then, startNewSegment.
  destruct (getUserMedia_error env), (audioContext_error env),
    (isTypeSupported mimeType); moves.
Qed.

Lemma moves_step (e : Event) (s : State) : rtc stream_move s (step e s).
Proof.
  destruct e; cbn [step].
  - apply moves_startRecording.
  - unfold startRecording_call. destruct (status s); moves.
  - destruct (pending_starts s !! call) as [[mimeType minutes]|];
      [|apply rtc_refl].
    etrans; [|apply moves_resume]. moves.
  - apply moves_stopRecording.
  - rewrite splitSegment_unfold. destruct (status s); try apply rtc_refl.
    pose proof (moves_createNewSegment now s) as Hnew.
    destruct (createNewSegment now s) as [s1|err s1]; cbn [and_then state_of] in *.
    + etrans; [exact Hnew|]. moves.
    + exact Hnew.
  - moves.
  - rewrite resetRecording_unfold. moves.
    destruct (status s); [|apply moves_stopRecording|]; moves.
  - destruct (due_timer id now s); [|apply rtc_refl].
    etrans; [|apply moves_createNewSegment]. moves.
  - destruct (_ || _); moves.
  - destruct (stop_event_pending id s); moves.
  - destruct (bool_decide _); moves.
Qed.

Lemma moves_run (es : list Event) (s : State) : rtc stream_move s (run es s).
Proof.
  revert s. induction es as [|e es IH]; intros s; [apply rtc_refl|].
  etrans; [apply moves_step | apply IH].
Qed.

Lemma reachable_fresh (s : State) : reachable s -> handles_fresh s.
Proof.
  induction 1 as [|e s Hs IH].
  - intros st Hin. inversion Hin.
  - eapply rtc_stream_move_fresh; [apply moves_step | exact IH].
Qed.

End Streams.

(** X18. A stream that is live while the stream ref holds another, or none,
    is never stopped: whatever the session does next, stop and reset
    included, the stream stays live and outside the ref. *)
Theorem orphaned_stream_is_never_stopped `{Browser}
    (st : positive) (es : list Event) (s : State) :
  reachable s -> st ∈ live_streams s -> streamRef s <> Some st ->
  st ∈ live_streams (run es s) /\ streamRef (run es s) <> Some st.
Proof.
  intros Hs Hin Href.
  apply (rtc_stream_move_orphaned st s (run es s)); [apply moves_run | |].
  - apply reachable_fresh, Hs.
  - split; assumption.
Qed.

Lemma orphaned_stream_is_never_stopped_witness :
  let s := @run webm_mp4_browser
             [CallStart microphone_granted (at_2024_01_01 10 0 0)
                "audio/ogg;codecs=opus" 20;
              CallStart microphone_granted (at_2024_01_01 10 1 0)
                "audio/webm;codecs=opus" 20] initial in
  1%positive ∈ live_streams (@run webm_mp4_browser [CallStop; CallReset] s)
  /\ streamRef (@run webm_mp4_browser [CallStop; CallReset] s) <> Some 1%positive.
Proof.
  apply (@orphaned_stream_is_never_stopped webm_mp4_browser).
  - apply reachable_run, reachable_initial.
  - vm_compute. right. left.
  - vm_compute. discriminate.
Defined.

(** A start that is granted the microphone takes the stream under the next
    free handle and keeps it, wherever the start ends. *)
Lemma start_takes_stream `{Browser} env now mimeType minutes (s : State) :
  status s <> recording -> getUserMedia_error env = None ->
  streamRef (startRecording env now mimeType minutes s) = Some (next_handle s)
  /\ live_streams (startRecording env now mimeType minutes s)
     = next_handle s :: live_streams s.
Proof.
  intros Hst Hgum.
  rewrite startRecording_unfold, startRecording_try_unfold, Hgum.
  unfold and_then, startNewSegment.
  destruct (status s); [|contradiction|];
    destruct (audioContext_error env), (isTypeSupported mimeType);
    split; fields; reflexivity.
Qed.

(** A start that fails leaves the status as it was. *)
Lemma failed_start_keeps_status `{Browser} env now mimeType minutes (s : State) :
  is_Some (getUserMedia_error env) \/ is_Some (audioContext_error env)
  \/ isTypeSupported mimeType = false ->
  status (startRecording env now mimeType minutes s) = status s.
Proof.
  intros Hfail.
  rewrite startRecording_unfold, startRecording_try_unfold.
  unfold and_then, startNewSegment.
  destruct (status s) eqn:Hst; [|exact Hst|];
    destruct (getUserMedia_error env), (audioContext_error env),
      (isTypeSupported mimeType);
    try (fields; exact Hst);
    destruct Hfail as [[? [=]]|[[? [=]]|[=]]].
Qed.



Section Takes.
Context `{Browser}.

Lemma same_take_refl mr : same_take mr mr.
Proof. repeat split. Qed.

Lemma same_take_trans mr1 mr2 mr3 :
  same_take mr1 mr2 -> same_take mr2 mr3 -> same_take mr1 mr3.
Proof. intros (?&?&?) (?&?&?). repeat split; congruence. Qed.

Lemma recorder_move_refl s : recorder_move s s.
Proof.
  intros Hfresh. split; [exact Hfresh|]. split; [lia|].
  intros id mr Hmr. exists mr. split; [exact Hmr | apply same_take_refl].
Qed.

Lemma recorder_move_trans s1 s2 s3 :
  recorder_move s1 s2 -> recorder_move s2 s3 -> recorder_move s1 s3.
Proof.
  intros H12 H23 Hfresh. destruct (H12 Hfresh) as (Hf2 & Hle2 & Hk2).
  destruct (H23 Hf2) as (Hf3 & Hle3 & Hk3).
  split; [exact Hf3|]. split; [lia|].
  intros id mr Hmr. destruct (Hk2 id mr Hmr) as (mr2 & Hmr2 & Hs2).
  destruct (Hk3 id mr2 Hmr2) as (mr3 & Hmr3 & Hs3).
  exists mr3. split; [exact Hmr3 | eapply same_take_trans; eassumption].
Qed.

Lemma rtc_recorder_move s s' : rtc recorder_move s s' -> recorder_move s s'.
Proof.
  induction 1; [apply recorder_move_refl|].
  eapply recorder_move_trans; eassumption.
Qed.

(** A step that leaves the recorders alone. *)
Lemma recorder_move_aside s s' :
  recorders s' = recorders s -> (next_handle s <= next_handle s')%positive ->
  recorder_move s s'.
Proof.
  intros Hr Hle Hfresh. unfold recorders_fresh. rewrite Hr.
  split; [|split; [exact Hle|]].
  - intros id Hid. specialize (Hfresh id Hid). lia.
  - intros id mr Hmr. exists mr. split; [exact Hmr | apply same_take_refl].
Qed.

(** A step that writes the recorder [id] anew, with what it held. *)
Lemma recorder_move_rewrite id mr' s s' :
  recorders s' = <[id := mr']> (recorders s) ->
  (forall mr, recorders s !! id = Some mr -> same_take mr mr') ->
  is_Some (recorders s !! id) ->
  (next_handle s <= next_handle s')%positive ->
  recorder_move s s'.
Proof.
  intros Hr Hsame Hthere Hle Hfresh. unfold recorders_fresh. rewrite Hr.
  split; [|split; [exact Hle|]].
  - intros id' Hid'. destruct (decide (id' = id)) as [->|Hne].
    + specialize (Hfresh id Hthere). lia.
    + rewrite lookup_insert_ne in Hid' by congruence.
      specialize (Hfresh id' Hid'). lia.
  - intros id' mr Hmr. destruct (decide (id' = id)) as [->|Hne].
    + exists mr'. rewrite lookup_insert_eq. split; [reflexivity | apply Hsame, Hmr].
    + exists mr. rewrite lookup_insert_ne by congruence.
      split; [exact Hmr | apply same_take_refl].
Qed.

Ltac beside :=
  intros; apply recorder_move_aside;
  repeat autounfold with stages; repeat case_match;
  first [reflexivity | cbn; lia].

Lemma take_set_status v s : recorder_move s (set_status v s).
Proof. beside. Qed.
Lemma take_set_recordedChunks v s : recorder_move s (set_recordedChunks v s).
Proof. beside. Qed.
Lemma take_set_error v s : recorder_move s (set_error v s).
Proof. beside. Qed.
Lemma take_set_mimeTypeRef v s : recorder_move s (set_mimeTypeRef v s).
Proof. beside. Qed.
Lemma take_set_segmentDurationRef v s : recorder_move s (set_segmentDurationRef v s).
Proof. beside. Qed.
Lemma take_set_mediaRecorderRef v s : recorder_move s (set_mediaRecorderRef v s).
Proof. beside. Qed.
Lemma take_acquire_stream s : recorder_move s (acquire_stream s).
Proof. beside. Qed.
Lemma take_connect_analyser s : recorder_move s (connect_analyser s).
Proof. beside. Qed.
Lemma take_draw rms s : recorder_move s (draw rms s).
Proof. beside. Qed.
Lemma take_arm_timer now minutes s : recorder_move s (arm_timer now minutes s).
Proof. beside. Qed.
Lemma take_disarm_timer s : recorder_move s (disarm_timer s).
Proof. beside. Qed.
Lemma take_release_timer s : recorder_move s (release_timer s).
Proof. beside. Qed.
Lemma take_set_pending_starts v s : recorder_move s (set_pending_starts v s).
Proof. beside. Qed.
Lemma take_release_stream s : recorder_move s (release_stream s).
Proof. unfold release_stream, stop_tracks. beside. Qed.
Lemma take_cleanupAudioContext s : recorder_move s (cleanupAudioContext s).
Proof. beside. Qed.
Lemma take_deleteSegment i s : recorder_move s (deleteSegment i s).
Proof. beside. Qed.
Lemma take_reschedule tm s : recorder_move s (reschedule tm s).
Proof. beside. Qed.
Lemma take_onstop id now s : recorder_move s (onstop id now s).
Proof. unfold onstop. beside. Qed.
Lemma take_cancelAnimationFrame id s : recorder_move s (cancelAnimationFrame id s).
Proof. beside. Qed.

Lemma take_recorder_stop id s : recorder_move s (recorder_stop id s).
Proof.
  unfold recorder_stop. destruct (recorders s !! id) as [mr|] eqn:Hmr;
    [|apply recorder_move_refl].
  eapply recorder_move_rewrite; [reflexivity| |eauto|cbn; lia].
  intros mr0 Hmr0. rewrite Hmr in Hmr0. injection Hmr0 as <-. repeat split.
Qed.

Lemma take_stop_if_recording s : recorder_move s (stop_if_recording s).
Proof.
  unfold stop_if_recording. destruct (mediaRecorderRef s) as [id|];
    [|apply recorder_move_refl].
  destruct (recorder_is_recording id s);
    [apply take_recorder_stop | apply recorder_move_refl].
Qed.

Lemma take_clear_stop_pending id s : recorder_move s (clear_stop_pending id s).
Proof.
  unfold clear_stop_pending. destruct (recorders s !! id) as [mr|] eqn:Hmr;
    [|apply recorder_move_refl].
  eapply recorder_move_rewrite; [reflexivity| |eauto|cbn; lia].
  intros mr0 Hmr0. rewrite Hmr in Hmr0. injection Hmr0 as <-. repeat split.
Qed.

(** A new recorder takes the next free handle, so it replaces none. *)
Lemma take_new_recorder mr s :
  recorder_move s
    (set_recorders (<[next_handle s := mr]> (recorders s))
       (set_mediaRecorderRef (Some (next_handle s))
          (set_next_handle (Pos.succ (next_handle s)) s))).
Proof.
  intros Hfresh. split; [|split; [cbn; lia|]].
  - intros id Hid. cbn in *. destruct (decide (id = next_handle s)) as [->|Hne].
    + lia.
    + rewrite lookup_insert_ne in Hid by congruence.
      specialize (Hfresh id Hid). lia.
  - intros id mr0 Hmr0. exists mr0. split; [|apply same_take_refl]. cbn.
    rewrite lookup_insert_ne; [exact Hmr0|].
    intros <-. specialize (Hfresh _ (mk_is_Some _ _ Hmr0)). lia.
Qed.

Create HintDb takes.
#[local] Hint Resolve take_set_status take_set_recordedChunks take_set_error
  take_set_mimeTypeRef take_set_segmentDurationRef take_set_mediaRecorderRef
  take_acquire_stream take_connect_analyser take_draw take_arm_timer
  take_disarm_timer take_release_timer take_release_stream
  take_cleanupAudioContext take_deleteSegment take_reschedule take_onstop
  take_cancelAnimationFrame take_stop_if_recording take_clear_stop_pending
  take_new_recorder take_set_pending_starts : takes.

Ltac takes :=
  repeat first
    [ apply rtc_refl
    | eapply rtc_r; [|solve [auto with takes]] ].

Lemma takes_createNewSegment now s :
  rtc recorder_move s (state_of (createNewSegment now s)).
Proof.
  rewrite state_of_createNewSegment.
  destruct (streamRef _); [destruct (isTypeSupported _)|]; takes.
Qed.

Lemma takes_stopRecording s : rtc recorder_move s (stopRecording s).
Proof.
  rewrite stopRecording_unfold.
  destruct (status s); try apply rtc_refl.
  destruct (mediaRecorderRef s); takes.
Qed.

Lemma takes_startRecording env now mimeType minutes s :
  rtc recorder_move s (startRecording env now mimeType minutes s).
Proof.
  rewrite startRecording_unfold, startRecording_try_unfold.
  unfold and_then, startNewSegment.
  destruct (status s), (getUserMedia_error env), (audioContext_error env),
    (isTypeSupported mimeType); takes.
Qed.

Lemma takes_resume env now mimeType minutes s :
  rtc recorder_move s (startRecording_resume env now mimeType minutes s).
Proof.
  rewrite startRecording_resume_unfold, startRecording_try_unfold.
  unfold and_then, startNewSegment.
  destruct (getUserMedia_error env), (audioContext_error env),
    (isTypeSupported mimeType); takes.
Qed.

(** Every event but the arrival of data records nothing. *)
Lemma takes_step (e : Event) (s : State) :
  (forall id data, e <> DataAvailable id data) ->
  rtc recorder_move s (step e s).
Proof.
  intros Hnot. destruct e; cbn [step].
  - apply takes_startRecording.
  - unfold startRecording_call. destruct (status s); takes.
  - destruct (pending_starts s !! call) as [[mimeType minutes]|];
      [|apply rtc_refl].
    etrans; [|apply takes_resume]. takes.
  - apply takes_stopRecording.
  - rewrite splitSegment_unfold. destruct (status s); try apply rtc_refl.
    pose proof (takes_createNewSegment now s) as Hnew.
    destruct (createNewSegment now s) as [s1|err s1]; cbn [and_then state_of] in *.
    + etrans; [exact Hnew|]. takes.
    + exact Hnew.
  - takes.
  - rewrite resetRecording_unfold. takes.
    destruct (status s); [|apply takes_stopRecording|]; takes.
  - destruct (due_timer id now s); [|apply rtc_refl].
    etrans; [|apply takes_createNewSegment]. takes.
  - destruct (Hnot id data eq_refl).
  - destruct (stop_event_pending id s); takes.
  - destruct (bool_decide _); takes.
Qed.

Lemma data_event_or_not (e : Event) :
  (exists id data, e = DataAvailable id data)
  \/ (forall id data, e <> DataAvailable id data).
Proof. destruct e; eauto; right; discriminate. Qed.

(** What the arrival of data does to the recorders. *)
Lemma ondataavailable_recorders id data s :
  recorders (ondataavailable id data s)
  = match recorders s !! id with
    | Some mr =>
        if (0 <? blob_size data)%nat
        then <[id := {| mr_state := mr_state mr; mr_mimeType := mr_mimeType mr;
                        recorderChunks := recorderChunks mr ++ [data];
                        mr_started := mr_started mr;
                        mr_stop_pending := mr_stop_pending mr |}]> (recorders s)
        else recorders s
    | None => recorders s
    end.
Proof.
  unfold ondataavailable. destruct (recorders s !! id); [|reflexivity].
  destruct (0 <? blob_size data)%nat; reflexivity.
Qed.

Lemma next_handle_ondataavailable id data s :
  next_handle (ondataavailable id data s) = next_handle s.
Proof.
  unfold ondataavailable. destruct (recorders s !! id); [|reflexivity].
  destruct (0 <? blob_size data)%nat; reflexivity.
Qed.

Lemma step_recorders_fresh (e : Event) (s : State) :
  recorders_fresh s -> recorders_fresh (step e s).
Proof.
  intros Hfresh.
  destruct (data_event_or_not e) as [(id & data & ->)|Hnot].
  - cbn [step]. destruct (_ || _); [|exact Hfresh].
    intros id'. rewrite ondataavailable_recorders, next_handle_ondataavailable.
    destruct (recorders s !! id) as [mr|] eqn:Hmr; [|apply Hfresh].
    destruct (0 <? blob_size data)%nat; [|apply Hfresh].
    destruct (decide (id' = id)) as [->|Hne].
    + intros _. apply Hfresh. eauto.
    + rewrite lookup_insert_ne by congruence. apply Hfresh.
  - apply (rtc_recorder_move s (step e s)); [|exact Hfresh].
    apply takes_step, Hnot.
Qed.

Lemma reachable_recorders_fresh (s : State) : reachable s -> recorders_fresh s.
Proof.
  induction 1 as [|e s Hs IH].
  - intros id [mr Hmr]. cbn in Hmr. rewrite lookup_empty in Hmr. discriminate.
  - apply step_recorders_fresh, IH.
Qed.

End Takes.

(** X20. The chunks of a recorder are its own.  Once a recorder exists it
    stays, with its format and its start; no event changes its chunks but
    the arrival of data for this very recorder, which appends the one chunk
    that arrived, when that is not empty. *)
Theorem chunks_stay_with_their_recorder `{Browser}
    (e : Event) (s : State) (id : positive) (mr : MediaRecorder) :
  reachable s -> recorders s !! id = Some mr ->
  exists mr',
    recorders (step e s) !! id = Some mr'
    /\ mr_mimeType mr' = mr_mimeType mr
    /\ mr_started mr' = mr_started mr
    /\ (recorderChunks mr' = recorderChunks mr
        \/ exists data,
             e = DataAvailable id data /\ (0 < blob_size data)%nat
             /\ recorderChunks mr' = (recorderChunks mr ++ [data])%list).
Proof.
  intros Hs Hmr. pose proof (reachable_recorders_fresh s Hs) as Hfresh.
  destruct (data_event_or_not e) as [(id' & data & ->)|Hnot].
  - cbn [step]. destruct (_ || _); [|exists mr; auto].
    rewrite ondataavailable_recorders.
    destruct (decide (id' = id)) as [->|Hne].
    + rewrite Hmr. destruct (0 <? blob_size data)%nat eqn:Hsize.
      * rewrite lookup_insert_eq. eexists. split; [reflexivity|].
        cbn. apply Nat.ltb_lt in Hsize. eauto 10.
      * exists mr. auto.
    + exists mr. split; [|auto].
      destruct (recorders s !! id'); [|exact Hmr].
      destruct (0 <? blob_size data)%nat; [|exact Hmr].
      rewrite lookup_insert_ne by congruence. exact Hmr.
  - destruct (rtc_recorder_move s (step e s)) as (_ & _ & Hkeep); [|exact Hfresh|].
    { apply takes_step, Hnot. }
    destruct (Hkeep id mr Hmr) as (mr' & Hmr' & Ht & Hst & Hc).
    exists mr'. auto.
Qed.

Lemma chunks_stay_with_their_recorder_witness :
  let s := @run webm_mp4_browser (take 1 three_passes) initial in
  let mr := {| mr_state := rs_recording;
               mr_mimeType := "audio/webm;codecs=opus";
               recorderChunks := []; mr_started := at_2024_01_01 10 0 0;
               mr_stop_pending := false |} in
  let e := DataAvailable 4 one_byte in
  exists mr',
    recorders (@step webm_mp4_browser e s) !! 4%positive = Some mr'
    /\ mr_mimeType mr' = mr_mimeType mr
    /\ mr_started mr' = mr_started mr
    /\ (recorderChunks mr' = recorderChunks mr
        \/ exists data,
             e = DataAvailable 4 data /\ (0 < blob_size data)%nat
             /\ recorderChunks mr' = (recorderChunks mr ++ [data])%list).
Proof.
  apply (@chunks_stay_with_their_recorder webm_mp4_browser).
  - apply reachable_run, reachable_initial.
  - vm_compute. reflexivity.
Defined.

End Conduct.

(** ** The recorder's view *)

Section View.
Import JS Display.

Lemma tokens_formatTime (seconds : nat) :
  tokens None (formatTime seconds)
  = [TNum (seconds / 60); TChr ":"; TNum (seconds mod 60)].
Proof.
  unfold formatTime. cbv zeta.
  rewrite tokens_padStart_toString.
  rewrite append_String, append_Empty. cbn [tokens].
  change (digit_value ":") with (@None nat). cbn [flush app].
  rewrite <- (append_Empty_r (padStart 2 "0" (toString (seconds mod 60)))).
  rewrite tokens_padStart_toString. reflexivity.
Qed.

(** X21. The elapsed time shown determines the elapsed time: two different
    counts of seconds are never shown the same. *)
Theorem formatTime_shows_the_count (a b : nat) :
  formatTime a = formatTime b -> a = b.
Proof.
  intros Heq. apply (f_equal (tokens None)) in Heq.
  rewrite !tokens_formatTime in Heq.
  pose proof (Nat.div_mod_eq a 60) as Ha. pose proof (Nat.div_mod_eq b 60) as Hb.
  congruence.
Qed.

Lemma formatTime_shows_the_count_witness :
  formatTime 75 = "01:15" /\ 75%nat = 75%nat.
Proof.
  split; [reflexivity | apply formatTime_shows_the_count; reflexivity].
Defined.

Lemma height_bounds (a reactivity random : Q) :
  (a <= 1)%Q -> (0 <= reactivity <= 1)%Q -> (0 <= random < 1)%Q ->
  (4 <= Qmax 4
          (if Qlt_le_dec 0.05 a
           then 4 + (36 - 4) * a * reactivity + (random - 0.5) * 6 * a
           else 4 + (36 - 4) * a * reactivity)
   <= 39)%Q.
Proof.
  intros Ha [Hr0 Hr1] [Hn0 Hn1]. split; [apply Q.le_max_l|].
  apply Q.max_lub; [discriminate|].
  destruct (Qlt_le_dec 0.05 a) as [Hloud|Hquiet].
  - nra.
  - destruct (Qlt_le_dec a 0); nra.
Qed.

Lemma barHeight_bounds (volume random : Q) (i : nat) :
  (i < barCount)%nat -> (0 <= random < 1)%Q ->
  (4 <= barHeight volume random i <= 39)%Q.
Proof.
  intros Hi Hrandom. unfold barHeight. cbv zeta.
  apply height_bounds; [apply Q.le_min_l | | exact Hrandom].
  unfold barCount in Hi.
  do 9 (destruct i as [|i]; [split; vm_compute; discriminate|]). lia.
Qed.

(** X22. The level meter always draws nine bars, each between the base
    height 4 and 39, so inside its container of height 40, whatever the
    volume and the jitter. *)
Theorem bars_fit_the_meter (volume : Q) (random : nat -> Q) :
  (forall i, (0 <= random i < 1)%Q) ->
  length (getBarHeights volume random) = 9%nat
  /\ Forall (fun height => (4 <= height <= 39)%Q) (getBarHeights volume random).
Proof.
  intros Hrandom. unfold getBarHeights. split.
  - rewrite length_map, length_seq. reflexivity.
  - apply Forall_map, Forall_forall. intros i Hi. cbn beta.
    apply barHeight_bounds; [|apply Hrandom].
    apply elem_of_seq in Hi. lia.
Qed.

Lemma bars_fit_the_meter_witness :
  length (getBarHeights 0.3 (fun _ => 0.25%Q)) = 9%nat
  /\ Forall (fun height => (4 <= height <= 39)%Q)
       (getBarHeights 0.3 (fun _ => 0.25%Q)).
Proof.
  apply bars_fit_the_meter. intros _. split; [unfold Qle | unfold Qlt]; cbn; lia.
Defined.

End View.
